(** * Checkpoint translation for ConvNeXt (jam/flax/convnext/convnext.py)

    A shallow embedding of the weight-porting code of [convnext.py]:
    the tensor layout helpers, the rule handlers registered on
    [convnext_importer], the rule dispatch of the translator, the
    reassembly of the flat mapping into a nested parameter tree, and
    [load_from_torch_checkpoint]. *)

From Stdlib Require Import ZArith Ascii.
From stdpp Require Import gmap strings list fin_maps pretty.


(** ** Exceptions and the result of a call that may raise *)

Inductive error : Type :=
  | ValueError (msg : string)
  | AxisError (axis ndim : nat)
  | IndexError (msg : string)
  | KeyError (key : option string)
  | TypeError (msg : string)
  | ReError (msg : string)
  | UnmatchedKeyError (key : string)
  | DuplicateTargetKeyError (key : string)
  | StructuralConflictError.

Inductive result (X : Type) : Type :=
  | Ok (x : X)
  | Err (e : error).

Arguments Ok {X} x.
Arguments Err {X} e.

#[export] Instance result_ret : MRet result := λ X x, Ok x.
#[export] Instance result_bind : MBind result := λ X Y f r,
  match r with
  | Ok x => f x
  | Err e => Err e
  end.

Definition is_ok {X} (r : result X) : bool :=
  match r with Ok _ => true | Err _ => false end.

(** ** Tensors

    A tensor is a numpy array: a buffer of elements seen through an
    offset, a shape and one stride per axis (counted in elements). *)

Section Ndarray.
Context {A : Type}.

(** [dims] gives, for every axis, its extent and its stride. *)
Record ndarray : Type := mk_ndarray {
  data : list A;
  offset : nat;
  dims : list (nat * nat)
}.

Definition shape (t : ndarray) : list nat := (dims t).*1.

Definition strides (t : ndarray) : list nat := (dims t).*2.

Definition ndim (t : ndarray) : nat := length (dims t).

Definition size (t : ndarray) : nat := foldr Nat.mul 1 (shape t).

(** Strides of a C-contiguous array of the given shape. *)
Fixpoint c_strides (sh : list nat) : list nat :=
  match sh with
  | [] => []
  | _ :: sh' => foldr Nat.mul 1 sh' :: c_strides sh'
  end.

(** A C-contiguous array with the given shape and elements. *)
Definition np_array (sh : list nat) (d : list A) : ndarray :=
  {| data := d; offset := 0; dims := zip sh (c_strides sh) |}.

Fixpoint index_ok (idx sh : list nat) : bool :=
  match idx, sh with
  | [], [] => true
  | i :: idx', n :: sh' => (i <? n) && index_ok idx' sh'
  | _, _ => false
  end.

Fixpoint flat_index (idx st : list nat) : nat :=
  match idx, st with
  | i :: idx', s :: st' => i * s + flat_index idx' st'
  | _, _ => 0
  end.

(** [t[idx]] for a full index, [None] when the index is out of bounds. *)
Definition get (t : ndarray) (idx : list nat) : option A :=
  if index_ok idx (shape t)
  then data t !! (offset t + flat_index idx (strides t))
  else None.

(** The elements in C order, as [ndarray.ravel] lists them. *)
Fixpoint ravel_from (d : list A) (ds : list (nat * nat)) (off : nat) : list A :=
  match ds with
  | [] => match d !! off with Some x => [x] | None => [] end
  | (n, s) :: ds' =>
      flat_map (λ i, ravel_from d ds' (off + i * s)) (seq 0 n)
  end.

Definition ravel (t : ndarray) : list A :=
  ravel_from (data t) (dims t) (offset t).

(** Modelled from the spec: [ndarray.reshape(-1)] belongs to numpy, which
    is not part of the sources; section 4.1 (d) describes it as
    flattening to rank 1. *)
Definition reshape_flat (t : ndarray) : ndarray :=
  {| data := ravel t; offset := 0; dims := [(size t, 1)] |}.

(** [[l[a] for a in axes]] *)
Definition permute {X} (axes : list nat) (l : list X) : list X :=
  omap (λ a, l !! a) axes.

(** The checks numpy makes on the axes of a transposition, one axis after
    the other: in range, and not seen before. *)
Fixpoint check_axes (axes : list nat) (n : nat) (seen : list nat) : option error :=
  match axes with
  | [] => None
  | ax :: axes' =>
      if negb (ax <? n) then Some (AxisError ax n)
      else if bool_decide (ax ∈ seen)
      then Some (ValueError "repeated axis in transpose")
      else check_axes axes' n (ax :: seen)
  end.

(** Modelled from the spec: [np.transpose(a, axes)] belongs to numpy, which
    is not part of the sources; section 4.3 describes it as permuting
    the axes and failing on an unexpected rank.  As in numpy the
    result is a view on the same buffer: axis [i] of the result is
    axis [axes[i]] of the argument. *)
Definition np_transpose (a : ndarray) (axes : list nat) : result ndarray :=
  if negb (length axes =? ndim a) then
    Err (ValueError "axes don't match array")
  else
    match check_axes axes (ndim a) [] with
    | Some e => Err e
    | None =>
        Ok {| data := data a; offset := offset a; dims := permute axes (dims a) |}
    end.

(** [transpose_conv_weights], convnext.py line 229. *)
Definition transpose_conv_weights (w : ndarray) : result ndarray :=
  np_transpose w [2; 3; 1; 0].

(** The dense-kernel transpose [np.transpose(val, [1, 0])],
    convnext.py lines 273 and 313. *)
Definition transpose_dense_weights (val : ndarray) : result ndarray :=
  np_transpose val [1; 0].

End Ndarray.

Arguments ndarray A : clear implicits.

(** ** Python strings and integers *)

(** A value that is a [str] or [None], as [Match.groups()] hands to a
    handler. *)
Definition pystr : Type := option string.

Definition is_digit (c : ascii) : bool :=
  let n := nat_of_ascii c in (48 <=? n) && (n <=? 57).

Fixpoint digits_to_Z (s : string) (acc : Z) : option Z :=
  match s with
  | EmptyString => Some acc
  | String c s' =>
      if is_digit c
      then digits_to_Z s' (10 * acc + Z.of_nat (nat_of_ascii c - 48))%Z
      else None
  end.

(** [int(x)] on an optionally signed run of decimal digits.  [None] is a
    [TypeError], anything else a [ValueError]; the surrounding blanks and
    the underscores between digits that Python also accepts cannot occur in
    a group captured by the patterns below. *)
Definition py_int (x : pystr) : result Z :=
  match x with
  | None => Err (TypeError "int() argument must be a string")
  | Some s =>
      let parse body :=
        match body with
        | EmptyString => None
        | _ => digits_to_Z body 0%Z
        end in
      let r :=
        match s with
        | String "-" body => Z.opp <$> parse body
        | String "+" body => parse body
        | _ => parse s
        end in
      match r with
      | Some n => Ok n
      | None => Err (ValueError ("invalid literal for int(): " +:+ s))
      end
  end.

(** [a // b] on Python integers rounds towards minus infinity. *)
Definition floordiv (a b : Z) : Z := (a `div` b)%Z.

(** [f"{n}"] for an integer. *)
Definition fmt_int (n : Z) : string := pretty n.

(** [f"{x}"] for a [str] or [None]. *)
Definition fmt_str (x : pystr) : string :=
  match x with
  | Some s => s
  | None => "None"
  end.

(** [x == s] for [x] a [str] or [None]. *)
Definition str_eq (x : pystr) (s : string) : bool :=
  match x with
  | Some s' => bool_decide (s' = s)
  | None => false
  end.

(** Subscription [d[k]] of a dict literal; a missing key is a [KeyError]. *)
Fixpoint dict_getitem {K V} `{EqDecision K}
    (d : list (K * V)) (k : K) (err : error) : result V :=
  match d with
  | [] => Err err
  | (k', v) :: d' => if decide (k' = k) then Ok v else dict_getitem d' k err
  end.

(** [s.split(sep)]: the pieces of [s] between the occurrences of [sep],
    scanned from the left.  [skip] counts the characters of an occurrence
    of [sep] still to be passed over. *)
Fixpoint is_prefix (p s : string) : bool :=
  match p, s with
  | EmptyString, _ => true
  | String a p', String b s' => bool_decide (a = b) && is_prefix p' s'
  | String _ _, EmptyString => false
  end.

Definition cons_head (c : ascii) (l : list string) : list string :=
  match l with
  | [] => [String c EmptyString]
  | x :: l' => String c x :: l'
  end.

Fixpoint split_go (sep s : string) (skip : nat) : list string :=
  match s with
  | EmptyString => [EmptyString]
  | String c s' =>
      match skip with
      | S n => split_go sep s' n
      | O =>
          if is_prefix sep s
          then EmptyString :: split_go sep s' (String.length sep - 1)
          else cons_head c (split_go sep s' 0)
      end
  end.

Definition str_split (s sep : string) : result (list string) :=
  match sep with
  | EmptyString => Err (ValueError "empty separator")
  | _ => Ok (split_go sep s 0)
  end.

(** [s[n:]] *)
Fixpoint str_drop (n : nat) (s : string) : string :=
  match n, s with
  | S n', String _ s' => str_drop n' s'
  | _, _ => s
  end.

(** [sep.join(l)] *)
Fixpoint str_join (sep : string) (l : list string) : string :=
  match l with
  | [] => EmptyString
  | [x] => x
  | x :: l' => x +:+ sep +:+ str_join sep l'
  end.

(** ** Regular expressions

    The patterns are compiled and matched by Python's [re], which is not
    part of the sources; section 4.1 asks for a match of the entire key with
    the captured groups in left-to-right order.  The syntax covered is the
    one the rule set uses: literal characters, [.], [\d], escaped
    punctuation, [+] on a single character, alternation and capturing
    groups. *)

(** Modelled from the spec: the character classes of [re] that the patterns
    use (a literal, [.], [\d]). *)
Inductive atom : Type :=
  | Chr (c : ascii)
  | AnyChar
  | DigitChar.

(** Modelled from the spec: a compiled pattern of [re]. *)
Inductive regex : Type :=
  | Eps
  | Atom (a : atom)
  | Plus (a : atom)
  | Cat (r1 r2 : regex)
  | Alt (r1 r2 : regex)
  | Group (r : regex).

Module Re.

Record frame : Type := mk_frame {
  alts : option regex;
  items : list regex
}.

Definition empty_frame : frame := {| alts := None; items := [] |}.

Definition push (r : regex) (f : frame) : frame :=
  {| alts := alts f; items := r :: items f |}.

Fixpoint seq_of (l : list regex) : regex :=
  match l with
  | [] => Eps
  | [r] => r
  | r :: l' => Cat r (seq_of l')
  end.

Definition finish (f : frame) : regex :=
  match alts f with
  | None => seq_of (rev (items f))
  | Some a => Alt a (seq_of (rev (items f)))
  end.

Definition is_alnum (c : ascii) : bool :=
  let n := nat_of_ascii c in
  ((48 <=? n) && (n <=? 57)) || ((65 <=? n) && (n <=? 90))
  || ((97 <=? n) && (n <=? 122)).

Definition unsupported : error := ReError "unsupported pattern syntax".

(** Modelled from the spec: the pattern syntax of [re].
    One pass over the pattern; [stack] holds the enclosing groups, [top]
    the group being read and [esc] tells that a backslash was just read. *)
Fixpoint parse (p : string) (esc : bool) (stack : list frame) (top : frame)
    : result regex :=
  match p with
  | EmptyString =>
      if esc then Err (ReError "bad escape (end of pattern)")
      else match stack with
           | [] => Ok (finish top)
           | _ :: _ => Err (ReError "missing ), unterminated subpattern")
           end
  | String c p' =>
      if esc then
        if bool_decide (c = "d"%char)
        then parse p' false stack (push (Atom DigitChar) top)
        else if is_alnum c then Err unsupported
        else parse p' false stack (push (Atom (Chr c)) top)
      else
        match c with
        | "\"%char => parse p' true stack top
        | "."%char => parse p' false stack (push (Atom AnyChar) top)
        | "("%char =>
            match p' with
            | String "?"%char _ => Err unsupported
            | _ => parse p' false (top :: stack) empty_frame
            end
        | ")"%char =>
            match stack with
            | [] => Err (ReError "unbalanced parenthesis")
            | parent :: stack' =>
                parse p' false stack' (push (Group (finish top)) parent)
            end
        | "|"%char =>
            parse p' false stack {| alts := Some (finish top); items := [] |}
        | "+"%char =>
            match items top with
            | Atom a :: rest =>
                parse p' false stack {| alts := alts top; items := Plus a :: rest |}
            | _ => Err unsupported
            end
        | "*"%char | "?"%char | "["%char | "]"%char | "{"%char | "}"%char
        | "^"%char | "$"%char => Err unsupported
        | _ => parse p' false stack (push (Atom (Chr c)) top)
        end
  end.

(** Modelled from the spec: [re.compile(pattern)]. *)
Definition compile (pattern : string) : result regex :=
  parse pattern false [] empty_frame.

(** Modelled from the spec: what a character class of [re] accepts; [.]
    accepts everything but a newline. *)
Definition atom_matches (a : atom) (c : ascii) : bool :=
  match a with
  | Chr c' => bool_decide (c = c')
  | AnyChar => negb (bool_decide (c = "010"%char))
  | DigitChar => is_digit c
  end.

Fixpoint ngroups (r : regex) : nat :=
  match r with
  | Eps | Atom _ | Plus _ => 0
  | Cat r1 r2 | Alt r1 r2 => ngroups r1 + ngroups r2
  | Group r' => S (ngroups r')
  end.

(** The part of [s] consumed when [rest] is what is left of it. *)
Definition consumed (s rest : string) : string :=
  String.substring 0 (String.length s - String.length rest) s.

Section Matcher.
Context {X : Type}.

(** Modelled from the spec: the greedy repetition of [re] on one character
    class, the longest run first, then shorter ones. *)
Fixpoint star_atom (a : atom) (s : string) (k : string → option X)
    : option X :=
  match s with
  | String c s' =>
      if atom_matches a c then
        match star_atom a s' k with
        | Some x => Some x
        | None => k s
        end
      else k s
  | EmptyString => k s
  end.

(** Modelled from the spec: the backtracking match of [re].
    [rmatch] matches [r] at the start of [s]; [g] is the number of
    the first group of [r], [caps] the groups captured so far and [k]
    what remains to be matched after [r]. *)
Fixpoint rmatch (r : regex) (g : nat) (s : string) (caps : list pystr)
    (k : string → list pystr → option X) : option X :=
  match r with
  | Eps => k s caps
  | Atom a =>
      match s with
      | String c s' => if atom_matches a c then k s' caps else None
      | EmptyString => None
      end
  | Plus a =>
      match s with
      | String c s' =>
          if atom_matches a c then star_atom a s' (λ s'', k s'' caps)
          else None
      | EmptyString => None
      end
  | Cat r1 r2 =>
      rmatch r1 g s caps (λ s' caps', rmatch r2 (g + ngroups r1) s' caps' k)
  | Alt r1 r2 =>
      match rmatch r1 g s caps k with
      | Some x => Some x
      | None => rmatch r2 (g + ngroups r1) s caps k
      end
  | Group r' =>
      rmatch r' (S g) s caps
        (λ s' caps', k s' (<[g := Some (consumed s s')]> caps'))
  end.
End Matcher.

(** Modelled from the spec: [pattern.fullmatch(key)] of [re], giving
    [Match.groups()] on success (section 4.1: the entire key matches). *)
Definition fullmatch (r : regex) (key : string) : option (list pystr) :=
  rmatch r 0 key (replicate (ngroups r) None)
    (λ rest caps, match rest with EmptyString => Some caps | _ => None end).

(** The strings a pattern denotes. *)
Inductive plus_lang (a : atom) : string → Prop :=
  | plus_one c :
      atom_matches a c = true → plus_lang a (String c EmptyString)
  | plus_more c s :
      atom_matches a c = true → plus_lang a s → plus_lang a (String c s).

Inductive lang : regex → string → Prop :=
  | lang_eps : lang Eps EmptyString
  | lang_atom a c :
      atom_matches a c = true → lang (Atom a) (String c EmptyString)
  | lang_plus a s : plus_lang a s → lang (Plus a) s
  | lang_cat r1 r2 s1 s2 :
      lang r1 s1 → lang r2 s2 → lang (Cat r1 r2) (s1 +:+ s2)
  | lang_alt_l r1 r2 s : lang r1 s → lang (Alt r1 r2) s
  | lang_alt_r r1 r2 s : lang r2 s → lang (Alt r1 r2) s
  | lang_group r s : lang r s → lang (Group r) s.

End Re.

(** ** The checkpoint translator

    [checkpoint_utils.CheckpointTranslator] and [checkpoint_utils.as_numpy]
    are imported by convnext.py but their module is not part of the sources.
    Sections 3, 4.1 and 4.2 describe them: an ordered list of rules, each a
    compiled pattern with a handler; [add] appends a rule; [apply] sends
    every entry to the first rule whose pattern matches the whole key and
    collects the handlers' results. *)

(** A flat mapping from keys to tensors, in iteration order. *)
Abbreviation flat_dict T := (list (string * T)).

Section Translator.
Context {T : Type}.

(** Modelled from the spec: the [PatternRule] of section 3, a compiled
    pattern with its handler; [checkpoint_utils] is not part of the
    sources. *)
Record PatternRule : Type := mk_rule {
  pattern : regex;
  handler : string → T → list pystr → result (string * T)
}.

(** Modelled from the spec: the Registry of section 3,
    [checkpoint_utils.CheckpointTranslator], the rules in registration
    order. *)
Definition CheckpointTranslator : Type := list PatternRule.

(** Modelled from the spec: section 4.1, [matches(key)]: whether the entire
    key matches, with the captured groups. *)
Definition matches (rule : PatternRule) (key : string) : option (list pystr) :=
  Re.fullmatch (pattern rule) key.

(** Modelled from the spec: section 4.2, [add(pattern)] registers the handler
    under the pattern, after the rules registered before. *)
Definition add (pat : string) (fn : string → T → list pystr → result (string * T))
    (self : CheckpointTranslator) : result CheckpointTranslator :=
  r ← Re.compile pat;
  Ok (self ++ [{| pattern := r; handler := fn |}]).

(** Modelled from the spec: section 4.2, the first rule, in registration
    order, that matches the key. *)
Fixpoint find_rule (rules : CheckpointTranslator) (key : string)
    : option (PatternRule * list pystr) :=
  match rules with
  | [] => None
  | rule :: rules' =>
      match matches rule key with
      | Some groups => Some (rule, groups)
      | None => find_rule rules' key
      end
  end.

(** Modelled from the spec: section 4.2, what [apply] does with one entry:
    the handler of the first matching rule is called with the key, the
    tensor and the groups; no matching rule is an unmatched-key error. *)
Definition translate_entry (rules : CheckpointTranslator) (key : string) (val : T)
    : result (string * T) :=
  match find_rule rules key with
  | Some (rule, groups) => handler rule key val groups
  | None => Err (UnmatchedKeyError key)
  end.

(** Modelled from the spec: section 4.2, the pass of [apply] over the
    entries; a target key produced twice is a duplicate-target-key error. *)
Fixpoint apply_loop (rules : CheckpointTranslator) (entries : flat_dict T)
    (new_dict : flat_dict T) : result (flat_dict T) :=
  match entries with
  | [] => Ok new_dict
  | (key, val) :: entries' =>
      '(new_key, new_val) ← translate_entry rules key val;
      if bool_decide (new_key ∈ new_dict.*1)
      then Err (DuplicateTargetKeyError new_key)
      else apply_loop rules entries' (new_dict ++ [(new_key, new_val)])
  end.

(** Modelled from the spec: section 4.2, [apply(mapping)]. *)
Definition apply (self : CheckpointTranslator) (state_dict : flat_dict T)
    : result (flat_dict T) :=
  apply_loop self state_dict [].

(** The translator a sequence of registrations leaves behind. *)
Definition loaded (setup : result CheckpointTranslator) : CheckpointTranslator :=
  match setup with
  | Ok self => self
  | Err _ => []
  end.

(** Modelled from the spec: section 6, [as_numpy] converts the values of the
    checkpoint to arrays and keeps the keys; tensors are arrays already
    here. *)
Definition as_numpy (state_dict : flat_dict T) : flat_dict T :=
  map (λ '(k, v), (k, v)) state_dict.

End Translator.

Arguments PatternRule T : clear implicits.
Arguments CheckpointTranslator T : clear implicits.

(** ** The parameter tree *)

(** Modelled from the spec: the ParameterTree of section 3, what
    [flax.traverse_util.unflatten_dict] returns: a mapping from segments to
    tensors or further mappings. *)
#[warnings="-register-all"]
Inductive tree (T : Type) : Type :=
  | Leaf (t : T)
  | Node (children : gmap string (tree T)).

Arguments Leaf {T} t.
Arguments Node {T} children.

Section Unflatten.
Context {T : Type}.

(** Modelled from the spec: section 4.4, the step of [unflatten_dict] into
    the mapping under [key], an empty one when [key] is new.  A tensor there
    is a structural conflict. *)
Definition descend (cursor : gmap string (tree T)) (key : string)
    : result (gmap string (tree T)) :=
  match cursor !! key with
  | None => Ok ∅
  | Some (Node children) => Ok children
  | Some (Leaf _) => Err StructuralConflictError
  end.

(** Modelled from the spec: section 4.4, what [unflatten_dict] does with one
    key: walk or create the nested mappings for all but the last segment and
    assign the tensor at the last one.  A tensor where a mapping is needed,
    or a mapping where the tensor goes, is a structural conflict. *)
Fixpoint insert_path (path : list string) (value : T) (cursor : gmap string (tree T))
    : result (gmap string (tree T)) :=
  match path with
  | [] => Err (IndexError "list index out of range")
  | key :: path' =>
      match path' with
      | [] =>
          match cursor !! key with
          | Some (Node _) => Err StructuralConflictError
          | _ => Ok (<[key := Leaf value]> cursor)
          end
      | _ :: _ =>
          children ← descend cursor key;
          sub ← insert_path path' value children;
          Ok (<[key := Node sub]> cursor)
      end
  end.

(** Modelled from the spec: section 4.4, the pass of [unflatten_dict] over
    the entries. *)
Fixpoint unflatten_loop (entries : flat_dict T) (sep : string)
    (result_ : gmap string (tree T)) : result (gmap string (tree T)) :=
  match entries with
  | [] => Ok result_
  | (path, value) :: entries' =>
      path ← str_split path sep;
      result_ ← insert_path path value result_;
      unflatten_loop entries' sep result_
  end.

(** Modelled from the spec: [flax.traverse_util.unflatten_dict(xs, sep)]
    belongs to flax, which is not part of the sources; section 4.4
    describes it as [unflatten(mapping, separator)]. *)
Definition unflatten_dict (xs : flat_dict T) (sep : string)
    : result (gmap string (tree T)) :=
  unflatten_loop xs sep ∅.

(** The number of tensors held by a tree. *)
Fixpoint leaf_count (t : tree T) : nat :=
  match t with
  | Leaf _ => 1
  | Node children => map_fold (λ _ child n, leaf_count child + n) 0 children
  end.

Definition leaves (m : gmap string (tree T)) : nat := leaf_count (Node m).

(** The tensor at the end of a path, if the path ends on one. *)
Fixpoint lookup_path (path : list string) (m : gmap string (tree T)) : option T :=
  match path with
  | [] => None
  | key :: path' =>
      match m !! key, path' with
      | Some (Leaf t), [] => Some t
      | Some (Node children), _ :: _ => lookup_path path' children
      | _, _ => None
      end
  end.

End Unflatten.

(** ** The rule set of [convnext_importer] and the loader *)

Section Convnext.
Context {A : Type}.

Abbreviation rule_result := (result (string * ndarray A)).

Definition arity_error : error :=
  TypeError "handler called with the wrong number of arguments".

Definition weight_kernel : list (pystr * string) :=
  [(Some "weight", "kernel"); (Some "bias", "bias")].

Definition weight_scale : list (pystr * string) :=
  [(Some "weight", "scale"); (Some "bias", "bias")].

(** convnext.py line 234, registered under [features.0.0.(weight|bias)]. *)
Definition initial_conv (key : string) (val : ndarray A) (groups : list pystr)
    : rule_result :=
  match groups with
  | [weight_or_bias] =>
      newname ← dict_getitem weight_kernel weight_or_bias (KeyError weight_or_bias);
      let newkey := "stem/layers_0/" +:+ newname in
      val ← (if bool_decide (newname = "kernel")
             then transpose_conv_weights val else Ok val);
      Ok (newkey, val)
  | _ => Err arity_error
  end.

(** line 243, registered under [features.0.1.(weight|bias)]. *)
Definition initial_norm (key : string) (val : ndarray A) (groups : list pystr)
    : rule_result :=
  match groups with
  | [weight_or_bias] =>
      newname ← dict_getitem weight_scale weight_or_bias (KeyError weight_or_bias);
      let newkey := "stem/layers_1/" +:+ newname in
      Ok (newkey, val)
  | _ => Err arity_error
  end.

(** [(int(stage) - 1) // 2], lines 251, 259, 270 and 280. *)
Definition stage_index (stage : pystr) : result Z :=
  n ← py_int stage;
  Ok (floordiv (n - 1) 2).

(** line 250, registered under [features.(1|3|5|7).(\d+).layer_scale]. *)
Definition cn_block_layer_scale (key : string) (val : ndarray A)
    (groups : list pystr) : rule_result :=
  match groups with
  | [stage; block_id] =>
      new_stage ← stage_index stage;
      let newkey := "stages_" +:+ fmt_int new_stage +:+ "/CNBlock_"
                    +:+ fmt_str block_id +:+ "/layer_scale" in
      Ok (newkey, reshape_flat val)
  | _ => Err arity_error
  end.

(** line 257, registered under
    [features.(1|3|5|7).(\d+).block.0.(weight|bias)]. *)
Definition cn_block_block_conv (key : string) (val : ndarray A)
    (groups : list pystr) : rule_result :=
  match groups with
  | [stage; block; weight_or_bias] =>
      newname ← dict_getitem weight_kernel weight_or_bias (KeyError weight_or_bias);
      new_stage ← stage_index stage;
      let newkey := "stages_" +:+ fmt_int new_stage +:+ "/CNBlock_"
                    +:+ fmt_str block +:+ "/block/layers_0/" +:+ newname in
      val ← (if str_eq weight_or_bias "weight"
             then transpose_conv_weights val else Ok val);
      Ok (newkey, val)
  | _ => Err arity_error
  end.

(** line 267, registered under
    [features.(1|3|5|7).(\d+).block.(3|5).(weight|bias)]. *)
Definition cn_block_block_dense (key : string) (val : ndarray A)
    (groups : list pystr) : rule_result :=
  match groups with
  | [stage; block; dense_idx; weight_or_bias] =>
      idx ← py_int dense_idx;
      new_idx ← dict_getitem [(3, 2); (5, 4)]%Z idx (KeyError (Some (fmt_int idx)));
      newname ← dict_getitem weight_kernel weight_or_bias (KeyError weight_or_bias);
      new_stage ← stage_index stage;
      let newkey := "stages_" +:+ fmt_int new_stage +:+ "/CNBlock_"
                    +:+ fmt_str block +:+ "/block/layers_" +:+ fmt_int new_idx
                    +:+ "/" +:+ newname in
      val ← (if str_eq weight_or_bias "weight"
             then transpose_dense_weights val else Ok val);
      Ok (newkey, val)
  | _ => Err arity_error
  end.

(** line 278, registered under
    [features.(1|3|5|7).(\d+).block.2.(weight|bias)]. *)
Definition cn_block_block_norm (key : string) (val : ndarray A)
    (groups : list pystr) : rule_result :=
  match groups with
  | [stage; block; weight_or_bias] =>
      newname ← dict_getitem weight_scale weight_or_bias (KeyError weight_or_bias);
      new_stage ← stage_index stage;
      let newkey := "stages_" +:+ fmt_int new_stage +:+ "/CNBlock_"
                    +:+ fmt_str block +:+ "/block/layers_1/" +:+ newname in
      Ok (newkey, val)
  | _ => Err arity_error
  end.

(** line 286, registered under [features.(2|4|6).0.(weight|bias)]. *)
Definition block_projection_norm (key : string) (val : ndarray A)
    (groups : list pystr) : rule_result :=
  match groups with
  | [layer; weight_or_bias] =>
      newname ← dict_getitem weight_scale weight_or_bias (KeyError weight_or_bias);
      n ← py_int layer;
      let newkey := "stages_" +:+ fmt_int (floordiv n 2) +:+ "/LayerNorm_0/"
                    +:+ newname in
      Ok (newkey, val)
  | _ => Err arity_error
  end.

(** line 293, registered under [features.(2|4|6).1.(weight|bias)]. *)
Definition block_projection_conv (key : string) (val : ndarray A)
    (groups : list pystr) : rule_result :=
  match groups with
  | [layer; weight_or_bias] =>
      newname ← dict_getitem weight_kernel weight_or_bias (KeyError weight_or_bias);
      n ← py_int layer;
      let newkey := "stages_" +:+ fmt_int (floordiv n 2) +:+ "/Conv_0/"
                    +:+ newname in
      val ← (if str_eq weight_or_bias "weight"
             then transpose_conv_weights val else Ok val);
      Ok (newkey, val)
  | _ => Err arity_error
  end.

(** line 302, registered under [classifier.0.(weight|bias)]. *)
Definition classifier_norm (key : string) (val : ndarray A)
    (groups : list pystr) : rule_result :=
  match groups with
  | [weight_or_bias] =>
      newname ← dict_getitem weight_scale weight_or_bias (KeyError weight_or_bias);
      let newkey := "classifier/layers_0/" +:+ newname in
      Ok (newkey, val)
  | _ => Err arity_error
  end.

(** line 309, registered under [classifier.2.(weight|bias)]. *)
Definition classifier_dense (key : string) (val : ndarray A)
    (groups : list pystr) : rule_result :=
  match groups with
  | [weight_or_bias] =>
      newname ← dict_getitem weight_kernel weight_or_bias (KeyError weight_or_bias);
      let newkey := "classifier/layers_2/" +:+ newname in
      val ← (if str_eq weight_or_bias "weight"
             then transpose_dense_weights val else Ok val);
      Ok (newkey, val)
  | _ => Err arity_error
  end.

(** The registrations of lines 226 to 314, in order. *)
Definition convnext_importer_setup : result (CheckpointTranslator (ndarray A)) :=
  self ← Ok [];
  self ← add "features.0.0.(weight|bias)" initial_conv self;
  self ← add "features.0.1.(weight|bias)" initial_norm self;
  self ← add "features.(1|3|5|7).(\d+).layer_scale" cn_block_layer_scale self;
  self ← add "features.(1|3|5|7).(\d+).block.0.(weight|bias)" cn_block_block_conv self;
  self ← add "features.(1|3|5|7).(\d+).block.(3|5).(weight|bias)" cn_block_block_dense self;
  self ← add "features.(1|3|5|7).(\d+).block.2.(weight|bias)" cn_block_block_norm self;
  self ← add "features.(2|4|6).0.(weight|bias)" block_projection_norm self;
  self ← add "features.(2|4|6).1.(weight|bias)" block_projection_conv self;
  self ← add "classifier.0.(weight|bias)" classifier_norm self;
  self ← add "classifier.2.(weight|bias)" classifier_dense self;
  Ok self.

(** The translator once the module is loaded. *)
Definition convnext_importer : CheckpointTranslator (ndarray A) :=
  loaded convnext_importer_setup.

(** A translator holding only the rule of line 233, registered under the
    given pattern, as in the unmatched-key scenario of section 8. *)
Definition initial_conv_only (pat : string) : CheckpointTranslator (ndarray A) :=
  loaded (add pat initial_conv []).

(** [{k: v for k, v in converted_dict.items()}], line 321. *)
Definition dict_copy {V} (d : flat_dict V) : flat_dict V :=
  map (λ '(k, v), (k, v)) d.

(** [load_from_torch_checkpoint], line 317. *)
Definition load_from_torch_checkpoint (state_dict : flat_dict (ndarray A))
    : result (gmap string (tree (ndarray A))) :=
  converted_dict ← apply convnext_importer (as_numpy state_dict);
  let converted_dict := dict_copy converted_dict in
  params ← unflatten_dict converted_dict "/";
  Ok {[ "params" := Node params ]}.

End Convnext.

(** ** The groups of a pattern *)

(** The compiled form of a pattern string that [re.compile] accepts. *)
Definition compiled (pat : string) : regex :=
  match Re.compile pat with
  | Ok r => r
  | Err _ => Eps
  end.

(** The sub-patterns in parentheses, in the order of their opening
    parenthesis, which is the order of [Match.groups()]. *)
Fixpoint groups_of (r : regex) : list regex :=
  match r with
  | Eps | Atom _ | Plus _ => []
  | Cat r1 r2 | Alt r1 r2 => groups_of r1 ++ groups_of r2
  | Group r' => r' :: groups_of r'
  end.

(** No group sits inside an alternative, so every group takes part in
    every match. *)
Fixpoint no_group_in_alt (r : regex) : bool :=
  match r with
  | Eps | Atom _ | Plus _ => true
  | Cat r1 r2 => no_group_in_alt r1 && no_group_in_alt r2
  | Alt r1 r2 => (Re.ngroups r1 =? 0) && (Re.ngroups r2 =? 0)
  | Group r' => no_group_in_alt r'
  end.

(** The strings of a pattern built from literal characters only, [None]
    for a pattern with a character class. *)
Fixpoint finite_lang (r : regex) : option (list string) :=
  match r with
  | Eps => Some [EmptyString]
  | Atom (Chr c) => Some [String c EmptyString]
  | Atom _ | Plus _ => None
  | Cat r1 r2 =>
      match finite_lang r1, finite_lang r2 with
      | Some l1, Some l2 =>
          Some (mbind (M := list) (λ s1, (λ s2, s1 +:+ s2) <$> l2) l1)
      | _, _ => None
      end
  | Alt r1 r2 =>
      match finite_lang r1, finite_lang r2 with
      | Some l1, Some l2 => Some (l1 ++ l2)
      | _, _ => None
      end
  | Group r' => finite_lang r'
  end.

(** ** The layers that the target keys name *)

Inductive layer_kind : Type :=
  | ConvLayer
  | NormLayer
  | DenseLayer
  | Activation
  | Reshape.

(** [CNBlock.setup], lines 48 to 62: the layers given to [nn.Sequential]
    for [self.block]: convolution, norm, dense, gelu, dense. *)
Definition cn_block_layers : list layer_kind :=
  [ConvLayer; NormLayer; DenseLayer; Activation; DenseLayer].

(** [ConvNeXt.setup], lines 125 to 136: the layers of [stem]. *)
Definition stem_layers : list layer_kind := [ConvLayer; NormLayer].

(** [ConvNeXt.setup], lines 163 to 170: the layers of [classifier]: norm,
    the reshaping lambda, dense. *)
Definition classifier_layers : list layer_kind :=
  [NormLayer; Reshape; DenseLayer].

(** Modelled from the spec: the parameter names belong to flax, which is
    not part of the sources: [nn.Conv] and [nn.Dense] with a bias hold
    [kernel] and [bias], [nn.LayerNorm] holds [scale] and [bias]
    (section 4.1 (a) names the same vocabulary); the other layers hold
    nothing. *)
Definition param_names (k : layer_kind) : list string :=
  match k with
  | ConvLayer | DenseLayer => ["kernel"; "bias"]
  | NormLayer => ["scale"; "bias"]
  | Activation | Reshape => []
  end.

(** [new_key] is [prefix + "layers_<i>/<name>"] for a layer [i] of [layers]
    that holds a parameter [name]. *)
Definition names_layer_param (layers : list layer_kind) (prefix new_key : string)
    : Prop :=
  ∃ (i : nat) kind name,
    layers !! i = Some kind
    ∧ name ∈ param_names kind
    ∧ new_key = prefix +:+ "layers_" +:+ pretty i +:+ "/" +:+ name.

(** The handlers with a [weight_or_bias] parameter: all but
    [cn_block_layer_scale]. *)
Definition weight_or_bias_handlers {A}
    : list (string → ndarray A → list pystr → result (string * ndarray A)) :=
  [initial_conv; initial_norm; cn_block_block_conv; cn_block_block_dense;
   cn_block_block_norm; block_projection_norm; block_projection_conv;
   classifier_norm; classifier_dense].

(** ** The target keys read backwards *)

(** Whether the character [c] occurs in [s]. *)
Fixpoint str_mem (c : ascii) (s : string) : bool :=
  match s with
  | EmptyString => false
  | String a s' => bool_decide (a = c) || str_mem c s'
  end.

(** The key of [d] that holds the value [v]. *)
Fixpoint dict_key_of {K} (d : list (K * string)) (v : string) : option K :=
  match d with
  | [] => None
  | (k, v') :: d' => if String.eqb v' v then Some k else dict_key_of d' v
  end.

(** The block number in the segment [CNBlock_<block>]. *)
Definition block_of (seg : string) : option pystr :=
  if is_prefix "CNBlock_" seg then Some (Some (str_drop 8 seg)) else None.

(** The position of the rule of [convnext_importer] that returns the
    target key with the segments [path], and the groups it was called
    with: the translation of the keys read backwards. *)
Definition untranslate (path : list string) : option (nat * list pystr) :=
  let block_stage := [(Some "1", "stages_0"); (Some "3", "stages_1");
                      (Some "5", "stages_2"); (Some "7", "stages_3")] in
  let projection_stage := [(Some "2", "stages_1"); (Some "4", "stages_2");
                           (Some "6", "stages_3")] in
  match path with
  | [a; b; c] =>
      if String.eqb a "stem" then
        if String.eqb b "layers_0"
        then g ← dict_key_of weight_kernel c; Some (0, [g])
        else if String.eqb b "layers_1"
        then g ← dict_key_of weight_scale c; Some (1, [g])
        else None
      else if String.eqb a "classifier" then
        if String.eqb b "layers_0"
        then g ← dict_key_of weight_scale c; Some (8, [g])
        else if String.eqb b "layers_2"
        then g ← dict_key_of weight_kernel c; Some (9, [g])
        else None
      else if String.eqb b "LayerNorm_0" then
        layer ← dict_key_of projection_stage a;
        g ← dict_key_of weight_scale c; Some (6, [layer; g])
      else if String.eqb b "Conv_0" then
        layer ← dict_key_of projection_stage a;
        g ← dict_key_of weight_kernel c; Some (7, [layer; g])
      else if String.eqb c "layer_scale" then
        stage ← dict_key_of block_stage a;
        block ← block_of b; Some (2, [stage; block])
      else None
  | [a; b; c; d; e] =>
      if String.eqb c "block" then
        stage ← dict_key_of block_stage a;
        block ← block_of b;
        if String.eqb d "layers_0"
        then g ← dict_key_of weight_kernel e; Some (3, [stage; block; g])
        else if String.eqb d "layers_1"
        then g ← dict_key_of weight_scale e; Some (5, [stage; block; g])
        else if String.eqb d "layers_2"
        then g ← dict_key_of weight_kernel e;
             Some (4, [stage; block; Some "3"; g])
        else if String.eqb d "layers_4"
        then g ← dict_key_of weight_kernel e;
             Some (4, [stage; block; Some "5"; g])
        else None
      else None
  | _ => None
  end.

(** ** Patterns that no key can match together *)

(** One position of a pattern without alternatives: one character of a
    class, or one or more of them. *)
Inductive item : Type :=
  | One (a : atom)
  | Many (a : atom).

(** The pattern written as alternatives that are sequences of items:
    the alternations are multiplied out and the groups forgotten. *)
Fixpoint sequences (r : regex) : list (list item) :=
  match r with
  | Eps => [[]]
  | Atom a => [[One a]]
  | Plus a => [[Many a]]
  | Cat r1 r2 =>
      mbind (M := list) (λ s1, (λ s2, s1 ++ s2) <$> sequences r2) (sequences r1)
  | Alt r1 r2 => sequences r1 ++ sequences r2
  | Group r' => sequences r'
  end.

Definition item_lang (it : item) (key : string) : Prop :=
  match it with
  | One a => ∃ c, key = String c EmptyString ∧ Re.atom_matches a c = true
  | Many a => Re.plus_lang a key
  end.

(** The strings of a sequence of items. *)
Fixpoint seq_lang (s : list item) (key : string) : Prop :=
  match s with
  | [] => key = EmptyString
  | it :: s' =>
      ∃ k1 k2, key = k1 +:+ k2 ∧ item_lang it k1 ∧ seq_lang s' k2
  end.

(** No character is accepted by both classes. *)
Definition atoms_disjoint (a b : atom) : bool :=
  match a, b with
  | Chr c, other | other, Chr c => negb (Re.atom_matches other c)
  | _, _ => false
  end.

Definition item_atom (it : item) : atom :=
  match it with
  | One a | Many a => a
  end.

(** Whether two sequences differ at a position that both reach after the
    same number of characters: a position before the first repetition
    where the classes are disjoint, or the end of one sequence only. *)
Fixpoint clash (s1 s2 : list item) : bool :=
  match s1, s2 with
  | [], [] => false
  | [], _ :: _ | _ :: _, [] => true
  | One a :: s1', One b :: s2' => atoms_disjoint a b || clash s1' s2'
  | it1 :: _, it2 :: _ => atoms_disjoint (item_atom it1) (item_atom it2)
  end.

(** Two patterns are recognised as disjoint when all their alternatives
    differ at a fixed position counted from the start or from the end. *)
Definition patterns_disjoint (r1 r2 : regex) : bool :=
  forallb (λ s1,
    forallb (λ s2, clash s1 s2 || clash (rev s1) (rev s2)) (sequences r2))
    (sequences r1).

(** ** Runs of one character class *)

(** A run of the class [a] cannot go on into [rest]. *)
Definition stops (a : atom) (rest : string) : Prop :=
  match rest with
  | String c _ => Re.atom_matches a c = false
  | EmptyString => True
  end.

(** ** The set-up of the model *)

(** [CNBlockConfig], lines 35 to 38; the counts are natural numbers. *)
Record CNBlockConfig : Type := mk_config {
  num_channels : nat;
  num_layers : nat
}.

(** The exceptions of the set-up code. *)
Inductive setup_error : Type :=
  | ListIndexError
  | ZeroDivisionError.

Inductive outcome (X : Type) : Type :=
  | Built (x : X)
  | Raised (e : setup_error).

Arguments Built {X} x.
Arguments Raised {X} e.

#[export] Instance outcome_ret : MRet outcome := λ X x, Built x.
#[export] Instance outcome_bind : MBind outcome := λ X Y f r,
  match r with
  | Built x => f x
  | Raised e => Raised e
  end.

(** [[f(x) for x in l]] where [f] may raise. *)
Fixpoint for_each {X Y} (f : X → outcome Y) (l : list X) : outcome (list Y) :=
  match l with
  | [] => Built []
  | x :: l' => y ← f x; ys ← for_each f l'; Built (y :: ys)
  end.

(** [l[i]], an [IndexError] out of range. *)
Definition getitem {X} (l : list X) (i : nat) : outcome X :=
  match l !! i with
  | Some x => Built x
  | None => Raised ListIndexError
  end.

(** Modelled from the spec: [np.cumsum] belongs to numpy, which is not part
    of the sources: the running sums of a list. *)
Fixpoint cumsum_from (acc : nat) (l : list nat) : list nat :=
  match l with
  | [] => []
  | n :: l' => (acc + n) :: cumsum_from (acc + n) l'
  end.

Definition np_cumsum (l : list nat) : list nat := cumsum_from 0 l.

(** [l[a:b]] *)
Definition slice {X} (l : list X) (a b : nat) : list X :=
  take (b - a) (drop a l).

(** Modelled from the spec: [np.split(ary, indices)] belongs to numpy, which
    is not part of the sources: the pieces [ary[:i0]], [ary[i0:i1]], ...,
    [ary[i_last:]], one more than there are indices. *)
Fixpoint split_from {X} (ary : list X) (st : nat) (indices : list nat)
    : list (list X) :=
  match indices with
  | [] => [slice ary st (length ary)]
  | en :: indices' => slice ary st en :: split_from ary en indices'
  end.

Definition np_split {X} (ary : list X) (indices : list nat) : list (list X) :=
  split_from ary 0 indices.

Section Setup.
Context {F : Type}.

(** The floating-point value of
    [self.stochastic_depth_prob * stage_block_id / (total_stage_blocks - 1.0)]
    for a divisor that is not zero, and the value of [self.layer_scale]. *)
Variable sd_value : nat → nat → F.
Variable layer_scale : F.

(** One element of the list of line 140: the division raises when
    [total_stage_blocks - 1.0] is zero. *)
Definition sd_prob (total_stage_blocks stage_block_id : nat) : outcome F :=
  if total_stage_blocks =? 1 then Raised ZeroDivisionError
  else Built (sd_value stage_block_id total_stage_blocks).

(** The arguments that [ConvNeXt.setup] gives to a [ConvNextStage]. *)
Record stage_config : Type := mk_stage {
  stage_num_channels : nat;
  stage_num_layers : nat;
  stage_layer_scale : F;
  stage_stride : nat;
  stage_probs : list F
}.

(** The arguments that [ConvNextStage.__call__] gives to a block. *)
Record block_config : Type := mk_block {
  block_dim : nat;
  block_layer_scale : F;
  block_stochastic_depth_prob : F
}.

(** The stages of line 148 to 160, from the index [i] on. *)
Fixpoint build_stages (i : nat) (settings : list CNBlockConfig)
    (sd_probs : list (list F)) : outcome (list stage_config) :=
  match settings with
  | [] => Built []
  | cnf :: settings' =>
      probs ← getitem sd_probs i;
      let stage :=
        {| stage_num_channels := num_channels cnf;
           stage_num_layers := num_layers cnf;
           stage_layer_scale := layer_scale;
           stage_stride := if 0 <? i then 2 else 1;
           stage_probs := probs |} in
      stages ← build_stages (S i) settings' sd_probs;
      Built (stage :: stages)
  end.

(** [ConvNeXt.setup], lines 121 to 162: the number of channels of the
    first convolution and the stages. *)
Definition setup (block_settings : list CNBlockConfig)
    : outcome (nat * list stage_config) :=
  first ← getitem block_settings 0;
  let firstconv_output_channels := num_channels first in
  let total_stage_blocks := sum_list (num_layers <$> block_settings) in
  sd_probs ← for_each (sd_prob total_stage_blocks) (seq 0 total_stage_blocks);
  let sd_probs := np_split sd_probs (np_cumsum (num_layers <$> block_settings)) in
  stages ← build_stages 0 block_settings sd_probs;
  Built (firstconv_output_channels, stages).

(** The blocks that [ConvNextStage.__call__] creates, lines 99 to 105. *)
Definition stage_blocks (st : stage_config) : outcome (list block_config) :=
  for_each
    (λ i, p ← getitem (stage_probs st) i;
          Built {| block_dim := stage_num_channels st;
                   block_layer_scale := stage_layer_scale st;
                   block_stochastic_depth_prob := p |})
    (seq 0 (stage_num_layers st)).

(** Whether [ConvNextStage.__call__] creates the downsampling layers,
    line 90, for an input with [in_channels] channels. *)
Definition stage_downsamples (in_channels : nat) (st : stage_config) : bool :=
  negb (in_channels =? stage_num_channels st) || negb (stage_stride st =? 1).

End Setup.

(** The block settings of [convnext_tiny], [convnext_small],
    [convnext_base] and [convnext_large], lines 182 to 223. *)
Definition convnext_tiny_settings : list CNBlockConfig :=
  [mk_config 96 3; mk_config 192 3; mk_config 384 9; mk_config 768 3].

Definition convnext_small_settings : list CNBlockConfig :=
  [mk_config 96 3; mk_config 192 3; mk_config 384 27; mk_config 768 3].

Definition convnext_base_settings : list CNBlockConfig :=
  [mk_config 128 3; mk_config 256 3; mk_config 512 27; mk_config 1024 3].

Definition convnext_large_settings : list CNBlockConfig :=
  [mk_config 192 3; mk_config 384 3; mk_config 768 27; mk_config 1536 3].

(** The modules at the top of the parameter tree of [ConvNeXt]: [stem]
    (line 137), the stages (line 162; the four block settings of lines 182
    to 223 give four) and [classifier] (line 163). *)
Definition top_level_modules : list string :=
  ["stem"; "stages_0"; "stages_1"; "stages_2"; "stages_3"; "classifier"].

(** * Properties *)

Section NdarrayFacts.
Context {A : Type}.
Implicit Types t w : ndarray A.

Lemma list_of_length_4 {X} (l : list X) :
  length l = 4 → ∃ a b c d, l = [a; b; c; d].
Proof.
  destruct l as [|a [|b [|c [|d [|? ?]]]]]; simpl; try discriminate.
  intros _. by exists a, b, c, d.
Qed.

Lemma list_of_length_2 {X} (l : list X) :
  length l = 2 → ∃ a b, l = [a; b].
Proof.
  destruct l as [|a [|b [|? ?]]]; simpl; try discriminate.
  intros _. by exists a, b.
Qed.

Lemma np_transpose_rank_mismatch t axes :
  length axes ≠ ndim t →
  np_transpose t axes = Err (ValueError "axes don't match array").
Proof.
  intros Hne. unfold np_transpose.
  destruct (Nat.eqb_spec (length axes) (ndim t)); [contradiction | done].
Qed.

Lemma transpose_conv_weights_rank4 w :
  ndim w = 4 →
  transpose_conv_weights w
  = Ok {| data := data w; offset := offset w;
          dims := permute [2; 3; 1; 0] (dims w) |}.
Proof.
  intros Hn. unfold transpose_conv_weights, np_transpose. by rewrite Hn.
Qed.

(** Entry [i0, i1, i2, i3] of the transposed kernel is entry
    [i3, i2, i0, i1] of the original: (out, in, kh, kw) becomes
    (kh, kw, in, out). *)
Lemma transpose_conv_weights_get w w' i0 i1 i2 i3 :
  transpose_conv_weights w = Ok w' →
  get w' [i0; i1; i2; i3] = get w [i3; i2; i0; i1].
Proof.
  intros Ht.
  destruct (decide (ndim w = 4)) as [Hn|Hn]; last first.
  { unfold transpose_conv_weights in Ht.
    rewrite np_transpose_rank_mismatch in Ht; [done | simpl; congruence]. }
  rewrite transpose_conv_weights_rank4 in Ht by done. injection Ht as <-.
  destruct (list_of_length_4 (dims w)) as ([a sa] & [b sb] & [c sc] & [d sd] & Hd);
    [done|].
  unfold get, shape, strides. simpl. rewrite Hd. simpl.
  destruct (i0 <? c), (i1 <? d), (i2 <? b), (i3 <? a); simpl; try done.
  f_equal. lia.
Qed.

End NdarrayFacts.

(** C6: for every 4-dimensional tensor, the kernel permutation [2, 3, 1, 0]
    of [transpose_conv_weights] followed by the reverse permutation
    [3, 2, 0, 1] gives back the original tensor, shape included; in between
    the shape is the original one permuted to (kh, kw, in, out), and entry
    [kh, kw, in, out] is entry [out, in, kh, kw] of the original. *)
Theorem transpose_conv_weights_roundtrip {A} (w : ndarray A) :
  ndim w = 4 →
  ∃ w', transpose_conv_weights w = Ok w'
        ∧ shape w' = permute [2; 3; 1; 0] (shape w)
        ∧ np_transpose w' [3; 2; 0; 1] = Ok w
        ∧ ∀ i j k l, get w' [k; l; j; i] = get w [i; j; k; l].
Proof.
  intros Hn. eexists. split; [by apply transpose_conv_weights_rank4|].
  destruct (list_of_length_4 (dims w)) as (a & b & c & d & Hd); [done|].
  destruct w as [dt off ds]; simpl in Hd; subst ds.
  split; [reflexivity|]. split; [reflexivity|].
  intros i j k l. by apply transpose_conv_weights_get.
Qed.

Lemma transpose_conv_weights_roundtrip_witness :
  let w := np_array [2; 1; 1; 3] [10; 11; 12; 20; 21; 22]%Z in
  ∃ w', transpose_conv_weights w = Ok w'
        ∧ shape w' = permute [2; 3; 1; 0] (shape w)
        ∧ np_transpose w' [3; 2; 0; 1] = Ok w
        ∧ ∀ i j k l, get w' [k; l; j; i] = get w [i; j; k; l].
Proof.
  apply (transpose_conv_weights_roundtrip
           (np_array [2; 1; 1; 3] [10; 11; 12; 20; 21; 22]%Z)).
  reflexivity.
Defined.

(** C8: the dense-kernel transpose (permutation [1, 0]) applied twice to a
    2-dimensional tensor gives back the original tensor. *)
Theorem transpose_dense_weights_involutive {A} (w : ndarray A) :
  ndim w = 2 →
  transpose_dense_weights w ≫= transpose_dense_weights = Ok w.
Proof.
  intros Hn.
  destruct (list_of_length_2 (dims w)) as (a & b & Hd); [done|].
  destruct w as [dt off ds]; simpl in Hd; subst ds.
  reflexivity.
Qed.

Lemma transpose_dense_weights_involutive_witness :
  let w := np_array [2; 3] [1; 2; 3; 4; 5; 6]%Z in
  transpose_dense_weights w ≫= transpose_dense_weights = Ok w.
Proof.
  apply (transpose_dense_weights_involutive
           (np_array [2; 3] [1; 2; 3; 4; 5; 6]%Z)); reflexivity.
Defined.

(** C9: on a tensor whose rank is not 4 the convolution-kernel transform
    raises; it returns no tensor. *)
Theorem transpose_conv_weights_rank_error {A} (w : ndarray A) :
  ndim w ≠ 4 →
  transpose_conv_weights w = Err (ValueError "axes don't match array").
Proof.
  intros Hn. apply np_transpose_rank_mismatch. simpl. congruence.
Qed.

Lemma transpose_conv_weights_rank_error_witness :
  transpose_conv_weights (np_array [2; 3] [1; 2; 3; 4; 5; 6]%Z)
  = Err (ValueError "axes don't match array").
Proof.
  apply (transpose_conv_weights_rank_error
           (np_array [2; 3] [1; 2; 3; 4; 5; 6]%Z)).
  unfold ndim; simpl; lia.
Defined.

(** ** The matcher and the language of a pattern *)

Section ReFacts.
Import Re.

Lemma str_app_cons c (a b : string) : String c a +:+ b = String c (a +:+ b).
Proof. reflexivity. Qed.

Lemma str_app_nil_l (a : string) : "" +:+ a = a.
Proof. reflexivity. Qed.

Lemma str_app_assoc (a b c : string) : (a +:+ b) +:+ c = a +:+ (b +:+ c).
Proof.
  induction a as [|x a IH]; [done|]. by rewrite !str_app_cons, IH.
Qed.

Lemma str_app_nil_r (a : string) : a +:+ "" = a.
Proof.
  induction a as [|x a IH]; [done|]. by rewrite str_app_cons, IH.
Qed.

Lemma star_atom_spec {X} a s (k : string → option X) :
  is_Some (star_atom a s k) ↔
  ∃ s1 s2, s = s1 +:+ s2 ∧ (s1 = "" ∨ plus_lang a s1) ∧ is_Some (k s2).
Proof.
  induction s as [|c s IH]; simpl.
  - split.
    + intros Hk. exists "", "". auto.
    + intros (s1 & s2 & Heq & _ & Hk). destruct s1; [|discriminate].
      rewrite str_app_nil_l in Heq. by subst s2.
  - destruct (atom_matches a c) eqn:Hc.
    + split.
      * destruct (star_atom a s k) eqn:Hs.
        -- intros _. destruct (proj1 IH) as (s1 & s2 & -> & Hs1 & Hk); [by eexists|].
           exists (String c s1), s2. split; [done|]. split; [|done].
           right. destruct Hs1 as [->|Hs1]; [by constructor | by constructor].
        -- intros Hk. exists "", (String c s). auto.
      * intros (s1 & s2 & Heq & Hs1 & Hk).
        destruct (star_atom a s k) eqn:Hs; [by eexists|].
        destruct s1 as [|c1 s1]; [rewrite str_app_nil_l in Heq; by subst s2|].
        rewrite str_app_cons in Heq. injection Heq as -> ->.
        destruct (proj2 IH) as [? ?]; [|done].
        exists s1, s2. split; [done|]. split; [|done].
        destruct Hs1 as [?|Hs1]; [done|].
        inversion Hs1; subst; auto.
    + split.
      * intros Hk. exists "", (String c s). auto.
      * intros (s1 & s2 & Heq & Hs1 & Hk).
        destruct s1 as [|c1 s1]; [rewrite str_app_nil_l in Heq; by subst s2|].
        rewrite str_app_cons in Heq. injection Heq as -> ->.
        destruct Hs1 as [?|Hs1]; [done|].
        inversion Hs1; subst; congruence.
Qed.

Lemma rmatch_spec {X} r :
  ∀ g s caps (k : string → list pystr → option X) (K : string → Prop),
    (∀ s' caps', is_Some (k s' caps') ↔ K s') →
    is_Some (rmatch r g s caps k) ↔
    ∃ s1 s2, s = s1 +:+ s2 ∧ lang r s1 ∧ K s2.
Proof.
  induction r as [|a|a|r1 IH1 r2 IH2|r1 IH1 r2 IH2|r IH];
    intros g s caps k K HK; simpl.
  - rewrite HK. split.
    + intros H. exists "", s. split; [done|]. split; [constructor | done].
    + intros (s1 & s2 & -> & Hl & H). inversion Hl; subst. done.
  - split.
    + destruct s as [|c s]; [by intros [? ?]|].
      destruct (atom_matches a c) eqn:Hc; [|by intros [? ?]].
      intros H. exists (String c ""), s. split; [done|].
      split; [by constructor | by apply HK in H].
    + intros (s1 & s2 & -> & Hl & H). inversion Hl; subst. simpl.
      rewrite H1. by apply HK.
  - split.
    + destruct s as [|c s]; [by intros [? ?]|].
      destruct (atom_matches a c) eqn:Hc; [|by intros [? ?]].
      intros H. apply star_atom_spec in H as (s1 & s2 & -> & Hs1 & H).
      exists (String c s1), s2. split; [done|]. split; [|by apply HK in H].
      constructor. destruct Hs1 as [->|Hs1]; by constructor.
    + intros (s1 & s2 & -> & Hl & H). inversion Hl as [| |? ? Hp| | | |]; subst.
      inversion Hp; subst; simpl; rewrite H0.
      * apply star_atom_spec. exists "", s2. split; [done|].
        split; [auto | by apply HK].
      * apply star_atom_spec. exists s, s2. split; [done|].
        split; [auto | by apply HK].
  - rewrite (IH1 _ _ _ _ (λ s', ∃ s1 s2, s' = s1 +:+ s2 ∧ lang r2 s1 ∧ K s2)).
    + split.
      * intros (s1 & s' & -> & Hl1 & s2 & s3 & -> & Hl2 & H).
        exists (s1 +:+ s2), s3. rewrite str_app_assoc. split; [done|].
        split; [by constructor | done].
      * intros (s12 & s3 & -> & Hl & H). inversion Hl; subst.
        exists s1, (s2 +:+ s3). rewrite str_app_assoc. split; [done|].
        split; [done|]. by exists s2, s3.
    + intros s' caps'. by apply IH2.
  - split.
    + destruct (rmatch r1 g s caps k) eqn:H1.
      * intros _. destruct (proj1 (IH1 g s caps k K HK)) as (s1 & s2 & -> & Hl & H);
          [by eexists|].
        exists s1, s2. split; [done|]. split; [by apply lang_alt_l | done].
      * intros H. apply (IH2 _ _ _ _ K HK) in H as (s1 & s2 & -> & Hl & H).
        exists s1, s2. split; [done|]. split; [by apply lang_alt_r | done].
    + intros (s1 & s2 & -> & Hl & H).
      destruct (rmatch r1 g (s1 +:+ s2) caps k) eqn:H1; [by eexists|].
      inversion Hl; subst.
      * assert (is_Some (rmatch r1 g (s1 +:+ s2) caps k)) as [? Hx]; [|congruence].
        apply (IH1 _ _ _ _ K HK). by exists s1, s2.
      * apply (IH2 _ _ _ _ K HK). by exists s1, s2.
  - rewrite (IH _ _ _ _ K).
    + split.
      * intros (s1 & s2 & -> & Hl & H). exists s1, s2. split; [done|].
        split; [by constructor | done].
      * intros (s1 & s2 & -> & Hl & H). inversion Hl; subst. by exists s1, s2.
    + intros s' caps'. apply HK.
Qed.

Lemma fullmatch_lang r key : is_Some (fullmatch r key) ↔ lang r key.
Proof.
  unfold fullmatch.
  rewrite (rmatch_spec r _ _ _ _ (λ s', s' = "")).
  - split.
    + intros (s1 & s2 & -> & Hl & ->). by rewrite str_app_nil_r.
    + intros Hl. exists key, "". by rewrite str_app_nil_r.
  - intros [|c s'] caps'; split; try done; by intros [? ?].
Qed.

Lemma star_atom_inv {X} a s (k : string → option X) x :
  star_atom a s k = Some x → ∃ s', k s' = Some x.
Proof.
  induction s as [|c s IH]; simpl; [by eexists|].
  destruct (atom_matches a c); [|by eexists].
  destruct (star_atom a s k) eqn:Hs; [|by eexists].
  intros [= ->]. by apply IH.
Qed.

Lemma rmatch_inv {X} r :
  ∀ g s caps (k : string → list pystr → option X) x,
    rmatch r g s caps k = Some x →
    ∃ s' caps', length caps' = length caps ∧ k s' caps' = Some x.
Proof.
  induction r as [|a|a|r1 IH1 r2 IH2|r1 IH1 r2 IH2|r IH];
    intros g s caps k x; simpl.
  - by eexists _, _.
  - destruct s as [|c s]; [done|]. destruct (atom_matches a c); [|done].
    by eexists _, _.
  - destruct s as [|c s]; [done|]. destruct (atom_matches a c); [|done].
    intros H. apply star_atom_inv in H as [s' H]. by eexists _, _.
  - intros H. apply IH1 in H as (s1 & caps1 & Hl1 & H).
    apply IH2 in H as (s2 & caps2 & Hl2 & H).
    exists s2, caps2. split; [congruence | done].
  - destruct (rmatch r1 g s caps k) eqn:H1.
    + intros [= ->]. by apply IH1 in H1.
    + apply IH2.
  - intros H. apply IH in H as (s1 & caps1 & Hl1 & H).
    eexists _, _. split; [|exact H]. by rewrite length_insert.
Qed.

Lemma fullmatch_groups_length r key groups :
  fullmatch r key = Some groups → length groups = ngroups r.
Proof.
  unfold fullmatch. intros H.
  apply rmatch_inv in H as (s' & caps' & Hl & H).
  destruct s'; [|done]. injection H as <-. by rewrite Hl, length_replicate.
Qed.

End ReFacts.

(** ** Dispatch and the translation loop *)

Section TranslatorFacts.
Context {T : Type}.
Implicit Types (rules : CheckpointTranslator T) (rule : PatternRule T).
Implicit Types (sd out acc : flat_dict T) (key : string) (val : T).

Lemma find_rule_first rules key pre rule post groups :
  rules = pre ++ rule :: post →
  Forall (λ r, matches r key = None) pre →
  matches rule key = Some groups →
  find_rule rules key = Some (rule, groups).
Proof.
  intros -> Hpre Hm. induction Hpre as [|r pre Hr _ IH]; simpl.
  - by rewrite Hm.
  - by rewrite Hr.
Qed.

Lemma find_rule_none rules key :
  Forall (λ r, matches r key = None) rules ↔ find_rule rules key = None.
Proof.
  induction rules as [|r rules IH]; simpl.
  - split; [done | by constructor].
  - destruct (matches r key) eqn:Hr.
    + split; [|done]. intros H. inversion H; congruence.
    + rewrite <- IH. split; [by inversion 1 | by constructor].
Qed.

Lemma find_rule_some rules key rule groups :
  find_rule rules key = Some (rule, groups) →
  ∃ pre post, rules = pre ++ rule :: post
              ∧ Forall (λ r, matches r key = None) pre
              ∧ matches rule key = Some groups.
Proof.
  induction rules as [|r rules IH]; simpl; [done|].
  destruct (matches r key) eqn:Hr.
  - intros [= <- <-]. by exists [], rules.
  - intros H. destruct (IH H) as (pre & post & -> & Hpre & Hm).
    exists (r :: pre), post. split; [done|]. split; [by constructor | done].
Qed.

Lemma translate_entry_unmatched rules key val :
  Forall (λ r, matches r key = None) rules →
  translate_entry rules key val = Err (UnmatchedKeyError key).
Proof.
  intros H. unfold translate_entry. by apply find_rule_none in H as ->.
Qed.

(** What the loop has done when it returns: one target per source entry, in
    order, appended to what was collected before, without repeated keys. *)
Lemma apply_loop_ok rules sd acc out :
  apply_loop rules sd acc = Ok out →
  NoDup acc.*1 →
  ∃ new, out = acc ++ new
         ∧ NoDup out.*1
         ∧ Forall2 (λ src tgt, translate_entry rules src.1 src.2 = Ok tgt) sd new.
Proof.
  revert acc. induction sd as [|[key val] sd IH]; intros acc; simpl.
  - intros [= <-] Hnd. exists []. rewrite app_nil_r. by repeat split.
  - destruct (translate_entry rules key val) as [[nk nv]|e] eqn:Ht; simpl; [|done].
    case_bool_decide as Hin; [done|].
    intros Hloop Hnd.
    destruct (IH _ Hloop) as (new & -> & Hnd' & Hall).
    { rewrite fmap_app. apply NoDup_app. split; [done|]. split.
      - intros x Hx Hx'. apply list_elem_of_singleton in Hx'. by subst x.
      - apply NoDup_singleton. }
    exists ((nk, nv) :: new). rewrite <- app_assoc. split; [done|].
    split; [by rewrite <- app_assoc in Hnd'|].
    by constructor.
Qed.

Lemma apply_ok rules sd out :
  apply rules sd = Ok out →
  NoDup out.*1
  ∧ Forall2 (λ src tgt, translate_entry rules src.1 src.2 = Ok tgt) sd out.
Proof.
  intros H. apply apply_loop_ok in H as (new & -> & Hnd & Hall);
    [done | constructor].
Qed.

(** The loop stops at the first entry that cannot be translated. *)
Lemma apply_loop_app rules sd1 sd2 acc :
  apply_loop rules (sd1 ++ sd2) acc
  = apply_loop rules sd1 acc ≫= apply_loop rules sd2.
Proof.
  revert acc. induction sd1 as [|[key val] sd1 IH]; intros acc; simpl; [done|].
  destruct (translate_entry rules key val) as [[nk nv]|e]; simpl; [|done].
  case_bool_decide; [done|]. apply IH.
Qed.

Lemma apply_loop_all_translated rules sd acc :
  Forall (λ src, is_ok (translate_entry rules src.1 src.2) = true) sd →
  (∃ out, apply_loop rules sd acc = Ok out)
  ∨ (∃ k, apply_loop rules sd acc = Err (DuplicateTargetKeyError k)).
Proof.
  intros H. revert acc. induction H as [|[key val] sd Hk _ IH]; intros acc; simpl.
  - left. by eexists.
  - simpl in Hk. destruct (translate_entry rules key val) as [[nk nv]|e]; [|done].
    simpl. case_bool_decide; [right; by eexists | apply IH].
Qed.

Lemma matches_lang rule key :
  is_Some (matches rule key) ↔ Re.lang (pattern rule) key.
Proof. apply fullmatch_lang. Qed.

Lemma not_lang_matches_none rules key :
  Forall (λ r, ¬ Re.lang (pattern r) key) rules →
  Forall (λ r, matches r key = None) rules.
Proof.
  intros H. eapply Forall_impl; [exact H|]. intros r Hr. simpl in *.
  destruct (matches r key) eqn:Hm; [|done].
  exfalso. apply Hr, matches_lang. by eexists.
Qed.

Lemma apply_unmatched_general rules pre key val post :
  Forall (λ r, ¬ Re.lang (pattern r) key) rules →
  is_ok (apply rules (pre ++ (key, val) :: post)) = false
  ∧ (is_ok (apply rules pre) = true →
     apply rules (pre ++ (key, val) :: post) = Err (UnmatchedKeyError key)).
Proof.
  intros Hno. apply not_lang_matches_none in Hno.
  unfold apply. rewrite apply_loop_app.
  destruct (apply_loop rules pre []) as [acc|e]; simpl.
  - rewrite translate_entry_unmatched by done. simpl. by split.
  - by split.
Qed.

Lemma dispatch_first_match rules pre rule post key val :
  rules = pre ++ rule :: post →
  Forall (λ r, ¬ Re.lang (pattern r) key) pre →
  Re.lang (pattern rule) key →
  ∃ groups,
    matches rule key = Some groups
    ∧ length groups = Re.ngroups (pattern rule)
    ∧ translate_entry rules key val = handler rule key val groups.
Proof.
  intros Hrules Hpre Hrule.
  apply matches_lang in Hrule as [groups Hm]. exists groups.
  split; [done|]. split; [by apply fullmatch_groups_length in Hm|].
  unfold translate_entry.
  by rewrite (find_rule_first rules key pre rule post groups Hrules
                (not_lang_matches_none _ _ Hpre) Hm).
Qed.

Lemma apply_ok_lookup rules sd out i key val :
  apply rules sd = Ok out →
  sd !! i = Some (key, val) →
  ∃ tgt, out !! i = Some tgt ∧ translate_entry rules key val = Ok tgt.
Proof.
  intros Hok Hi. apply apply_ok in Hok as [_ Hall].
  destruct (Forall2_lookup_l _ _ _ _ _ Hall Hi) as (tgt & Ho & Ht).
  by exists tgt.
Qed.

(** When every entry can be translated, a failure of the loop is a
    collision: the key it names is the target of two entries. *)
Lemma apply_loop_duplicate rules seen sd acc e :
  Forall2 (λ src tgt, translate_entry rules src.1 src.2 = Ok tgt) seen acc →
  Forall (λ src, is_ok (translate_entry rules src.1 src.2) = true) sd →
  apply_loop rules sd acc = Err e →
  ∃ k i j src1 src2 v1 v2,
    e = DuplicateTargetKeyError k ∧ i < j
    ∧ (seen ++ sd) !! i = Some src1 ∧ (seen ++ sd) !! j = Some src2
    ∧ translate_entry rules src1.1 src1.2 = Ok (k, v1)
    ∧ translate_entry rules src2.1 src2.2 = Ok (k, v2).
Proof.
  intros Hseen Hsd. revert seen acc Hseen.
  induction Hsd as [|[key val] sd Hk _ IH]; intros seen acc Hseen; simpl; [done|].
  simpl in Hk.
  destruct (translate_entry rules key val) as [[nk nv]|e'] eqn:Ht; [|done].
  simpl. case_bool_decide as Hin.
  - intros [= <-].
    apply list_elem_of_fmap in Hin as ([nk' v1] & Heq & Hin). simpl in Heq; subst nk'.
    apply list_elem_of_lookup in Hin as [i Hi].
    destruct (Forall2_lookup_r _ _ _ _ _ Hseen Hi) as (src1 & Hs1 & Ht1).
    exists nk, i, (length seen), src1, (key, val), v1, nv.
    split; [done|]. split; [by apply lookup_lt_Some in Hs1|].
    split; [by rewrite lookup_app_l by (by apply lookup_lt_Some in Hs1)|].
    split; [by rewrite list_lookup_middle|]. done.
  - intros Hloop.
    assert (Forall2 (λ src tgt, translate_entry rules src.1 src.2 = Ok tgt)
              (seen ++ [(key, val)]) (acc ++ [(nk, nv)])) as Hseen'.
    { apply Forall2_app; [exact Hseen|]. constructor; [exact Ht | constructor]. }
    destruct (IH _ _ Hseen' Hloop) as (k & i & j & src1 & src2 & v1 & v2 & H).
    exists k, i, j, src1, src2, v1, v2. by rewrite <- app_assoc in H.
Qed.

Lemma apply_collision rules sd k1 v1 k2 v2 t w1 w2 :
  (k1, v1) ∈ sd → (k2, v2) ∈ sd → k1 ≠ k2 →
  translate_entry rules k1 v1 = Ok (t, w1) →
  translate_entry rules k2 v2 = Ok (t, w2) →
  is_ok (apply rules sd) = false.
Proof.
  intros H1 H2 Hne Ht1 Ht2.
  destruct (apply rules sd) as [out|] eqn:Hok; [|done]. exfalso.
  apply list_elem_of_lookup in H1 as [i Hi], H2 as [j Hj].
  destruct (apply_ok_lookup _ _ _ _ _ _ Hok Hi) as (tgt1 & Ho1 & Hx1).
  destruct (apply_ok_lookup _ _ _ _ _ _ Hok Hj) as (tgt2 & Ho2 & Hx2).
  rewrite Ht1 in Hx1. rewrite Ht2 in Hx2.
  injection Hx1 as <-. injection Hx2 as <-.
  apply apply_ok in Hok as [Hnd _].
  assert (i = j); [|subst j; congruence].
  apply (NoDup_lookup _ i j t Hnd); rewrite list_lookup_fmap.
  - by rewrite Ho1.
  - by rewrite Ho2.
Qed.

End TranslatorFacts.

(** ** Splitting a key into path segments *)

Section SplitFacts.
Implicit Types (s sep : string) (l : list string).

Lemma split_go_nonempty sep s n : split_go sep s n ≠ [].
Proof.
  revert n. induction s as [|c s IH]; intros n; simpl; [done|].
  destruct n as [|n]; [|apply IH].
  destruct (is_prefix sep (String c s)); [done|].
  specialize (IH 0). by destruct (split_go sep s 0).
Qed.

Lemma str_join_cons sep x l :
  l ≠ [] → str_join sep (x :: l) = x +:+ sep +:+ str_join sep l.
Proof. by destruct l. Qed.

Lemma str_join_cons_head sep c l :
  l ≠ [] → str_join sep (cons_head c l) = String c (str_join sep l).
Proof.
  destruct l as [|x [|y l]]; [done | done |]. intros _. reflexivity.
Qed.

Lemma is_prefix_length p s :
  is_prefix p s = true → String.length p ≤ String.length s.
Proof.
  revert s. induction p as [|a p IH]; intros [|b s]; simpl; try done; [lia|].
  intros [_ H]%andb_prop. apply IH in H. lia.
Qed.

Lemma is_prefix_drop p s :
  is_prefix p s = true → p +:+ str_drop (String.length p) s = s.
Proof.
  revert s. induction p as [|a p IH]; intros [|b s]; simpl; try done.
  intros [Hab H]%andb_prop. apply bool_decide_eq_true in Hab as ->.
  rewrite str_app_cons. by rewrite IH.
Qed.

Lemma str_join_split_go sep s n :
  sep ≠ "" → n ≤ String.length s →
  str_join sep (split_go sep s n) = str_drop n s.
Proof.
  intros Hsep. revert n. induction s as [|c s IH]; intros n Hn; simpl in *.
  - by destruct n.
  - destruct n as [|n]; [|apply IH; lia].
    destruct (is_prefix sep (String c s)) eqn:Hp.
    + rewrite str_join_cons by apply split_go_nonempty.
      destruct sep as [|a sep']; [done|]. simpl in Hp.
      apply andb_prop in Hp as [Hac Hp]. apply bool_decide_eq_true in Hac as ->.
      simpl. rewrite Nat.sub_0_r.
      rewrite IH by by apply is_prefix_length.
      rewrite str_app_nil_l, str_app_cons. by rewrite is_prefix_drop.
    + rewrite str_join_cons_head by apply split_go_nonempty.
      by rewrite IH by lia.
Qed.

Lemma str_split_join s sep path :
  str_split s sep = Ok path → path ≠ [] ∧ str_join sep path = s.
Proof.
  unfold str_split. destruct sep as [|a sep'] eqn:Hsep; [done|].
  intros [= <-]. split; [apply split_go_nonempty|].
  by rewrite str_join_split_go by (done || lia).
Qed.

Lemma str_split_inj s1 s2 sep path :
  str_split s1 sep = Ok path → str_split s2 sep = Ok path → s1 = s2.
Proof.
  intros [_ H1]%str_split_join [_ H2]%str_split_join. congruence.
Qed.

Lemma str_split_ok s sep :
  sep ≠ "" → ∃ path, str_split s sep = Ok path.
Proof. destruct sep; [done|]. intros _. by eexists. Qed.

End SplitFacts.

(** ** Inserting paths into the parameter tree *)

Lemma result_bind_assoc {X Y Z} (r : result X) (f : X → result Y) (g : Y → result Z) :
  (r ≫= f) ≫= g = r ≫= (λ x, f x ≫= g).
Proof. by destruct r. Qed.

Lemma bind_Ok {X Y} (x : X) (f : X → result Y) : Ok x ≫= f = f x.
Proof. reflexivity. Qed.

Lemma bind_Err {X Y} e (f : X → result Y) : Err e ≫= f = Err e.
Proof. reflexivity. Qed.

Ltac rsimpl := rewrite ?bind_Ok, ?bind_Err.

Section UnflattenFacts.
Context {T : Type}.
Implicit Types (m cursor : gmap string (tree T)) (path p q : list string).
Implicit Types (v w : T) (key k j : string).

Lemma insert_path_single k v m :
  insert_path [k] v m
  = match m !! k with
    | Some (Node _) => Err StructuralConflictError
    | _ => Ok (<[k := Leaf v]> m)
    end.
Proof. reflexivity. Qed.

Lemma insert_path_deep k p v m :
  p ≠ [] →
  insert_path (k :: p) v m
  = descend m k ≫= λ children,
      insert_path p v children ≫= λ sub, Ok (<[k := Node sub]> m).
Proof. by destruct p. Qed.

Lemma descend_error m k e : descend m k = Err e → e = StructuralConflictError.
Proof.
  unfold descend. destruct (m !! k) as [[?|?]|]; congruence.
Qed.

Lemma insert_path_error p v m e :
  p ≠ [] → insert_path p v m = Err e → e = StructuralConflictError.
Proof.
  revert m. induction p as [|k p IH]; intros m Hp; [done|].
  destruct (decide (p = [])) as [->|Hne].
  - rewrite insert_path_single. destruct (m !! k) as [[?|?]|]; congruence.
  - rewrite insert_path_deep by done.
    destruct (descend m k) as [ch|e'] eqn:Hd; simpl.
    + destruct (insert_path p v ch) as [sub|e'] eqn:Hi; simpl; [done|].
      intros [= <-]. by eapply IH.
    + intros [= <-]. by eapply descend_error.
Qed.

(** An insertion only looks at, and only changes, the entry of its first
    segment. *)
Lemma insert_path_top k p v :
  ∃ f : option (tree T) → result (tree T),
    (∀ m, insert_path (k :: p) v m = f (m !! k) ≫= λ t, Ok (<[k := t]> m))
    ∧ (∀ o e, f o = Err e → e = StructuralConflictError).
Proof.
  destruct (decide (p = [])) as [->|Hne].
  - exists (λ o, match o with
                 | Some (Node _) => Err StructuralConflictError
                 | _ => Ok (Leaf v)
                 end).
    split.
    + intros m. rewrite insert_path_single. by destruct (m !! k) as [[?|?]|].
    + intros [[?|?]|] e; congruence.
  - exists (λ o, match o with
                 | None => insert_path p v ∅ ≫= λ sub, Ok (Node sub)
                 | Some (Node ch) => insert_path p v ch ≫= λ sub, Ok (Node sub)
                 | Some (Leaf _) => Err StructuralConflictError
                 end).
    split.
    + intros m. rewrite insert_path_deep by done. unfold descend.
      destruct (m !! k) as [[?|ch]|]; simpl; [done| |].
      * by destruct (insert_path p v ch).
      * by destruct (insert_path p v ∅).
    + intros [[?|ch]|] e; simpl; [congruence| |].
      * destruct (insert_path p v ch) eqn:Hi; simpl; [done|].
        intros [= <-]. by eapply insert_path_error.
      * destruct (insert_path p v ∅) eqn:Hi; simpl; [done|].
        intros [= <-]. by eapply insert_path_error.
Qed.

Lemma insert_path_commute p q v w m :
  p ≠ [] → q ≠ [] → p ≠ q →
  insert_path p v m ≫= insert_path q w = insert_path q w m ≫= insert_path p v.
Proof.
  revert q m. induction p as [|k p IH]; intros q m Hp Hq Hpq; [done|].
  destruct q as [|j q]; [done|].
  destruct (decide (k = j)) as [<-|Hkj].
  - assert (p ≠ q) as Hne by congruence.
    destruct (decide (p = [])) as [->|Hpne]; [|destruct (decide (q = [])) as [->|Hqne]].
    + (* a tensor at [k], a mapping needed at [k] *)
      assert (q ≠ []) as Hqne by congruence.
      rewrite insert_path_single, (insert_path_deep k q) by done.
      unfold descend. destruct (m !! k) as [[x|ch]|] eqn:Hk; rsimpl.
      * rewrite insert_path_deep by done. unfold descend.
        by rewrite lookup_insert_eq.
      * destruct (insert_path q w ch) as [sub|e] eqn:Hi; rsimpl.
        -- rewrite insert_path_single. by rewrite lookup_insert_eq.
        -- f_equal. symmetry. by eapply insert_path_error.
      * rewrite insert_path_deep by done. unfold descend.
        rewrite lookup_insert_eq. rsimpl.
        destruct (insert_path q w ∅) as [sub|e] eqn:Hi; rsimpl.
        -- rewrite insert_path_single. by rewrite lookup_insert_eq.
        -- f_equal. symmetry. by eapply insert_path_error.
    + rewrite insert_path_single, (insert_path_deep k p) by done.
      unfold descend. destruct (m !! k) as [[x|ch]|] eqn:Hk; rsimpl.
      * rewrite insert_path_deep by done. unfold descend.
        by rewrite lookup_insert_eq.
      * destruct (insert_path p v ch) as [sub|e] eqn:Hi; rsimpl.
        -- rewrite insert_path_single. by rewrite lookup_insert_eq.
        -- f_equal. by eapply insert_path_error.
      * rewrite insert_path_deep by done. unfold descend.
        rewrite lookup_insert_eq. rsimpl.
        destruct (insert_path p v ∅) as [sub|e] eqn:Hi; rsimpl.
        -- rewrite insert_path_single. by rewrite lookup_insert_eq.
        -- f_equal. by eapply insert_path_error.
    + (* both go below [k]: commute below *)
      assert (∀ p' q' v' w', p' ≠ [] → q' ≠ [] →
        insert_path (k :: p') v' m ≫= insert_path (k :: q') w'
        = descend m k ≫= λ ch,
            (insert_path p' v' ch ≫= insert_path q' w') ≫= λ sub,
              Ok (<[k := Node sub]> m)) as Hboth.
      { intros p' q' v' w' Hp' Hq'. rewrite insert_path_deep by done.
        destruct (descend m k) as [ch|e]; rsimpl; [|done].
        destruct (insert_path p' v' ch) as [sub|e]; rsimpl; [|done].
        rewrite insert_path_deep by done. unfold descend.
        rewrite lookup_insert_eq. rsimpl.
        destruct (insert_path q' w' sub) as [sub'|e]; rsimpl; [|done].
        by rewrite insert_insert_eq. }
      rewrite !Hboth by done.
      destruct (descend m k) as [ch|e]; rsimpl; [|done].
      by rewrite (IH q ch).
  - destruct (insert_path_top k p v) as (f & Hf & Hfe).
    destruct (insert_path_top j q w) as (g & Hg & Hge).
    rewrite Hf, Hg.
    destruct (f (m !! k)) as [t|e1] eqn:Hfk, (g (m !! j)) as [u|e2] eqn:Hgj; rsimpl.
    + rewrite Hf, Hg. rewrite !lookup_insert_ne by done.
      rewrite Hfk, Hgj. rsimpl. by rewrite insert_insert_ne.
    + rewrite Hg. rewrite lookup_insert_ne by done. by rewrite Hgj.
    + rewrite Hf. rewrite lookup_insert_ne by done. by rewrite Hfk.
    + by rewrite (Hfe _ _ Hfk), (Hge _ _ Hgj).
Qed.

End UnflattenFacts.

Section TreeFacts.
Context {T : Type}.
Implicit Types (m cursor : gmap string (tree T)) (path p q : list string).
Implicit Types (v w : T) (key k j : string) (t : tree T).

Lemma leaves_empty : leaves (∅ : gmap string (tree T)) = 0.
Proof. unfold leaves. simpl. by rewrite map_fold_empty. Qed.

Lemma leaves_insert_fresh k t m :
  m !! k = None → leaves (<[k := t]> m) = leaf_count t + leaves m.
Proof.
  intros Hk. unfold leaves. simpl.
  rewrite map_fold_insert_L; [done | | done].
  intros. lia.
Qed.

Lemma leaves_lookup k t m :
  m !! k = Some t → leaves m = leaf_count t + leaves (delete k m).
Proof.
  intros Hk. rewrite <- (insert_delete_id m k t Hk) at 1.
  apply leaves_insert_fresh, lookup_delete_eq.
Qed.

Lemma leaves_insert k t m :
  leaves (<[k := t]> m) = leaf_count t + leaves (delete k m).
Proof.
  rewrite <- insert_delete_eq. apply leaves_insert_fresh, lookup_delete_eq.
Qed.

Lemma lookup_path_empty p : lookup_path p (∅ : gmap string (tree T)) = None.
Proof. destruct p; [done|]. simpl. by rewrite lookup_empty. Qed.

Lemma lookup_path_insert_eq p v m m' :
  insert_path p v m = Ok m' → lookup_path p m' = Some v.
Proof.
  revert m m'. induction p as [|k p IH]; intros m m'; [done|].
  destruct (decide (p = [])) as [->|Hne].
  - rewrite insert_path_single.
    destruct (m !! k) as [[?|?]|]; intros [= <-]; simpl;
      by rewrite lookup_insert_eq.
  - rewrite insert_path_deep by done.
    destruct (descend m k) as [ch|]; rsimpl; [|done].
    destruct (insert_path p v ch) as [sub|] eqn:Hi; rsimpl; [|done].
    intros [= <-]. simpl. rewrite lookup_insert_eq.
    destruct p; [done|]. by eapply IH.
Qed.

Lemma lookup_path_insert_ne p q v m m' :
  insert_path p v m = Ok m' → q ≠ p → lookup_path q m' = lookup_path q m.
Proof.
  revert q m m'. induction p as [|k p IH]; intros q m m'; [done|].
  destruct q as [|j q]; [done|].
  destruct (insert_path_top k p v) as (f & Hf & _).
  destruct (decide (j = k)) as [->|Hjk]; last first.
  { rewrite Hf. destruct (f (m !! k)); rsimpl; [|done].
    intros [= <-] _. simpl. by rewrite lookup_insert_ne. }
  intros Hi Hne. assert (q ≠ p) as Hqp by congruence.
  destruct (decide (p = [])) as [->|Hpne].
  - rewrite insert_path_single in Hi.
    destruct q as [|j q]; [done|]. simpl.
    destruct (m !! k) as [[?|?]|] eqn:Hk; [| done |];
      injection Hi as <-; by rewrite lookup_insert_eq.
  - rewrite insert_path_deep in Hi by done. unfold descend in Hi.
    revert Hi. destruct (m !! k) as [[?|ch]|] eqn:Hk; rsimpl; [done | |].
    + destruct (insert_path p v ch) as [sub|] eqn:Hs; rsimpl; [|done].
      intros [= <-]. simpl.
      rewrite lookup_insert_eq, Hk. destruct q as [|j q]; [done|].
      by eapply IH.
    + destruct (insert_path p v ∅) as [sub|] eqn:Hs; rsimpl; [|done].
      intros [= <-]. simpl.
      rewrite lookup_insert_eq, Hk. destruct q as [|j q]; [done|].
      rewrite (IH (j :: q) _ _ Hs Hqp). apply lookup_path_empty.
Qed.

Lemma leaves_insert_path p v m m' :
  insert_path p v m = Ok m' → lookup_path p m = None →
  leaves m' = S (leaves m).
Proof.
  revert m m'. induction p as [|k p IH]; intros m m'; [done|].
  destruct (decide (p = [])) as [->|Hpne].
  - rewrite insert_path_single. simpl.
    destruct (m !! k) as [[?|?]|] eqn:Hk; [done | done |].
    intros [= <-] _. by rewrite leaves_insert_fresh.
  - rewrite insert_path_deep by done. unfold descend.
    destruct p as [|j p]; [done|]. cbn [lookup_path].
    destruct (m !! k) as [[?|ch]|] eqn:Hk; rsimpl; [done | |].
    + destruct (insert_path (j :: p) v ch) as [sub|] eqn:Hs; rsimpl; [|done].
      intros [= <-] Hl. rewrite leaves_insert, (leaves_lookup k _ m Hk).
      change (leaf_count (Node sub)) with (leaves sub).
      change (leaf_count (Node ch)) with (leaves ch).
      by rewrite (IH _ _ Hs Hl).
    + destruct (insert_path (j :: p) v ∅) as [sub|] eqn:Hs; rsimpl; [|done].
      intros [= <-] _. rewrite leaves_insert_fresh by done.
      change (leaf_count (Node sub)) with (leaves sub).
      rewrite (IH _ _ Hs (lookup_path_empty _)). by rewrite leaves_empty.
Qed.

End TreeFacts.

(** ** The reassembly loop *)

Section UnflattenLoop.
Context {T : Type}.
Implicit Types (m : gmap string (tree T)) (xs ys : flat_dict T).
Implicit Types (p q : list string) (v : T) (k sep : string).

Lemma unflatten_loop_cons k v xs sep m :
  unflatten_loop ((k, v) :: xs) sep m
  = str_split k sep ≫= λ p, insert_path p v m ≫= unflatten_loop xs sep.
Proof. reflexivity. Qed.

Lemma unflatten_loop_swap k1 v1 k2 v2 xs sep m :
  k1 ≠ k2 →
  unflatten_loop ((k1, v1) :: (k2, v2) :: xs) sep m
  = unflatten_loop ((k2, v2) :: (k1, v1) :: xs) sep m.
Proof.
  intros Hne. destruct (decide (sep = "")) as [->|Hsep]; [done|].
  destruct (str_split_ok k1 sep Hsep) as [p1 H1].
  destruct (str_split_ok k2 sep Hsep) as [p2 H2].
  assert (p1 ≠ p2) as Hp.
  { intros ->. apply Hne. by eapply str_split_inj. }
  destruct (str_split_join _ _ _ H1) as [Hn1 _].
  destruct (str_split_join _ _ _ H2) as [Hn2 _].
  rewrite (unflatten_loop_cons k1), (unflatten_loop_cons k2), H1, H2. rsimpl.
  transitivity ((insert_path p1 v1 m ≫= insert_path p2 v2) ≫= unflatten_loop xs sep).
  - rewrite result_bind_assoc. destruct (insert_path p1 v1 m); rsimpl; [|done].
    by rewrite unflatten_loop_cons, H2.
  - rewrite (insert_path_commute p1 p2) by done.
    rewrite result_bind_assoc. destruct (insert_path p2 v2 m); rsimpl; [|done].
    by rewrite unflatten_loop_cons, H1.
Qed.

Lemma unflatten_loop_perm xs ys sep m :
  NoDup xs.*1 → xs ≡ₚ ys →
  unflatten_loop xs sep m = unflatten_loop ys sep m.
Proof.
  intros Hnd Hperm. revert m Hnd.
  induction Hperm as [|[k v] xs ys _ IH|[k1 v1] [k2 v2] xs|xs ys zs H1 IH1 H2 IH2];
    intros m Hnd.
  - done.
  - rewrite !unflatten_loop_cons.
    destruct (str_split k sep); rsimpl; [|done].
    destruct (insert_path x v m); rsimpl; [|done].
    apply IH. by inversion Hnd.
  - apply unflatten_loop_swap. inversion Hnd as [|? ? Hin _]; subst.
    intros ->. apply Hin. simpl. left.
  - rewrite IH1 by done. apply IH2.
    by rewrite <- H1.
Qed.

(** What the loop has built when it returns. *)
Lemma unflatten_loop_ok xs sep m m' :
  unflatten_loop xs sep m = Ok m' →
  NoDup xs.*1 →
  (∀ k v p, (k, v) ∈ xs → str_split k sep = Ok p → lookup_path p m = None) →
  leaves m' = length xs + leaves m
  ∧ (∀ k v, (k, v) ∈ xs →
       ∃ p, str_split k sep = Ok p ∧ lookup_path p m' = Some v)
  ∧ (∀ q, (∀ k v, (k, v) ∈ xs → str_split k sep ≠ Ok q) →
       lookup_path q m' = lookup_path q m).
Proof.
  revert m. induction xs as [|[k v] xs IH]; intros m.
  - intros [= <-] _ _. split; [done|]. split; [|done].
    intros k v Hin. by apply elem_of_nil in Hin.
  - rewrite unflatten_loop_cons.
    destruct (str_split k sep) as [p|] eqn:Hs; rsimpl; [|done].
    destruct (insert_path p v m) as [m1|] eqn:Hi; rsimpl; [|done].
    intros Hloop Hnd Hfresh. inversion Hnd as [|? ? Hk Hnd']; subst.
    assert (∀ k' v' p', (k', v') ∈ xs → str_split k' sep = Ok p' → p' ≠ p) as Hother.
    { intros k' v' p' Hin Hs' ->. apply Hk.
      rewrite (str_split_inj _ _ _ _ Hs Hs').
      apply list_elem_of_fmap. by exists (k', v'). }
    destruct (IH m1 Hloop Hnd') as (Hcount & Hentries & Hframe).
    { intros k' v' p' Hin Hs'.
      rewrite (lookup_path_insert_ne _ _ _ _ _ Hi) by by eapply (Hother k' v').
      eapply (Hfresh k' v'); [by right | done]. }
    split; [|split].
    + rewrite Hcount, (leaves_insert_path _ _ _ _ Hi); [simpl; lia|].
      eapply (Hfresh k v); [by left | done].
    + intros k' v' [[= -> ->]|Hin]%elem_of_cons; [|by apply Hentries].
      exists p. split; [done|]. rewrite Hframe.
      * by eapply lookup_path_insert_eq.
      * intros k' v' Hin Hs'. by eapply (Hother k' v').
    + intros q Hq. rewrite Hframe.
      * eapply lookup_path_insert_ne; [done|]. intros ->.
        by eapply (Hq k v); [left|].
      * intros k' v' Hin. apply (Hq k' v'). by right.
Qed.

Lemma unflatten_dict_ok xs sep params :
  unflatten_dict xs sep = Ok params →
  NoDup xs.*1 →
  leaves params = length xs
  ∧ ∀ k v, (k, v) ∈ xs →
      ∃ p, str_split k sep = Ok p ∧ lookup_path p params = Some v.
Proof.
  intros Hu Hnd.
  destruct (unflatten_loop_ok xs sep ∅ params Hu Hnd) as (Hc & He & _).
  { intros. apply lookup_path_empty. }
  split; [|done]. by rewrite Hc, leaves_empty, Nat.add_0_r.
Qed.

End UnflattenLoop.

(** ** The claims about dispatch, reassembly and loading *)

Lemma as_numpy_id {T} (sd : flat_dict T) : as_numpy sd = sd.
Proof. induction sd as [|[k v] sd IH]; simpl; [done | by rewrite IH]. Qed.

Lemma dict_copy_id {T} (d : flat_dict T) : dict_copy d = d.
Proof. induction d as [|[k v] d IH]; simpl; [done | by rewrite IH]. Qed.

Lemma convnext_importer_setup_ok {A} :
  convnext_importer_setup (A:=A) = Ok convnext_importer.
Proof. reflexivity. Qed.

(** C7: the stage remap of the ConvNeXt block rules is
    [new_stage = (stage - 1) // 2] with floor division, the quotient [q] with
    [2 q <= stage - 1 < 2 q + 2]; the source stages 1, 3, 5, 7 become the
    stages 0, 1, 2, 3, as the keys produced by [cn_block_layer_scale] show. *)
Theorem stage_index_floor_division :
  (∀ n : Z, 2 * floordiv (n - 1) 2 ≤ n - 1 < 2 * floordiv (n - 1) 2 + 2)%Z
  ∧ stage_index (Some "1") = Ok 0%Z
  ∧ stage_index (Some "3") = Ok 1%Z
  ∧ stage_index (Some "5") = Ok 2%Z
  ∧ stage_index (Some "7") = Ok 3%Z
  ∧ ∀ A (val : ndarray A) key block_id,
      cn_block_layer_scale key val [Some "1"; block_id]
      = Ok ("stages_0/CNBlock_" +:+ fmt_str block_id +:+ "/layer_scale", reshape_flat val)
      ∧ cn_block_layer_scale key val [Some "3"; block_id]
        = Ok ("stages_1/CNBlock_" +:+ fmt_str block_id +:+ "/layer_scale", reshape_flat val)
      ∧ cn_block_layer_scale key val [Some "5"; block_id]
        = Ok ("stages_2/CNBlock_" +:+ fmt_str block_id +:+ "/layer_scale", reshape_flat val)
      ∧ cn_block_layer_scale key val [Some "7"; block_id]
        = Ok ("stages_3/CNBlock_" +:+ fmt_str block_id +:+ "/layer_scale", reshape_flat val).
Proof.
  split.
  { intros n. unfold floordiv.
    pose proof (Z.div_mod (n - 1) 2 ltac:(lia)).
    pose proof (Z.mod_pos_bound (n - 1) 2 ltac:(lia)). lia. }
  repeat split; reflexivity.
Qed.

(** C5: [unflatten_dict] splits every key on the separator and puts the
    tensor at the end of the path of its segments, below one nested mapping
    per earlier segment, one leaf per entry; the flat mapping
    {"a/b/c": T1, "a/b/d": T2, "a/e": T3} becomes
    {"a": {"b": {"c": T1, "d": T2}, "e": T3}}; and every iteration order of
    the input mapping gives the same result. *)
Theorem unflatten_dict_builds_tree :
  (∀ T (xs : flat_dict T) sep params,
     NoDup xs.*1 →
     unflatten_dict xs sep = Ok params →
     leaves params = length xs
     ∧ ∀ key value, (key, value) ∈ xs →
         ∃ path, str_split key sep = Ok path
                 ∧ lookup_path path params = Some value)
  ∧ (∀ T (T1 T2 T3 : T),
       unflatten_dict [("a/b/c", T1); ("a/b/d", T2); ("a/e", T3)] "/"
       = Ok {[ "a" := Node {[ "b" := Node {[ "c" := Leaf T1; "d" := Leaf T2 ]};
                               "e" := Leaf T3 ]} ]})
  ∧ (∀ T (xs ys : flat_dict T) sep,
       NoDup xs.*1 → xs ≡ₚ ys →
       unflatten_dict ys sep = unflatten_dict xs sep).
Proof.
  split; [|split].
  - intros T xs sep params Hnd Hu. by apply unflatten_dict_ok.
  - intros T T1 T2 T3. vm_compute. reflexivity.
  - intros T xs ys sep Hnd Hp. symmetry. by apply unflatten_loop_perm.
Qed.

Lemma unflatten_dict_builds_tree_witness :
  let xs := [("a/b/c", 1); ("a/b/d", 2); ("a/e", 3)] in
  let ys := [("a/e", 3); ("a/b/d", 2); ("a/b/c", 1)] in
  unflatten_dict ys "/" = unflatten_dict xs "/"
  ∧ ∃ params, unflatten_dict xs "/" = Ok params ∧ leaves params = 3.
Proof.
  intros xs ys.
  destruct unflatten_dict_builds_tree as (Hbuild & _ & Hperm).
  assert (NoDup xs.*1) as Hnd by by apply (bool_decide_unpack _).
  split.
  - apply Hperm; [done|]. symmetry. apply (reverse_Permutation xs).
  - destruct (unflatten_dict xs "/") as [params|] eqn:Hun; [|discriminate].
    exists params. split; [done|].
    by destruct (Hbuild _ xs "/" params Hnd Hun) as [-> _].
Defined.

(** C2: for a source key that [apply] processes, the handler invoked is the
    one of the first rule, in registration order, whose pattern matches the
    entire key; it is called with the raw key, the tensor and then the
    captured groups, one per group of the pattern in left-to-right order. *)
Theorem apply_invokes_first_match {T} (rules : CheckpointTranslator T)
    pre rule post key val :
  rules = pre ++ rule :: post →
  Forall (λ r, ¬ Re.lang (pattern r) key) pre →
  Re.lang (pattern rule) key →
  ∃ groups,
    matches rule key = Some groups
    ∧ length groups = Re.ngroups (pattern rule)
    ∧ translate_entry rules key val = handler rule key val groups
    ∧ ∀ state_dict out i,
        apply rules state_dict = Ok out →
        state_dict !! i = Some (key, val) →
        ∃ tgt, out !! i = Some tgt ∧ handler rule key val groups = Ok tgt.
Proof.
  intros Hrules Hpre Hrule.
  destruct (dispatch_first_match rules pre rule post key val Hrules Hpre Hrule)
    as (groups & Hm & Hlen & Ht).
  exists groups. repeat split; [done..|].
  intros sd out i Hok Hi. rewrite <- Ht. by eapply apply_ok_lookup.
Qed.

Lemma apply_invokes_first_match_witness :
  let key := "features.3.12.block.5.bias" in
  let val := np_array [2] [1; 2]%Z in
  ∃ rule groups,
    convnext_importer !! 4 = Some rule
    ∧ matches rule key = Some groups
    ∧ length groups = Re.ngroups (pattern rule)
    ∧ translate_entry convnext_importer key val = handler rule key val groups
    ∧ groups = [Some "3"; Some "12"; Some "5"; Some "bias"]
    ∧ handler rule key val groups = Ok ("stages_1/CNBlock_12/block/layers_4/bias", val).
Proof.
  intros key val.
  destruct (convnext_importer (A:=Z)) as [|r0 [|r1 [|r2 [|r3 [|rule post]]]]] eqn:Hrules;
    try discriminate.
  destruct (apply_invokes_first_match (r0 :: r1 :: r2 :: r3 :: rule :: post)
              [r0; r1; r2; r3] rule post key val) as (groups & Hm & Hlen & Ht & _).
  - reflexivity.
  - injection Hrules as <- <- <- <- <- _.
    repeat constructor; rewrite <- fullmatch_lang; vm_compute; by intros [? ?].
  - injection Hrules as _ _ _ _ <- _.
    rewrite <- fullmatch_lang. vm_compute. by eexists.
  - exists rule, groups.
    split; [done|]. split; [done|]. split; [done|]. split; [done|].
    injection Hrules as _ _ _ _ <- _.
    vm_compute in Hm. injection Hm as <-. split; reflexivity.
Defined.

Lemma initial_conv_weight {A} key (w : ndarray A) :
  ndim w = 4 →
  initial_conv key w [Some "weight"]
  = Ok ("stem/layers_0/kernel",
        {| data := data w; offset := offset w;
           dims := permute [2; 3; 1; 0] (dims w) |}).
Proof.
  intros Hn. unfold initial_conv. simpl dict_getitem. rsimpl.
  rewrite bool_decide_eq_true_2 by done.
  by rewrite transpose_conv_weights_rank4.
Qed.

Lemma unmatched_key_scenario {A} (w u : ndarray A) pat :
  pat = "features\.0\.0\.(weight|bias)" ∨ pat = "features.0.0.(weight|bias)" →
  ndim w = 4 →
  apply (initial_conv_only pat)
    [("features.0.0.weight", w); ("unexpected.key", u)]
  = Err (UnmatchedKeyError "unexpected.key").
Proof.
  intros Hpat Hn. unfold apply. cbn [apply_loop].
  assert (translate_entry (initial_conv_only pat) "features.0.0.weight" w
          = initial_conv "features.0.0.weight" w [Some "weight"]) as ->.
  { by destruct Hpat as [-> | ->]. }
  assert (translate_entry (initial_conv_only pat) "unexpected.key" u
          = Err (UnmatchedKeyError "unexpected.key")) as ->.
  { by destruct Hpat as [-> | ->]. }
  by rewrite initial_conv_weight.
Qed.

(** C3, amended: on an input mapping containing a key that matches no
    registered pattern [apply] raises and returns no mapping; when the
    entries before that key are translated without error, the error is the
    unmatched-key error naming that key.  In particular, with a translator
    holding only the rule for [features\.0\.0\.(weight|bias)] and the input
    {"features.0.0.weight": w, "unexpected.key": u} with [w] of rank 4,
    [apply] raises [UnmatchedKeyError] naming "unexpected.key". *)
Theorem apply_unmatched_key_error :
  (∀ T (rules : CheckpointTranslator T) pre key val post,
     Forall (λ r, ¬ Re.lang (pattern r) key) rules →
     is_ok (apply rules (pre ++ (key, val) :: post)) = false
     ∧ (is_ok (apply rules pre) = true →
        apply rules (pre ++ (key, val) :: post) = Err (UnmatchedKeyError key)))
  ∧ (∀ A (w u : ndarray A) pat,
       pat = "features\.0\.0\.(weight|bias)" ∨ pat = "features.0.0.(weight|bias)" →
       ndim w = 4 →
       apply (initial_conv_only pat)
         [("features.0.0.weight", w); ("unexpected.key", u)]
       = Err (UnmatchedKeyError "unexpected.key")).
Proof.
  split.
  - intros T rules pre key val post. apply apply_unmatched_general.
  - intros A w u pat. apply unmatched_key_scenario.
Qed.

Lemma apply_unmatched_key_error_witness :
  let rules := initial_conv_only "features\.0\.0\.(weight|bias)" in
  let w := np_array [1; 1; 2; 2] [1; 2; 3; 4]%Z in
  let u := np_array [1] [0]%Z in
  is_ok (apply rules [("features.0.0.weight", w)]) = true
  ∧ apply rules ([("features.0.0.weight", w)] ++ ("unexpected.key", u) :: [])
    = Err (UnmatchedKeyError "unexpected.key").
Proof.
  intros rules w u. split; [reflexivity|].
  destruct apply_unmatched_key_error as [Hgen _].
  destruct (Hgen _ rules [("features.0.0.weight", w)] "unexpected.key" u [])
    as [_ Herr].
  - repeat constructor. rewrite <- fullmatch_lang. vm_compute. by intros [? ?].
  - apply Herr. reflexivity.
Defined.

Lemma apply_unmatched_key_counterexample :
  let rules := initial_conv_only "features\.0\.0\.(weight|bias)" in
  let sd := [("unexpected.key", np_array [1] [0]%Z);
             ("other.key", np_array [1] [1]%Z)] in
  "other.key" ∈ sd.*1
  ∧ Forall (λ r, matches r "other.key" = None) rules
  ∧ apply rules sd = Err (UnmatchedKeyError "unexpected.key")
  ∧ apply rules sd ≠ Err (UnmatchedKeyError "other.key").
Proof.
  intros rules sd. split; [|split; [|split]].
  - simpl. set_solver.
  - by repeat constructor.
  - reflexivity.
  - discriminate.
Qed.

(** C4, amended: two distinct source keys translated in one successful
    [apply] call have different target keys; if two distinct source keys of
    the input map to the same target key, [apply] fails and returns no
    mapping, and when every entry of the input can be translated on its own
    the failure is the duplicate-target-key error, naming a target key that
    two entries share. *)
Theorem apply_target_keys_distinct {T} (rules : CheckpointTranslator T)
    state_dict k1 v1 k2 v2 t1 w1 t2 w2 :
  (k1, v1) ∈ state_dict → (k2, v2) ∈ state_dict → k1 ≠ k2 →
  translate_entry rules k1 v1 = Ok (t1, w1) →
  translate_entry rules k2 v2 = Ok (t2, w2) →
  (is_ok (apply rules state_dict) = true → t1 ≠ t2)
  ∧ (t1 = t2 →
     is_ok (apply rules state_dict) = false
     ∧ (Forall (λ src, is_ok (translate_entry rules src.1 src.2) = true) state_dict →
        ∃ k i j src1 src2 x1 x2,
          apply rules state_dict = Err (DuplicateTargetKeyError k)
          ∧ i < j
          ∧ state_dict !! i = Some src1 ∧ state_dict !! j = Some src2
          ∧ translate_entry rules src1.1 src1.2 = Ok (k, x1)
          ∧ translate_entry rules src2.1 src2.2 = Ok (k, x2))).
Proof.
  intros H1 H2 Hne Ht1 Ht2.
  assert (t1 = t2 → is_ok (apply rules state_dict) = false) as Hcol.
  { intros <-. by apply (apply_collision rules state_dict k1 v1 k2 v2 t1 w1 w2). }
  split.
  - intros Hok Heq. rewrite (Hcol Heq) in Hok. done.
  - intros Heq. split; [by apply Hcol|].
    intros Hall. specialize (Hcol Heq).
    destruct (apply rules state_dict) as [out|e] eqn:Happ; [done|].
    destruct (apply_loop_duplicate rules [] state_dict [] e)
      as (k & i & j & src1 & src2 & x1 & x2 & -> & H); [constructor | done..|].
    by exists k, i, j, src1, src2, x1, x2.
Qed.

Lemma apply_target_keys_distinct_witness :
  let sd := [("features.0.0.bias", np_array [2] [1; 2]%Z);
             ("featuresX0.0.bias", np_array [2] [3; 4]%Z)] in
  ∃ k, apply convnext_importer sd = Err (DuplicateTargetKeyError k).
Proof.
  intros sd.
  destruct (apply_target_keys_distinct convnext_importer sd
              "features.0.0.bias" (np_array [2] [1; 2]%Z)
              "featuresX0.0.bias" (np_array [2] [3; 4]%Z)
              "stem/layers_0/bias" (np_array [2] [1; 2]%Z)
              "stem/layers_0/bias" (np_array [2] [3; 4]%Z))
    as [_ Hdup].
  - simpl. set_solver.
  - simpl. set_solver.
  - done.
  - reflexivity.
  - reflexivity.
  - destruct (Hdup eq_refl) as [_ Herr].
    destruct Herr as (k & i & j & src1 & src2 & x1 & x2 & Happ & _).
    + by repeat constructor.
    + by exists k.
Defined.

Lemma apply_duplicate_counterexample :
  let sd := [("unexpected.key", np_array [1] [0]%Z);
             ("features.0.0.bias", np_array [2] [1; 2]%Z);
             ("featuresX0.0.bias", np_array [2] [3; 4]%Z)] in
  translate_entry convnext_importer "features.0.0.bias" (np_array [2] [1; 2]%Z)
  = Ok ("stem/layers_0/bias", np_array [2] [1; 2]%Z)
  ∧ translate_entry convnext_importer "featuresX0.0.bias" (np_array [2] [3; 4]%Z)
    = Ok ("stem/layers_0/bias", np_array [2] [3; 4]%Z)
  ∧ apply convnext_importer sd = Err (UnmatchedKeyError "unexpected.key")
  ∧ ∀ k, apply convnext_importer sd ≠ Err (DuplicateTargetKeyError k).
Proof.
  intros sd. repeat split; try reflexivity. discriminate.
Qed.

(** C1, amended: for every flat input mapping on which [apply] and then
    [unflatten_dict] both succeed, the resulting tree has exactly one leaf per
    input entry: the tensor the handler returned for that entry, at the path
    of its target key.  No input tensor is dropped and none is duplicated. *)
Theorem apply_unflatten_one_leaf_per_entry {T} (rules : CheckpointTranslator T)
    (state_dict out : flat_dict T) sep params :
  apply rules state_dict = Ok out →
  unflatten_dict out sep = Ok params →
  leaves params = length state_dict
  ∧ ∀ i key val, state_dict !! i = Some (key, val) →
      ∃ new_key new_val path,
        translate_entry rules key val = Ok (new_key, new_val)
        ∧ out !! i = Some (new_key, new_val)
        ∧ str_split new_key sep = Ok path
        ∧ lookup_path path params = Some new_val.
Proof.
  intros Happ Hun.
  destruct (apply_ok _ _ _ Happ) as [Hnd Hall].
  destruct (unflatten_dict_ok _ _ _ Hun Hnd) as [Hcount Hentries].
  split.
  - rewrite Hcount. symmetry. by eapply Forall2_length.
  - intros i key val Hi.
    destruct (apply_ok_lookup _ _ _ _ _ _ Happ Hi) as ([new_key new_val] & Ho & Ht).
    destruct (Hentries new_key new_val) as (path & Hs & Hl).
    { by eapply list_elem_of_lookup_2. }
    by exists new_key, new_val, path.
Qed.

Lemma apply_unflatten_one_leaf_per_entry_witness :
  let sd := [("features.0.0.weight", np_array [1; 1; 2; 2] [1; 2; 3; 4]%Z);
             ("features.0.0.bias", np_array [1] [5]%Z);
             ("features.3.12.block.5.bias", np_array [1] [6]%Z)] in
  ∃ out params,
    apply convnext_importer sd = Ok out
    ∧ unflatten_dict out "/" = Ok params
    ∧ leaves params = 3.
Proof.
  intros sd.
  destruct (apply convnext_importer sd) as [out|] eqn:Happ; [|discriminate].
  destruct (unflatten_dict out "/") as [params|] eqn:Hun;
    [|vm_compute in Happ; injection Happ as <-; discriminate].
  exists out, params. split; [done|]. split; [done|].
  by destruct (apply_unflatten_one_leaf_per_entry
                 convnext_importer sd out "/" params Happ Hun) as [-> _].
Defined.

Lemma apply_unflatten_counterexample :
  let sd := [("features.0.0.bias", np_array [2] [1; 2]%Z);
             ("featuresX0.0.bias", np_array [2] [3; 4]%Z)] in
  NoDup sd.*1
  ∧ Forall (λ key, length (filter (λ r, is_Some (matches r key))
                             (convnext_importer (A:=Z))) = 1) sd.*1
  ∧ (apply convnext_importer sd ≫= λ out, unflatten_dict out "/")
    = Err (DuplicateTargetKeyError "stem/layers_0/bias").
Proof.
  intros sd. split; [|split].
  - by apply (bool_decide_unpack _).
  - repeat constructor; vm_compute; reflexivity.
  - reflexivity.
Qed.

(** C10, amended: for every input [state_dict] on which [apply] and
    [unflatten_dict] succeed, [load_from_torch_checkpoint] returns a mapping
    with exactly one top-level key, "params", whose value is the reassembled
    tree, not the bare tree; on any other input, that is when [apply] or
    [unflatten_dict] raises, it raises that error and returns nothing, so
    that a mapping is returned on the former inputs only. *)
Theorem load_from_torch_checkpoint_wraps_params {A}
    (state_dict : flat_dict (ndarray A)) :
  (∀ out params,
     apply convnext_importer state_dict = Ok out →
     unflatten_dict out "/" = Ok params →
     ∃ r, load_from_torch_checkpoint state_dict = Ok r
          ∧ r = {[ "params" := Node params ]}
          ∧ dom r = {[ "params" ]}
          ∧ r !! "params" = Some (Node params))
  ∧ (∀ e,
       apply convnext_importer state_dict = Err e →
       load_from_torch_checkpoint state_dict = Err e)
  ∧ (∀ out e,
       apply convnext_importer state_dict = Ok out →
       unflatten_dict out "/" = Err e →
       load_from_torch_checkpoint state_dict = Err e)
  ∧ (∀ r,
       load_from_torch_checkpoint state_dict = Ok r →
       ∃ out params,
         apply convnext_importer state_dict = Ok out
         ∧ unflatten_dict out "/" = Ok params
         ∧ r = {[ "params" := Node params ]}).
Proof.
  unfold load_from_torch_checkpoint. rewrite as_numpy_id.
  destruct (apply convnext_importer state_dict) as [out|e] eqn:Happ; rsimpl.
  - rewrite dict_copy_id.
    destruct (unflatten_dict out "/") as [params|e] eqn:Hun; rsimpl.
    + split; [|split; [done|split; [by intros ? ? [= <-]; rewrite Hun|]]].
      * intros ? ? [= <-]. rewrite Hun. intros [= <-].
        exists {[ "params" := Node params ]}. split; [done|]. split; [done|].
        split; [apply dom_singleton_L | apply lookup_singleton_eq].
      * intros r [= <-]. by exists out, params.
    + split; [by intros ? ? [= <-]; rewrite Hun|]. split; [done|].
      split; [|done]. intros ? ? [= <-]. rewrite Hun. by intros [= <-].
  - split; [done|]. split; [by intros ? [= <-]|]. split; done.
Qed.

Lemma load_from_torch_checkpoint_wraps_params_witness :
  let sd := [("features.0.0.weight", np_array [1; 1; 2; 2] [1; 2; 3; 4]%Z);
             ("features.0.0.bias", np_array [1] [5]%Z)] in
  let bad := [("unexpected.key", np_array [1] [0]%Z)] in
  (∃ r params,
     load_from_torch_checkpoint sd = Ok r
     ∧ dom r = {[ "params" ]}
     ∧ r !! "params" = Some (Node params)
     ∧ lookup_path ["stem"; "layers_0"; "bias"] params = Some (np_array [1] [5]%Z))
  ∧ load_from_torch_checkpoint bad = Err (UnmatchedKeyError "unexpected.key").
Proof.
  intros sd bad. split.
  - destruct (apply convnext_importer sd) as [out|] eqn:Happ; [|discriminate].
    destruct (unflatten_dict out "/") as [params|] eqn:Hun;
      [|vm_compute in Happ; injection Happ as <-; discriminate].
    destruct (load_from_torch_checkpoint_wraps_params sd) as (Hok & _).
    destruct (Hok out params Happ Hun) as (r & Hr & _ & Hdom & Hlook).
    exists r, params. split; [exact Hr|]. split; [exact Hdom|].
    split; [exact Hlook|].
    vm_compute in Happ. injection Happ as <-.
    vm_compute in Hun. injection Hun as <-. reflexivity.
  - destruct (load_from_torch_checkpoint_wraps_params bad) as (_ & Herr & _).
    apply Herr. reflexivity.
Defined.

Lemma load_from_torch_checkpoint_counterexample :
  load_from_torch_checkpoint [("unexpected.key", np_array [1] [0]%Z)]
  = Err (UnmatchedKeyError "unexpected.key").
Proof. reflexivity. Qed.

(** * Further properties of the rule set and of the model set-up *)

(** ** What the groups of a match hold *)

Section GroupFacts.
Import Re.

Lemma str_length_app (a b : string) :
  String.length (a +:+ b) = String.length a + String.length b.
Proof.
  induction a as [|c a IH]; [done|]. rewrite str_app_cons. simpl. by rewrite IH.
Qed.

Lemma substring_prefix (a b : string) :
  String.substring 0 (String.length a) (a +:+ b) = a.
Proof.
  induction a as [|c a IH].
  - simpl. by destruct b.
  - rewrite str_app_cons. simpl. by rewrite IH.
Qed.

Lemma consumed_app (a b : string) : consumed (a +:+ b) b = a.
Proof.
  unfold consumed. rewrite str_length_app.
  replace (String.length a + String.length b - String.length b)
    with (String.length a) by lia.
  apply substring_prefix.
Qed.

Lemma star_atom_split {X} a s (k : string → option X) x :
  star_atom a s k = Some x →
  ∃ s1 s2, s = s1 +:+ s2 ∧ (s1 = "" ∨ plus_lang a s1) ∧ k s2 = Some x.
Proof.
  induction s as [|c s IH]; simpl.
  - intros H. exists "", "". auto.
  - destruct (atom_matches a c) eqn:Hc; [|intros H; exists "", (String c s); auto].
    destruct (star_atom a s k) as [y|] eqn:Hs.
    + intros [= ->]. destruct (IH eq_refl) as (s1 & s2 & -> & Hs1 & Hk).
      exists (String c s1), s2. split; [done|]. split; [|done].
      right. destruct Hs1 as [->|Hs1]; by constructor.
    + intros H. exists "", (String c s). auto.
Qed.

Lemma ngroups_groups_of r : ngroups r = length (groups_of r).
Proof.
  induction r; simpl; rewrite ?length_app; lia.
Qed.

Lemma no_group_in_alt_groupless r : ngroups r = 0 → no_group_in_alt r = true.
Proof.
  induction r as [| | |r1 IH1 r2 IH2|r1 IH1 r2 IH2|r IH]; simpl; try done.
  - intros H. rewrite IH1, IH2 by lia. done.
  - intros H. apply andb_true_intro. split; apply Nat.eqb_eq; lia.
Qed.

(** A successful match of a pattern without groups in alternatives: the
    part consumed is in the language, the groups of the pattern hold what
    their sub-patterns matched and the other groups are untouched. *)
Lemma rmatch_groups {X} r :
  no_group_in_alt r = true →
  ∀ g s caps (k : string → list pystr → option X) x,
    rmatch r g s caps k = Some x →
    ∃ s1 s2 caps',
      s = s1 +:+ s2 ∧ lang r s1 ∧ k s2 caps' = Some x
      ∧ length caps' = length caps
      ∧ (∀ i, i < g ∨ g + ngroups r ≤ i → caps' !! i = caps !! i)
      ∧ (∀ j ri, groups_of r !! j = Some ri → g + j < length caps →
           ∃ c, caps' !! (g + j) = Some (Some c) ∧ lang ri c).
Proof.
  induction r as [|a|a|r1 IH1 r2 IH2|r1 IH1 r2 IH2|r IH];
    intros Hng g s caps k x; simpl in *.
  - intros H. exists "", s, caps. repeat split; try done. constructor.
  - destruct s as [|c s]; [done|]. destruct (atom_matches a c) eqn:Hc; [|done].
    intros H. exists (String c ""), s, caps. repeat split; try done. by constructor.
  - destruct s as [|c s]; [done|]. destruct (atom_matches a c) eqn:Hc; [|done].
    intros H. apply star_atom_split in H as (s1 & s2 & -> & Hs1 & H).
    exists (String c s1), s2, caps. repeat split; try done.
    constructor. destruct Hs1 as [->|Hs1]; by constructor.
  - apply andb_prop in Hng as [Hng1 Hng2].
    intros H.
    apply (IH1 Hng1) in H as (s1 & s' & caps1 & -> & Hl1 & H & Hlen1 & Hout1 & Hin1).
    apply (IH2 Hng2) in H as (s2 & s3 & caps2 & -> & Hl2 & H & Hlen2 & Hout2 & Hin2).
    exists (s1 +:+ s2), s3, caps2. rewrite str_app_assoc.
    split; [done|]. split; [by constructor|]. split; [done|].
    split; [congruence|]. split.
    + intros i Hi. rewrite Hout2 by lia. apply Hout1. lia.
    + intros j ri Hj Hlt.
      destruct (decide (j < length (groups_of r1))) as [Hj1|Hj1].
      * rewrite lookup_app_l in Hj by done.
        destruct (Hin1 j ri Hj Hlt) as (c & Hc & Hlc).
        exists c. split; [|done]. rewrite Hout2; [done|].
        left. rewrite ngroups_groups_of. lia.
      * rewrite lookup_app_r in Hj by lia.
        destruct (Hin2 _ ri Hj) as (c & Hc & Hlc).
        { rewrite Hlen1, ngroups_groups_of. lia. }
        exists c. split; [|done]. rewrite <- Hc. f_equal.
        rewrite ngroups_groups_of. lia.
  - apply andb_prop in Hng as [Hn1 Hn2].
    apply Nat.eqb_eq in Hn1, Hn2.
    assert (groups_of r1 ++ groups_of r2 = []) as ->.
    { apply length_zero_iff_nil. rewrite length_app, <- !ngroups_groups_of. lia. }
    destruct (rmatch r1 g s caps k) as [y|] eqn:H1.
    + intros [= ->].
      apply (IH1 (no_group_in_alt_groupless _ Hn1)) in H1
        as (s1 & s2 & caps' & -> & Hl & H & Hlen & Hout & _).
      exists s1, s2, caps'. split; [done|]. split; [by apply lang_alt_l|].
      split; [done|]. split; [done|]. split; [|done].
      intros i _. apply Hout. lia.
    + intros H2.
      apply (IH2 (no_group_in_alt_groupless _ Hn2)) in H2
        as (s1 & s2 & caps' & -> & Hl & H & Hlen & Hout & _).
      exists s1, s2, caps'. split; [done|]. split; [by apply lang_alt_r|].
      split; [done|]. split; [done|]. split; [|done].
      intros i _. apply Hout. lia.
  - intros H.
    apply (IH Hng) in H as (s1 & s2 & caps1 & -> & Hl & H & Hlen & Hout & Hin).
    rewrite consumed_app in H.
    exists s1, s2, (<[g := Some s1]> caps1).
    split; [done|]. split; [by constructor|]. split; [done|].
    split; [by rewrite length_insert|]. split.
    + intros i Hi. rewrite list_lookup_insert_ne by lia. apply Hout. lia.
    + intros [|j] ri Hj Hlt; simpl in Hj.
      * injection Hj as <-. exists s1. split; [|done].
        rewrite Nat.add_0_r in *. rewrite list_lookup_insert_eq; [done | unfold pystr in *; lia].
      * destruct (Hin j ri Hj) as (c & Hc & Hlc); [lia|].
        exists c. split; [|done].
        rewrite list_lookup_insert_ne by lia.
        rewrite <- Hc. f_equal. lia.
Qed.

Lemma fullmatch_groups r key groups :
  no_group_in_alt r = true →
  fullmatch r key = Some groups →
  lang r key
  ∧ Forall2 (λ g ri, ∃ c, g = Some c ∧ lang ri c) groups (groups_of r).
Proof.
  intros Hng H. unfold fullmatch in H.
  apply (rmatch_groups r Hng) in H
    as (s1 & s2 & caps' & -> & Hl & H & Hlen & _ & Hin).
  destruct s2; [|done]. injection H as ->.
  rewrite str_app_nil_r. split; [done|].
  rewrite length_replicate in Hlen.
  unfold pystr in *.
  apply Forall2_same_length_lookup_2.
  { by rewrite Hlen, ngroups_groups_of. }
  intros i g ri Hg Hri.
  destruct (Hin i ri Hri) as (c & Hc & Hlc).
  { rewrite length_replicate, ngroups_groups_of. by eapply lookup_lt_Some. }
  simpl in Hc. exists c. split; [congruence | done].
Qed.

Lemma finite_lang_sound r : ∀ l s, finite_lang r = Some l → lang r s → s ∈ l.
Proof.
  induction r as [|a|a|r1 IH1 r2 IH2|r1 IH1 r2 IH2|r IH]; intros l s; simpl.
  - intros [= <-] H. inversion H. set_solver.
  - destruct a as [c| |]; try done. intros [= <-] H. inversion H as [|? ? Hc| | | | |]; subst.
    simpl in Hc. apply bool_decide_eq_true in Hc as ->. set_solver.
  - done.
  - destruct (finite_lang r1) as [l1|]; [|done].
    destruct (finite_lang r2) as [l2|]; [|done].
    intros [= <-] H. inversion H; subst.
    apply list_elem_of_bind. exists s1. split; [|by eapply IH1].
    apply list_elem_of_fmap. exists s2. split; [done | by eapply IH2].
  - destruct (finite_lang r1) as [l1|]; [|done].
    destruct (finite_lang r2) as [l2|]; [|done].
    intros [= <-] H. apply elem_of_app. inversion H; subst; [left | right]; eauto.
  - intros Hf H. inversion H; subst. eauto.
Qed.

(** What the groups of a match can be: every group holds a string of its
    sub-pattern, one of finitely many when the sub-pattern is made of
    literal characters. *)
Lemma fullmatch_group_vocab r key groups :
  no_group_in_alt r = true →
  fullmatch r key = Some groups →
  Forall2 (λ g ri, ∃ c, g = Some c ∧ lang ri c
                        ∧ ∀ l, finite_lang ri = Some l → c ∈ l)
    groups (groups_of r).
Proof.
  intros Hng H. apply (fullmatch_groups r key groups Hng) in H as [_ H].
  eapply Forall2_impl; [exact H|].
  intros g ri (c & -> & Hl). exists c. split; [done|]. split; [done|].
  intros l Hf. by eapply finite_lang_sound.
Qed.

End GroupFacts.

(** ** The handlers on the keys their patterns accept *)

Lemma convnext_importer_rules {A} :
  convnext_importer (A:=A)
  = [ {| pattern := compiled "features.0.0.(weight|bias)"; handler := initial_conv |};
      {| pattern := compiled "features.0.1.(weight|bias)"; handler := initial_norm |};
      {| pattern := compiled "features.(1|3|5|7).(\d+).layer_scale";
         handler := cn_block_layer_scale |};
      {| pattern := compiled "features.(1|3|5|7).(\d+).block.0.(weight|bias)";
         handler := cn_block_block_conv |};
      {| pattern := compiled "features.(1|3|5|7).(\d+).block.(3|5).(weight|bias)";
         handler := cn_block_block_dense |};
      {| pattern := compiled "features.(1|3|5|7).(\d+).block.2.(weight|bias)";
         handler := cn_block_block_norm |};
      {| pattern := compiled "features.(2|4|6).0.(weight|bias)";
         handler := block_projection_norm |};
      {| pattern := compiled "features.(2|4|6).1.(weight|bias)";
         handler := block_projection_conv |};
      {| pattern := compiled "classifier.0.(weight|bias)"; handler := classifier_norm |};
      {| pattern := compiled "classifier.2.(weight|bias)"; handler := classifier_dense |} ].
Proof. reflexivity. Qed.

Ltac group_cases H :=
  apply fullmatch_group_vocab in H; [|vm_compute; reflexivity];
  match type of H with
  | Forall2 _ _ (groups_of ?r) =>
      let v := eval vm_compute in (groups_of r) in
      change (groups_of r) with v in H
  end;
  repeat match goal with
  | H' : Forall2 _ _ (_ :: _) |- _ =>
      let Hv := fresh "Hv" in
      let Hl := fresh "Hl" in
      apply Forall2_cons_inv_r in H' as (? & ? & (? & -> & Hl & Hv) & H' & ->);
      first [ specialize (Hv _ eq_refl); clear Hl;
              match type of Hv with
              | _ ∈ ?l => let v := eval vm_compute in l in change l with v in Hv
              end
            | clear Hv ]
  | H' : Forall2 _ _ [] |- _ => apply Forall2_nil_inv_r in H' as ->
  end;
  repeat match goal with
  | Hv : _ ∈ _ :: _ |- _ => apply elem_of_cons in Hv as [-> | Hv]
  | Hv : _ ∈ [] |- _ => by apply elem_of_nil in Hv
  end.

Ltac rule_cases Hin :=
  rewrite convnext_importer_rules in Hin;
  repeat (apply elem_of_cons in Hin as [-> | Hin]);
  [ .. | by apply elem_of_nil in Hin ].

Lemma np_transpose_conv_cases {A} (val : ndarray A) :
  (∃ w, transpose_conv_weights val = Ok w)
  ∨ transpose_conv_weights val = Err (ValueError "axes don't match array").
Proof.
  destruct (decide (ndim val = 4)) as [Hn|Hn].
  - left. eexists. by apply transpose_conv_weights_rank4.
  - right. unfold transpose_conv_weights. apply np_transpose_rank_mismatch.
    simpl. congruence.
Qed.

Lemma np_transpose_dense_cases {A} (val : ndarray A) :
  (∃ w, transpose_dense_weights val = Ok w)
  ∨ transpose_dense_weights val = Err (ValueError "axes don't match array").
Proof.
  destruct (decide (ndim val = 2)) as [Hn|Hn].
  - left. unfold transpose_dense_weights, np_transpose. rewrite Hn. by eexists.
  - right. unfold transpose_dense_weights. apply np_transpose_rank_mismatch.
    simpl. congruence.
Qed.

Ltac unfold_handlers H :=
  unfold initial_conv, initial_norm, cn_block_layer_scale, cn_block_block_conv,
    cn_block_block_dense, cn_block_block_norm, block_projection_norm,
    block_projection_conv, classifier_norm, classifier_dense in H.

(** X1. A handler of [convnext_importer] called on a key that its pattern
    matches fails in one way only: the entry is a weight and numpy refuses
    the transposition, because the tensor does not have the rank that the
    rule expects.  No handler raises a [KeyError] or a [ValueError] of
    [int] on the groups that its own pattern captures. *)
Theorem convnext_handlers_fail_only_on_rank {A} rule key (val : ndarray A) groups e :
  rule ∈ convnext_importer →
  matches rule key = Some groups →
  handler rule key val groups = Err e →
  e = ValueError "axes don't match array"
  ∧ last groups = Some (Some "weight").
Proof.
  intros Hin Hm. rule_cases Hin; unfold matches in Hm; simpl in Hm |- *;
    group_cases Hm.
  all: try (by intros [=]).
  all: intros H; split; [|reflexivity]; unfold_handlers H.
  all: first
    [ destruct (np_transpose_conv_cases val) as [[w Hw]|Hw]; rewrite Hw in H
    | destruct (np_transpose_dense_cases val) as [[w Hw]|Hw]; rewrite Hw in H ];
    vm_compute in H; congruence.
Qed.

Lemma convnext_handlers_fail_only_on_rank_witness :
  let rule := {| pattern := compiled "features.0.0.(weight|bias)";
                 handler := initial_conv (A:=Z) |} in
  let val := np_array [3] [1; 2; 3]%Z in
  handler rule "features.0.0.weight" val [Some "weight"]
  = Err (ValueError "axes don't match array")
  ∧ last [Some "weight"] = Some (Some "weight").
Proof.
  intros rule val. split; [reflexivity|].
  apply (convnext_handlers_fail_only_on_rank rule "features.0.0.weight" val
           [Some "weight"] (ValueError "axes don't match array")).
  - rewrite convnext_importer_rules. apply list_elem_of_here.
  - reflexivity.
  - reflexivity.
Defined.

Ltac pick_layer :=
  (exists 0 + exists 1 + exists 2 + exists 4); eexists;
  (exists "kernel" + exists "bias" + exists "scale");
  split; [reflexivity|]; split;
    [| first [reflexivity | rewrite !str_app_assoc; reflexivity]];
    [simpl; set_solver].

Ltac pick_target :=
  solve
    [ left; pick_layer
    | right; left; pick_layer
    | right; right; left;
      (exists 0 + exists 1 + exists 2 + exists 3); eexists;
      split; [lia|]; split; [eassumption|];
      ((left; reflexivity) + (right; pick_layer))
    | right; right; right;
      (exists 1 + exists 2 + exists 3);
      (exists "kernel" + exists "bias" + exists "scale");
      split; [lia|];
      (left + right); split; [| reflexivity]; [simpl; set_solver] ].

(** X2. Every key that a rule of [convnext_importer] returns names a
    parameter of the model: a parameter of a layer of [stem] or of
    [classifier], the [layer_scale] or a parameter of a layer of the block
    of a [CNBlock] in one of the stages 0 to 3, or a parameter of the norm
    or of the convolution of the downsampling of one of the stages 1 to 3.
    The activation and the reshaping layer are never named. *)
Theorem convnext_targets_name_model_parameters {A} rule key (val : ndarray A)
    groups new_key new_val :
  rule ∈ convnext_importer →
  matches rule key = Some groups →
  handler rule key val groups = Ok (new_key, new_val) →
  names_layer_param stem_layers "stem/" new_key
  ∨ names_layer_param classifier_layers "classifier/" new_key
  ∨ (∃ (n : nat) block,
       n ≤ 3 ∧ Re.lang (Plus DigitChar) block
       ∧ (new_key = "stages_" +:+ pretty n +:+ "/CNBlock_" +:+ block +:+ "/layer_scale"
          ∨ names_layer_param cn_block_layers
              ("stages_" +:+ pretty n +:+ "/CNBlock_" +:+ block +:+ "/block/") new_key))
  ∨ (∃ (n : nat) name,
       1 ≤ n ≤ 3
       ∧ ((name ∈ param_names NormLayer
           ∧ new_key = "stages_" +:+ pretty n +:+ "/LayerNorm_0/" +:+ name)
          ∨ (name ∈ param_names ConvLayer
             ∧ new_key = "stages_" +:+ pretty n +:+ "/Conv_0/" +:+ name))).
Proof.
  intros Hin Hm. rule_cases Hin; unfold matches in Hm; simpl in Hm |- *;
    group_cases Hm.
  all: intros H; unfold_handlers H.
  all: revert H;
    generalize (transpose_conv_weights val), (transpose_dense_weights val);
    intros tc td H; vm_compute in H.
  all: repeat match type of H with
       | context [match ?r with Ok _ => _ | Err _ => _ end] => destruct r
       end; try discriminate; injection H as <- <-.
  all: pick_target.
Qed.

Lemma convnext_targets_name_model_parameters_witness :
  let rule := {| pattern := compiled "features.(1|3|5|7).(\d+).block.(3|5).(weight|bias)";
                 handler := cn_block_block_dense (A:=Z) |} in
  let val := np_array [2] [1; 2]%Z in
  let new_key := "stages_1/CNBlock_12/block/layers_4/bias" in
  names_layer_param stem_layers "stem/" new_key
  ∨ names_layer_param classifier_layers "classifier/" new_key
  ∨ (∃ (n : nat) block,
       n ≤ 3 ∧ Re.lang (Plus DigitChar) block
       ∧ (new_key = "stages_" +:+ pretty n +:+ "/CNBlock_" +:+ block +:+ "/layer_scale"
          ∨ names_layer_param cn_block_layers
              ("stages_" +:+ pretty n +:+ "/CNBlock_" +:+ block +:+ "/block/") new_key))
  ∨ (∃ (n : nat) name,
       1 ≤ n ≤ 3
       ∧ ((name ∈ param_names NormLayer
           ∧ new_key = "stages_" +:+ pretty n +:+ "/LayerNorm_0/" +:+ name)
          ∨ (name ∈ param_names ConvLayer
             ∧ new_key = "stages_" +:+ pretty n +:+ "/Conv_0/" +:+ name))).
Proof.
  intros rule val new_key.
  apply (convnext_targets_name_model_parameters rule "features.3.12.block.5.bias"
           val [Some "3"; Some "12"; Some "5"; Some "bias"] new_key val).
  - rewrite convnext_importer_rules. do 4 apply list_elem_of_further.
    apply list_elem_of_here.
  - reflexivity.
  - reflexivity.
Defined.

(** ** What the handlers do to the tensor *)

Section TensorFacts.
Context {A : Type}.
Implicit Types (val w : ndarray A) (key : string) (groups : list pystr).

Lemma transpose_conv_weights_ok val w :
  transpose_conv_weights val = Ok w →
  ndim val = 4
  ∧ w = {| data := data val; offset := offset val;
           dims := permute [2; 3; 1; 0] (dims val) |}.
Proof.
  intros H. destruct (decide (ndim val = 4)) as [Hn|Hn].
  - rewrite transpose_conv_weights_rank4 in H by done. by injection H as <-.
  - unfold transpose_conv_weights in H.
    rewrite np_transpose_rank_mismatch in H; [done | simpl; congruence].
Qed.

Lemma transpose_dense_weights_ok val w :
  transpose_dense_weights val = Ok w →
  ndim val = 2
  ∧ w = {| data := data val; offset := offset val;
           dims := permute [1; 0] (dims val) |}.
Proof.
  intros H. destruct (decide (ndim val = 2)) as [Hn|Hn].
  - unfold transpose_dense_weights, np_transpose in H. rewrite Hn in H.
    by injection H as <-.
  - unfold transpose_dense_weights in H.
    rewrite np_transpose_rank_mismatch in H; [done | simpl; congruence].
Qed.

Lemma last_singleton_inv {X} (g x : X) : last [g] = Some x → g = x.
Proof. by intros [= ->]. Qed.

Ltac by_arity groups :=
  let g1 := fresh "g" in let g2 := fresh "g" in let g3 := fresh "g" in
  let g4 := fresh "g" in let g5 := fresh "g" in
  destruct groups as [|g1 [|g2 [|g3 [|g4 [|g5 groups]]]]].

(** X3. The three convolution rules, given a weight, succeed only on a
    tensor of rank 4 and return the view with the axes (out, in, h, w)
    reordered as (h, w, in, out) over the same data: the element at
    [[kh; kw; i; o]] of the result is the element at [[o; i; kh; kw]] of the
    input. *)
Theorem conv_rules_kernel_layout
    (fn : string → ndarray A → list pystr → result (string * ndarray A))
    key val groups new_key new_val :
  fn ∈ [initial_conv; cn_block_block_conv; block_projection_conv] →
  last groups = Some (Some "weight") →
  fn key val groups = Ok (new_key, new_val) →
  ndim val = 4
  ∧ shape new_val = permute [2; 3; 1; 0] (shape val)
  ∧ data new_val = data val
  ∧ ∀ o i kh kw, get new_val [kh; kw; i; o] = get val [o; i; kh; kw].
Proof.
  intros Hfn Hlast H.
  assert (transpose_conv_weights val = Ok new_val) as Hw.
  { repeat (apply elem_of_cons in Hfn as [-> | Hfn]); [..|by apply elem_of_nil in Hfn];
      by_arity groups; try discriminate; simpl in Hlast; injection Hlast as ->.
    - unfold initial_conv in H. simpl dict_getitem in H. rewrite bind_Ok in H.
      rewrite bool_decide_eq_true_2 in H by done.
      destruct (transpose_conv_weights val); [|done]. by injection H as _ ->.
    - unfold cn_block_block_conv in H. simpl dict_getitem in H. rewrite bind_Ok in H.
      destruct (stage_index g); [|done]. rewrite bind_Ok in H. simpl str_eq in H.
      destruct (transpose_conv_weights val); [|done]. by injection H as _ ->.
    - unfold block_projection_conv in H. simpl dict_getitem in H. rewrite bind_Ok in H.
      destruct (py_int g); [|done]. rewrite bind_Ok in H. simpl str_eq in H.
      destruct (transpose_conv_weights val); [|done]. by injection H as _ ->. }
  destruct (transpose_conv_weights_ok _ _ Hw) as [Hn Heq].
  split; [done|]. split; [|split].
  - rewrite Heq. destruct (list_of_length_4 (dims val)) as (a & b & c & d & Hd); [done|].
    unfold shape. simpl. by rewrite Hd.
  - by rewrite Heq.
  - intros o i kh kw. by apply transpose_conv_weights_get.
Qed.

(** X4. The two dense rules, given a weight, succeed only on a tensor of
    rank 2 and return its transpose over the same data: the element at
    [[i; o]] of the result is the element at [[o; i]] of the input. *)
Theorem dense_rules_kernel_layout
    (fn : string → ndarray A → list pystr → result (string * ndarray A))
    key val groups new_key new_val :
  fn ∈ [cn_block_block_dense; classifier_dense] →
  last groups = Some (Some "weight") →
  fn key val groups = Ok (new_key, new_val) →
  ndim val = 2
  ∧ shape new_val = reverse (shape val)
  ∧ data new_val = data val
  ∧ ∀ o i, get new_val [i; o] = get val [o; i].
Proof.
  intros Hfn Hlast H.
  assert (transpose_dense_weights val = Ok new_val) as Hw.
  { repeat (apply elem_of_cons in Hfn as [-> | Hfn]); [..|by apply elem_of_nil in Hfn];
      by_arity groups; try discriminate; simpl in Hlast; injection Hlast as ->.
    - unfold cn_block_block_dense in H.
      destruct (py_int g1) as [idx|]; [|done]. rewrite bind_Ok in H.
      destruct (dict_getitem _ idx _); [|done]. rewrite bind_Ok in H.
      simpl dict_getitem in H. rewrite bind_Ok in H.
      destruct (stage_index g); [|done]. rewrite bind_Ok in H. simpl str_eq in H.
      destruct (transpose_dense_weights val); [|done]. by injection H as _ ->.
    - unfold classifier_dense in H. simpl dict_getitem in H. rewrite bind_Ok in H.
      simpl str_eq in H.
      destruct (transpose_dense_weights val); [|done]. by injection H as _ ->. }
  destruct (transpose_dense_weights_ok _ _ Hw) as [Hn Heq].
  destruct (list_of_length_2 (dims val)) as ([a sa] & [b sb] & Hd); [done|].
  split; [done|]. rewrite Heq. unfold get, shape, strides. simpl. rewrite Hd. simpl.
  split; [done|]. split; [done|].
  intros o i. destruct (i <? b), (o <? a); simpl; try done. f_equal. lia.
Qed.

Ltac step_handler H :=
  repeat first
    [ rewrite bind_Ok in H
    | rewrite bind_Err in H
    | match type of H with
      | context [dict_getitem ?d ?k ?e] =>
          let r := fresh "r" in
          destruct (dict_getitem d k e) as [r|] eqn:?
      | context [stage_index ?s] => destruct (stage_index s)
      | context [py_int ?s] => destruct (py_int s)
      | context [bool_decide ?P] => destruct (bool_decide P)
      | context [str_eq ?x ?s] => destruct (str_eq x s) eqn:?
      | context [transpose_conv_weights ?v] =>
          let w := fresh "w" in
          destruct (transpose_conv_weights v) as [w|] eqn:?
      | context [transpose_dense_weights ?v] =>
          let w := fresh "w" in
          destruct (transpose_dense_weights v) as [w|] eqn:?
      end ].

Lemma norm_rules_keep_tensor
    (fn : string → ndarray A → list pystr → result (string * ndarray A))
    key val groups new_key new_val :
  fn ∈ [initial_norm; cn_block_block_norm; block_projection_norm; classifier_norm] →
  fn key val groups = Ok (new_key, new_val) →
  new_val = val.
Proof.
  intros Hfn H.
  repeat (apply elem_of_cons in Hfn as [-> | Hfn]); [..|by apply elem_of_nil in Hfn];
    by_arity groups; try discriminate; unfold_handlers H; step_handler H;
    try discriminate; by injection H as _ ->.
Qed.

Lemma weight_or_bias_rules_keep_bias
    (fn : string → ndarray A → list pystr → result (string * ndarray A))
    key val groups new_key new_val :
  fn ∈ weight_or_bias_handlers →
  last groups = Some (Some "bias") →
  fn key val groups = Ok (new_key, new_val) →
  new_val = val.
Proof.
  intros Hfn Hlast H. unfold weight_or_bias_handlers in Hfn.
  repeat (apply elem_of_cons in Hfn as [-> | Hfn]); [..|by apply elem_of_nil in Hfn];
    by_arity groups; try discriminate; simpl in Hlast; injection Hlast as ->;
    unfold_handlers H; simpl str_eq in H;
    repeat match type of H with
    | context [dict_getitem ?d (Some "bias") ?e] =>
        change (dict_getitem d (Some "bias") e) with (Ok (X:=string) "bias") in H
    end;
    rewrite ?bind_Ok in H;
    try rewrite (bool_decide_eq_false_2 ("bias" = "kernel")) in H by done;
    step_handler H; try discriminate; by injection H as _ ->.
Qed.

(** X5. The tensor is returned as it is by the four norm rules, for a
    weight as for a bias, and by every rule for a bias: only the weights of
    the convolution and dense rules and the layer scale are changed. *)
Theorem convnext_rules_keep_tensor
    (fn : string → ndarray A → list pystr → result (string * ndarray A))
    key val groups new_key new_val :
  fn ∈ [initial_norm; cn_block_block_norm; block_projection_norm; classifier_norm]
  ∨ (fn ∈ weight_or_bias_handlers ∧ last groups = Some (Some "bias")) →
  fn key val groups = Ok (new_key, new_val) →
  new_val = val.
Proof.
  intros [Hfn | [Hfn Hlast]] H.
  - by eapply norm_rules_keep_tensor.
  - by eapply weight_or_bias_rules_keep_bias.
Qed.

Lemma size_permute_4 (ds : list (nat * nat)) :
  length ds = 4 →
  foldr Nat.mul 1 (permute [2; 3; 1; 0] ds).*1 = foldr Nat.mul 1 ds.*1.
Proof.
  intros Hn. destruct (list_of_length_4 ds) as ([a ?] & [b ?] & [c ?] & [d ?] & ->);
    [done|]. simpl. lia.
Qed.

Lemma size_permute_2 (ds : list (nat * nat)) :
  length ds = 2 →
  foldr Nat.mul 1 (permute [1; 0] ds).*1 = foldr Nat.mul 1 ds.*1.
Proof.
  intros Hn. destruct (list_of_length_2 ds) as ([a ?] & [b ?] & ->); [done|].
  simpl. lia.
Qed.

Lemma size_reshape_flat val : size (reshape_flat val) = size val.
Proof. unfold reshape_flat, size at 1, shape. simpl. lia. Qed.

(** X6. No rule changes the number of elements of the tensor: whatever a
    handler of [convnext_importer] returns has the size of what it was
    given. *)
Theorem convnext_rules_keep_size
    (fn : string → ndarray A → list pystr → result (string * ndarray A))
    key val groups new_key new_val :
  fn ∈ cn_block_layer_scale :: weight_or_bias_handlers →
  fn key val groups = Ok (new_key, new_val) →
  size new_val = size val.
Proof.
  intros Hfn H. unfold weight_or_bias_handlers in Hfn.
  repeat (apply elem_of_cons in Hfn as [-> | Hfn]); [..|by apply elem_of_nil in Hfn];
    by_arity groups; try discriminate; unfold_handlers H; step_handler H;
    try discriminate; injection H as _ <-; try reflexivity.
  all: try apply size_reshape_flat.
  all: match goal with
       | Hw : transpose_conv_weights _ = Ok _ |- _ =>
           apply transpose_conv_weights_ok in Hw as [Hn ->];
           unfold size, shape; simpl dims; by apply size_permute_4
       | Hw : transpose_dense_weights _ = Ok _ |- _ =>
           apply transpose_dense_weights_ok in Hw as [Hn ->];
           unfold size, shape; simpl dims; by apply size_permute_2
       end.
Qed.

Lemma flat_map_lookup_seq (l pre : list A) :
  flat_map (λ i, match (pre ++ l) !! i with Some x => [x] | None => [] end)
    (seq (length pre) (length l)) = l.
Proof.
  revert pre. induction l as [|x l IH]; intros pre; [done|]. simpl.
  rewrite list_lookup_middle by done. simpl. f_equal.
  specialize (IH (pre ++ [x])). rewrite <- app_assoc, length_app in IH.
  simpl in IH. by rewrite Nat.add_1_r in IH.
Qed.

Lemma ravel_reshape_flat val :
  length (ravel val) = size val → ravel (reshape_flat val) = ravel val.
Proof.
  intros Hlen. unfold ravel at 1, reshape_flat. simpl. rewrite <- Hlen.
  etransitivity; [|apply (flat_map_lookup_seq (ravel val) [])]. simpl.
  apply flat_map_ext. intros i. by rewrite Nat.mul_1_r.
Qed.

(** X7. The layer-scale rule returns a tensor of rank 1 with as many
    elements as the input and, for an input whose elements are all in its
    data, the same elements in row-major order. *)
Theorem layer_scale_rule_flattens key val groups new_key new_val :
  cn_block_layer_scale key val groups = Ok (new_key, new_val) →
  ndim new_val = 1
  ∧ shape new_val = [size val]
  ∧ (length (ravel val) = size val →
     ravel new_val = ravel val ∧ ∀ i, get new_val [i] = ravel val !! i).
Proof.
  intros H.
  assert (new_val = reshape_flat val) as ->.
  { by_arity groups; try discriminate. unfold cn_block_layer_scale in H.
    destruct (stage_index g); [|done]. rewrite bind_Ok in H. by injection H as _ <-. }
  split; [done|]. split; [done|]. intros Hlen.
  split; [by apply ravel_reshape_flat|].
  intros i. unfold get, shape, strides. simpl.
  rewrite Nat.mul_1_r, Nat.add_0_r.
  destruct (Nat.ltb_spec i (size val)); simpl; [done|].
  symmetry. apply lookup_ge_None. lia.
Qed.
End TensorFacts.

Lemma conv_rules_kernel_layout_witness :
  let val := np_array [2; 1; 1; 3] [10; 11; 12; 20; 21; 22]%Z in
  ∃ new_key new_val,
    initial_conv "features.0.0.weight" val [Some "weight"] = Ok (new_key, new_val)
    ∧ ndim val = 4
    ∧ shape new_val = permute [2; 3; 1; 0] (shape val)
    ∧ data new_val = data val
    ∧ ∀ o i kh kw, get new_val [kh; kw; i; o] = get val [o; i; kh; kw].
Proof.
  intros val. eexists _, _. split; [reflexivity|].
  eapply (conv_rules_kernel_layout initial_conv "features.0.0.weight" val
           [Some "weight"] _ _).
  - apply list_elem_of_here.
  - reflexivity.
  - reflexivity.
Defined.

Lemma dense_rules_kernel_layout_witness :
  let val := np_array [2; 3] [1; 2; 3; 4; 5; 6]%Z in
  ∃ new_key new_val,
    classifier_dense "classifier.2.weight" val [Some "weight"] = Ok (new_key, new_val)
    ∧ ndim val = 2
    ∧ shape new_val = reverse (shape val)
    ∧ data new_val = data val
    ∧ ∀ o i, get new_val [i; o] = get val [o; i].
Proof.
  intros val. eexists _, _. split; [reflexivity|].
  eapply (dense_rules_kernel_layout classifier_dense "classifier.2.weight" val
           [Some "weight"] _ _).
  - apply list_elem_of_further, list_elem_of_here.
  - reflexivity.
  - reflexivity.
Defined.

Lemma convnext_rules_keep_tensor_witness :
  let val := np_array [2; 3] [1; 2; 3; 4; 5; 6]%Z in
  ∃ new_key new_val,
    classifier_dense "classifier.2.bias" val [Some "bias"] = Ok (new_key, new_val)
    ∧ new_val = val.
Proof.
  intros val. eexists _, _. split; [reflexivity|].
  eapply (convnext_rules_keep_tensor classifier_dense "classifier.2.bias" val
            [Some "bias"] _ _).
  - right. split; [|reflexivity].
    do 8 apply list_elem_of_further. apply list_elem_of_here.
  - reflexivity.
Defined.

Lemma convnext_rules_keep_size_witness :
  let val := np_array [2; 1; 1; 3] [10; 11; 12; 20; 21; 22]%Z in
  ∃ new_key new_val,
    cn_block_block_conv "features.1.0.block.0.weight" val
      [Some "1"; Some "0"; Some "weight"] = Ok (new_key, new_val)
    ∧ size new_val = size val.
Proof.
  intros val. eexists _, _. split; [reflexivity|].
  eapply (convnext_rules_keep_size cn_block_block_conv "features.1.0.block.0.weight"
           val [Some "1"; Some "0"; Some "weight"] _ _).
  - do 3 apply list_elem_of_further. apply list_elem_of_here.
  - reflexivity.
Defined.

Lemma layer_scale_rule_flattens_witness :
  let val := np_array [3; 1; 1] [7; 8; 9]%Z in
  ∃ new_key new_val,
    cn_block_layer_scale "features.1.0.layer_scale" val [Some "1"; Some "0"]
    = Ok (new_key, new_val)
    ∧ ndim new_val = 1
    ∧ shape new_val = [3]
    ∧ ravel new_val = [7; 8; 9]%Z.
Proof.
  intros val. eexists _, _. split; [reflexivity|].
  destruct (layer_scale_rule_flattens "features.1.0.layer_scale" val
              [Some "1"; Some "0"] _ _ eq_refl) as (Hn & Hs & Hr).
  split; [exact Hn|]. split; [exact Hs|].
  destruct (Hr eq_refl) as [-> _]. reflexivity.
Defined.

(** ** The set-up of the model *)

Lemma obind_Built {X Y} (x : X) (f : X → outcome Y) : Built x ≫= f = f x.
Proof. reflexivity. Qed.

Lemma obind_Raised {X Y} e (f : X → outcome Y) : Raised e ≫= f = Raised e.
Proof. reflexivity. Qed.

Ltac osimpl := rewrite ?obind_Built, ?obind_Raised.

Section SplitSchedule.
Context {X : Type}.
Implicit Types (ary : list X) (ns : list nat).

Lemma cumsum_from_length acc ns : length (cumsum_from acc ns) = length ns.
Proof. revert acc. induction ns as [|n ns IH]; intros acc; simpl; [done | by rewrite IH]. Qed.

Lemma split_from_length ary st indices :
  length (split_from ary st indices) = S (length indices).
Proof.
  revert st. induction indices as [|en indices IH]; intros st; simpl; [done | by rewrite IH].
Qed.

(** Piece [i] of a split at the running sums of [ns] is the slice that
    starts after the first [i] counts and has the [i]-th count as its
    length at most. *)
Lemma split_from_cumsum_lookup ary ns st i n :
  ns !! i = Some n →
  split_from ary st (cumsum_from st ns) !! i
  = Some (slice ary (st + sum_list (take i ns)) (st + sum_list (take i ns) + n)).
Proof.
  revert st i. induction ns as [|m ns IH]; intros st i Hi; [done|].
  destruct i as [|i]; simpl in *.
  - injection Hi as ->. by rewrite Nat.add_0_r.
  - rewrite (IH _ _ Hi). do 2 f_equal; lia.
Qed.

Lemma split_from_cumsum_last ary ns st :
  st + sum_list ns = length ary →
  split_from ary st (cumsum_from st ns) !! length ns = Some [].
Proof.
  revert st. induction ns as [|m ns IH]; intros st Hlen; simpl in *.
  - unfold slice. rewrite Nat.add_0_r in Hlen. rewrite Hlen.
    by rewrite Nat.sub_diag.
  - apply IH. lia.
Qed.

End SplitSchedule.

Lemma sum_list_take_le (ns : list nat) i n :
  ns !! i = Some n → sum_list (take i ns) + n ≤ sum_list ns.
Proof.
  revert i. induction ns as [|m ns IH]; intros i Hi; [done|].
  destruct i as [|i]; simpl in *.
  - injection Hi as ->. lia.
  - specialize (IH _ Hi). lia.
Qed.

Lemma slice_fmap_seq {Y} (f : nat → Y) total a n :
  a + n ≤ total →
  slice (f <$> seq 0 total) a (a + n) = f <$> seq a n.
Proof.
  intros Hle. unfold slice. rewrite <- fmap_drop, <- fmap_take. f_equal.
  rewrite drop_seq, take_seq. simpl. f_equal. lia.
Qed.

Lemma concat_seq_chunks (ns : list nat) (st : nat) :
  concat (imap (λ i n, seq (st + sum_list (take i ns)) n) ns)
  = seq st (sum_list ns).
Proof.
  revert st. induction ns as [|n ns IH]; intros st; [done|].
  simpl. rewrite Nat.add_0_r, seq_app. f_equal.
  rewrite <- (IH (st + n)). f_equal. apply imap_ext. intros i m _. simpl.
  f_equal. lia.
Qed.

Lemma concat_imap_fmap {X Y Z} (f : X → Y) (g : nat → Z → list X) (l : list Z) :
  concat (imap (λ i z, f <$> g i z) l) = f <$> concat (imap g l).
Proof.
  revert g. induction l as [|z l IH]; intros g; [done|].
  simpl. rewrite fmap_app. f_equal. apply (IH (λ i, g (S i))).
Qed.

Section SetupFacts.
Context {F : Type}.
Variable sd_value : nat → nat → F.
Variable layer_scale : F.
Implicit Types (bs : list CNBlockConfig) (st : stage_config (F:=F)).

Lemma for_each_sd_prob total ids :
  for_each (sd_prob sd_value total) ids
  = if (total =? 1) && negb (bool_decide (ids = []))
    then Raised ZeroDivisionError
    else Built ((λ id, sd_value id total) <$> ids).
Proof.
  induction ids as [|id ids IH].
  - simpl. by rewrite andb_false_r.
  - cbn [for_each]. rewrite IH. unfold sd_prob.
    rewrite (bool_decide_eq_false_2 (id :: ids = [])) by done.
    destruct (total =? 1); [done|]. by osimpl.
Qed.

Lemma build_stages_ok bs : ∀ i (chunks : list (list F)),
  (∀ j, j < length bs → is_Some (chunks !! (i + j))) →
  ∃ stages,
    build_stages layer_scale i bs chunks = Built stages
    ∧ length stages = length bs
    ∧ ∀ j cnf, bs !! j = Some cnf →
        ∃ probs, chunks !! (i + j) = Some probs
          ∧ stages !! j
            = Some {| stage_num_channels := num_channels cnf;
                      stage_num_layers := num_layers cnf;
                      stage_layer_scale := layer_scale;
                      stage_stride := if 0 <? i + j then 2 else 1;
                      stage_probs := probs |}.
Proof.
  induction bs as [|cnf bs IH]; intros i chunks Hch; simpl.
  - exists []. by repeat split.
  - destruct (Hch 0) as [probs Hp]; [simpl; lia|]. rewrite Nat.add_0_r in Hp.
    unfold getitem. rewrite Hp. osimpl.
    destruct (IH (S i) chunks) as (stages & -> & Hlen & Hst).
    { intros j Hj. replace (S i + j) with (i + S j) by lia. apply Hch. simpl. lia. }
    osimpl. eexists. split; [done|]. split; [simpl; by rewrite Hlen|].
    intros [|j] cnf' Hj; simpl in Hj.
    + injection Hj as <-. exists probs. rewrite Nat.add_0_r. by split.
    + destruct (Hst j cnf' Hj) as (probs' & Hp' & Hs').
      exists probs'. replace (i + S j) with (S i + j) by lia. by split.
Qed.

Lemma setup_unfold bs :
  setup sd_value layer_scale bs
  = match bs with
    | [] => Raised ListIndexError
    | first :: _ =>
        let total := sum_list (num_layers <$> bs) in
        if total =? 1 then Raised ZeroDivisionError
        else
          build_stages layer_scale 0 bs
            (np_split ((λ id, sd_value id total) <$> seq 0 total)
               (np_cumsum (num_layers <$> bs)))
          ≫= λ stages, Built (num_channels first, stages)
    end.
Proof.
  unfold setup. destruct bs as [|first bs]; [done|].
  unfold getitem at 1. cbn [lookup list_lookup]. osimpl. cbv zeta.
  rewrite for_each_sd_prob.
  set (total := sum_list (num_layers <$> first :: bs)).
  destruct (total =? 1) eqn:Ht.
  - apply Nat.eqb_eq in Ht. rewrite Ht. done.
  - simpl. by osimpl.
Qed.

Lemma setup_chunks bs i cnf :
  bs !! i = Some cnf →
  let total := sum_list (num_layers <$> bs) in
  np_split ((λ id, sd_value id total) <$> seq 0 total)
    (np_cumsum (num_layers <$> bs)) !! i
  = Some ((λ id, sd_value id total)
            <$> seq (sum_list (take i (num_layers <$> bs))) (num_layers cnf)).
Proof.
  intros Hi total. unfold np_split, np_cumsum.
  assert ((num_layers <$> bs) !! i = Some (num_layers cnf)) as Hn.
  { by rewrite list_lookup_fmap, Hi. }
  rewrite (split_from_cumsum_lookup _ _ 0 i _ Hn). f_equal. simpl.
  apply slice_fmap_seq. by apply sum_list_take_le.
Qed.


Lemma setup_first_channels bs c stages :
  setup sd_value layer_scale bs = Built (c, stages) →
  head (num_channels <$> bs) = Some c.
Proof.
  rewrite setup_unfold. destruct bs as [|first bs]; [done|].
  cbv zeta. destruct (_ =? 1); [done|].
  destruct (build_stages _ _ _ _); [|done]. osimpl. by intros [= <- _].
Qed.

Lemma setup_stage_lookup bs c stages :
  setup sd_value layer_scale bs = Built (c, stages) →
  let total := sum_list (num_layers <$> bs) in
  length stages = length bs
  ∧ ∀ i cnf, bs !! i = Some cnf →
      stages !! i
      = Some {| stage_num_channels := num_channels cnf;
                stage_num_layers := num_layers cnf;
                stage_layer_scale := layer_scale;
                stage_stride := if 0 <? i then 2 else 1;
                stage_probs :=
                  (λ id, sd_value id total)
                    <$> seq (sum_list (take i (num_layers <$> bs)))
                          (num_layers cnf) |}.
Proof.
  rewrite setup_unfold. destruct bs as [|first bs]; [done|].
  cbv zeta. set (total := sum_list (num_layers <$> first :: bs)).
  destruct (total =? 1); [done|].
  destruct (build_stages_ok (first :: bs) 0
              (np_split ((λ id, sd_value id total) <$> seq 0 total)
                 (np_cumsum (num_layers <$> first :: bs))))
    as (stages' & -> & Hlen & Hst).
  { intros j Hj. apply lookup_lt_is_Some.
    unfold np_split, np_cumsum.
    rewrite split_from_length, cumsum_from_length, length_fmap. simpl in *. lia. }
  osimpl. intros [= <- <-]. split; [done|].
  intros i cnf Hi. destruct (Hst i cnf Hi) as (probs & Hp & ->).
  change (0 + i) with i in Hp. subst total.
  pose proof (setup_chunks _ _ _ Hi) as Hch. cbv zeta in Hch.
  rewrite Hch in Hp. by injection Hp as <-.
Qed.

(** X9. When [ConvNeXt.setup] succeeds, the first convolution has the
    channels of the first setting and there is one stage for each setting,
    in order: stage [i] has the channels and the layers of setting [i],
    stride 1 for the first stage and 2 for the others, and its
    probabilities are the values of the schedule for the consecutive block
    numbers that start at the number of blocks of the stages before it. *)
Theorem setup_stages bs c stages :
  setup sd_value layer_scale bs = Built (c, stages) →
  let total := sum_list (num_layers <$> bs) in
  head (num_channels <$> bs) = Some c
  ∧ length stages = length bs
  ∧ ∀ i cnf, bs !! i = Some cnf →
      stages !! i
      = Some {| stage_num_channels := num_channels cnf;
                stage_num_layers := num_layers cnf;
                stage_layer_scale := layer_scale;
                stage_stride := if 0 <? i then 2 else 1;
                stage_probs :=
                  (λ id, sd_value id total)
                    <$> seq (sum_list (take i (num_layers <$> bs)))
                          (num_layers cnf) |}.
Proof.
  intros Hs total. split.
  - by eapply setup_first_channels.
  - by eapply setup_stage_lookup.
Qed.

Lemma for_each_getitem {X Y} (l : list X) (g : X → Y) n :
  n ≤ length l →
  for_each (λ i, getitem l i ≫= λ p, Built (g p)) (seq 0 n)
  = Built (g <$> take n l).
Proof.
  revert l. induction n as [|n IH]; intros l Hn; [by rewrite take_0|].
  destruct l as [|x l]; [simpl in Hn; lia|].
  simpl seq. cbn [for_each]. unfold getitem at 1. simpl. osimpl.
  rewrite <- seq_shift.
  assert (∀ ids, for_each (λ i, getitem (x :: l) i ≫= λ p, Built (g p)) (S <$> ids)
                 = for_each (λ i, getitem l i ≫= λ p, Built (g p)) ids) as Hshift.
  { induction ids as [|i ids IHi]; [done|]. cbn [fmap list_fmap for_each].
    by rewrite IHi. }
  rewrite Hshift, IH by (simpl in Hn; lia). by osimpl.
Qed.

(** X10. Every stage that [ConvNeXt.setup] builds can create its blocks:
    it holds as many probabilities as it has layers, so that
    [stochastic_depth_probs[i]] never fails, and block [i] gets the
    channels and the layer scale of the stage with the [i]-th probability
    of the stage. *)
Theorem setup_stage_blocks bs c stages st :
  setup sd_value layer_scale bs = Built (c, stages) →
  st ∈ stages →
  stage_blocks st
  = Built ((λ p, {| block_dim := stage_num_channels st;
                    block_layer_scale := layer_scale;
                    block_stochastic_depth_prob := p |}) <$> stage_probs st)
  ∧ length (stage_probs st) = stage_num_layers st.
Proof.
  intros Hs Hin. apply setup_stage_lookup in Hs as (Hlen & Hst).
  apply list_elem_of_lookup in Hin as [i Hi].
  destruct (lookup_lt_is_Some_2 bs i) as [cnf Hc].
  { rewrite <- Hlen. by eapply lookup_lt_Some. }
  rewrite (Hst i cnf Hc) in Hi. injection Hi as <-. simpl.
  split; [|by rewrite length_fmap, length_seq].
  unfold stage_blocks. simpl.
  rewrite for_each_getitem by by rewrite length_fmap, length_seq.
  rewrite take_ge; [done|]. by rewrite length_fmap, length_seq.
Qed.

(** X11. Every stage after the first creates its downsampling layers,
    whatever the channels of its input, since its stride is 2; the first
    stage, fed by the stem, creates none. *)
Theorem setup_downsampling bs c stages i st in_channels :
  setup sd_value layer_scale bs = Built (c, stages) →
  stages !! i = Some st →
  (0 < i → stage_downsamples in_channels st = true)
  ∧ (i = 0 → stage_downsamples c st = false).
Proof.
  intros Hs Hi. pose proof (setup_first_channels _ _ _ Hs) as Hc.
  apply setup_stage_lookup in Hs as (Hlen & Hst).
  destruct (lookup_lt_is_Some_2 bs i) as [cnf Hcnf].
  { rewrite <- Hlen. by eapply lookup_lt_Some. }
  rewrite (Hst i cnf Hcnf) in Hi. injection Hi as <-.
  unfold stage_downsamples. simpl. split.
  - intros Hpos. destruct (Nat.ltb_spec 0 i); [|lia]. simpl. apply orb_true_r.
  - intros ->. destruct bs as [|first bs]; [done|]. simpl in *.
    injection Hc as <-. injection Hcnf as <-. by rewrite Nat.eqb_refl.
Qed.
(** X17. The probabilities of the stages that [ConvNeXt.setup] builds, one
    stage after the other, are the whole schedule in order: every block of
    the model gets one value of the schedule and none is left over or used
    twice. *)
Theorem setup_probs_partition bs c stages :
  setup sd_value layer_scale bs = Built (c, stages) →
  let total := sum_list (num_layers <$> bs) in
  concat (stage_probs <$> stages) = (λ id, sd_value id total) <$> seq 0 total.
Proof.
  intros Hs total. apply setup_stage_lookup in Hs as (Hlen & Hst).
  fold total in Hst. set (f := λ id, sd_value id total) in *.
  assert (stage_probs <$> stages
          = imap (λ i n, f <$> seq (0 + sum_list (take i (num_layers <$> bs))) n)
              (num_layers <$> bs)) as ->.
  { apply list_eq. intros i. rewrite list_lookup_fmap, list_lookup_imap.
    rewrite list_lookup_fmap.
    destruct (bs !! i) as [cnf|] eqn:Hi; simpl.
    - by rewrite (Hst i cnf Hi).
    - rewrite lookup_ge_None_2; [done|]. apply lookup_ge_None in Hi. lia. }
  clearbody f. subst total.
  rewrite <- (concat_seq_chunks (num_layers <$> bs) 0).
  apply concat_imap_fmap.
Qed.

End SetupFacts.


Lemma setup_stages_witness :
  ∃ stages,
    setup (λ id total, (id, total)) (0, 0) convnext_tiny_settings = Built (96, stages)
    ∧ length stages = 4
    ∧ stage_probs <$> stages !! 2
      = Some [(6, 18); (7, 18); (8, 18); (9, 18); (10, 18); (11, 18); (12, 18);
              (13, 18); (14, 18)].
Proof.
  eexists. split; [reflexivity|].
  destruct (setup_stages (λ id total, (id, total)) (0, 0) convnext_tiny_settings _ _ eq_refl)
    as (_ & Hlen & Hst).
  split; [exact Hlen|].
  by rewrite (Hst 2 (mk_config 384 9) eq_refl).
Defined.

Lemma setup_stage_blocks_witness :
  let st := {| stage_num_channels := 192; stage_num_layers := 3;
               stage_layer_scale := (0, 0); stage_stride := 2;
               stage_probs := [(3, 18); (4, 18); (5, 18)] |} in
  stage_blocks st
  = Built [mk_block 192 (0, 0) (3, 18); mk_block 192 (0, 0) (4, 18);
           mk_block 192 (0, 0) (5, 18)]
  ∧ length (stage_probs st) = 3.
Proof.
  intros st.
  eapply (setup_stage_blocks (λ id total, (id, total)) (0, 0) convnext_tiny_settings _ _ st).
  - reflexivity.
  - apply list_elem_of_further, list_elem_of_here.
Defined.

Lemma setup_downsampling_witness :
  let st := {| stage_num_channels := 192; stage_num_layers := 3;
               stage_layer_scale := (0, 0); stage_stride := 2;
               stage_probs := [(3, 18); (4, 18); (5, 18)] |} in
  stage_downsamples 192 st = true.
Proof.
  intros st.
  eapply (setup_downsampling (λ id total, (id, total)) (0, 0) convnext_tiny_settings _ _ 1 st 192).
  - reflexivity.
  - reflexivity.
  - lia.
Defined.

Lemma setup_probs_partition_witness :
  ∃ stages,
    setup (λ id total, (id, total)) (0, 0) [mk_config 8 1; mk_config 16 2]
    = Built (8, stages)
    ∧ concat (stage_probs <$> stages) = [(0, 3); (1, 3); (2, 3)].
Proof.
  eexists. split; [reflexivity|].
  apply (setup_probs_partition (λ id total, (id, total)) (0, 0)
           [mk_config 8 1; mk_config 16 2] 8 _ eq_refl).
Defined.

(** ** The top of the loaded tree *)

Lemma convnext_targets_first_segment {A} rule key (val : ndarray A)
    groups new_key new_val :
  rule ∈ convnext_importer →
  matches rule key = Some groups →
  handler rule key val groups = Ok (new_key, new_val) →
  ∃ seg rest, str_split new_key "/" = Ok (seg :: rest) ∧ seg ∈ top_level_modules.
Proof.
  intros Hin Hm. rule_cases Hin; unfold matches in Hm; simpl in Hm |- *;
    group_cases Hm.
  all: intros H; unfold_handlers H.
  all: revert H;
    generalize (transpose_conv_weights val), (transpose_dense_weights val);
    intros tc td H; vm_compute in H.
  all: repeat match type of H with
       | context [match ?r with Ok _ => _ | Err _ => _ end] => destruct r
       end; try discriminate; injection H as <- <-.
  all: eexists _, _; split; [vm_compute; reflexivity|].
  all: unfold top_level_modules; set_solver.
Qed.

Section UnflattenDom.
Context {T : Type}.
Implicit Types (m : gmap string (tree T)) (xs : flat_dict T).

Lemma insert_path_dom k p (v : T) m m' :
  insert_path (k :: p) v m = Ok m' → dom m' = {[k]} ∪ dom m.
Proof.
  destruct (insert_path_top k p v) as (f & Hf & _). rewrite Hf.
  destruct (f (m !! k)); [|done]. rewrite bind_Ok. intros [= <-].
  apply dom_insert_L.
Qed.

Lemma unflatten_loop_dom xs sep m m' k :
  unflatten_loop xs sep m = Ok m' →
  k ∈ dom m' →
  k ∈ dom m
  ∨ ∃ key v rest, (key, v) ∈ xs ∧ str_split key sep = Ok (k :: rest).
Proof.
  revert m. induction xs as [|[key v] xs IH]; intros m.
  - intros [= <-]. by left.
  - rewrite unflatten_loop_cons.
    destruct (str_split key sep) as [p|] eqn:Hs; rsimpl; [|done].
    destruct (insert_path p v m) as [m1|] eqn:Hi; rsimpl; [|done].
    intros Hloop Hk. destruct (IH m1 Hloop Hk) as [Hk1|(key' & v' & rest & Hin & Hs')].
    + destruct p as [|k0 p]; [done|].
      rewrite (insert_path_dom _ _ _ _ _ Hi) in Hk1.
      apply elem_of_union in Hk1 as [Hk0|Hkm]; [|by left].
      apply elem_of_singleton in Hk0 as ->. right.
      exists key, v, p. split; [by left | done].
    + right. exists key', v', rest. split; [by right | done].
Qed.
End UnflattenDom.

(** X12. When [load_from_torch_checkpoint] succeeds, the result holds the
    one key [params], and the keys at the top of the tree under it are
    among the modules of the model: [stem], [stages_0] to [stages_3] and
    [classifier]. *)
Theorem load_from_torch_checkpoint_top_level {A}
    (state_dict : flat_dict (ndarray A)) r :
  load_from_torch_checkpoint state_dict = Ok r →
  ∃ params,
    r = {[ "params" := Node params ]}
    ∧ ∀ k, k ∈ dom params → k ∈ top_level_modules.
Proof.
  unfold load_from_torch_checkpoint. rewrite as_numpy_id.
  destruct (apply convnext_importer state_dict) as [out|] eqn:Happ; rsimpl; [|done].
  rewrite dict_copy_id.
  destruct (unflatten_dict out "/") as [params|] eqn:Hun; rsimpl; [|done].
  intros [= <-]. exists params. split; [done|].
  intros k Hk.
  destruct (unflatten_loop_dom out "/" ∅ params k Hun Hk)
    as [Hk0|(nk & nv & rest & Hin & Hs)].
  { by rewrite dom_empty_L in Hk0. }
  apply apply_ok in Happ as [_ Hall].
  apply list_elem_of_lookup in Hin as [i Hi].
  destruct (Forall2_lookup_r _ _ _ _ _ Hall Hi) as ([key val] & _ & Ht).
  simpl in Ht. unfold translate_entry in Ht.
  destruct (find_rule convnext_importer key) as [[rule groups]|] eqn:Hf; [|done].
  apply find_rule_some in Hf as (pre & post & Hrules & _ & Hm).
  destruct (convnext_targets_first_segment rule key val groups nk nv)
    as (seg & rest' & Hs' & Hseg); [|done|done|].
  { rewrite Hrules. set_solver. }
  rewrite Hs in Hs'. by injection Hs' as -> _.
Qed.

Lemma load_from_torch_checkpoint_top_level_witness :
  let sd := [("features.0.0.bias", np_array [1] [5]%Z);
             ("classifier.0.weight", np_array [1] [6]%Z)] in
  ∃ params,
    load_from_torch_checkpoint sd = Ok {[ "params" := Node params ]}
    ∧ ∀ k, k ∈ dom params → k ∈ top_level_modules.
Proof.
  intros sd.
  destruct (load_from_torch_checkpoint sd) as [r|] eqn:Hload; [|discriminate].
  destruct (load_from_torch_checkpoint_top_level sd r Hload) as (params & -> & Hdom).
  by exists params.
Defined.

(** ** The paths of the target keys *)

Section SplitJoin.

Lemma str_mem_app c a b : str_mem c (a +:+ b) = str_mem c a || str_mem c b.
Proof.
  induction a as [|x a IH]; [done|]. rewrite str_app_cons. simpl.
  by rewrite IH, orb_assoc.
Qed.

Lemma split_go_free c s :
  str_mem c s = false → split_go (String c "") s 0 = [s].
Proof.
  induction s as [|a s IH]; [done|]. simpl.
  intros [Ha Hs]%orb_false_iff. apply bool_decide_eq_false in Ha.
  rewrite bool_decide_eq_false_2 by congruence. simpl.
  by rewrite IH.
Qed.

Lemma split_go_free_cons c s rest :
  str_mem c s = false →
  split_go (String c "") (s +:+ String c rest) 0
  = s :: split_go (String c "") rest 0.
Proof.
  induction s as [|a s IH].
  - intros _. rewrite str_app_nil_l. simpl.
    by rewrite bool_decide_eq_true_2.
  - simpl. intros [Ha Hs]%orb_false_iff. apply bool_decide_eq_false in Ha.
    rewrite ?str_app_cons. simpl.
    rewrite bool_decide_eq_false_2 by congruence. simpl.
    by rewrite IH.
Qed.

Lemma str_split_join_free c parts :
  parts ≠ [] →
  Forall (λ s, str_mem c s = false) parts →
  str_split (str_join (String c "") parts) (String c "") = Ok parts.
Proof.
  intros Hne Hall. unfold str_split. f_equal.
  induction Hall as [|s parts Hs Hall IH]; [done|].
  destruct parts as [|s' parts].
  - simpl. by apply split_go_free.
  - change (str_join (String c "") (s :: s' :: parts))
      with (s +:+ String c "" +:+ str_join (String c "") (s' :: parts)).
    rewrite str_app_cons, str_app_nil_l.
    rewrite split_go_free_cons by done. f_equal. by apply IH.
Qed.

Lemma plus_digit_free c x :
  is_digit c = false → Re.plus_lang DigitChar x → str_mem c x = false.
Proof.
  intros Hc. induction 1 as [a Ha|a s Ha _ IH]; simpl in *.
  - rewrite orb_false_r. apply bool_decide_eq_false. by intros ->; congruence.
  - rewrite IH, orb_false_r. apply bool_decide_eq_false. by intros ->; congruence.
Qed.

End SplitJoin.

Lemma split_go_block_target st x rest :
  str_mem "/" st = false →
  Re.lang (Plus DigitChar) x →
  split_go "/" (st +:+ String "/" (("CNBlock_" +:+ x) +:+ String "/" rest)) 0
  = st :: ("CNBlock_" +:+ x) :: split_go "/" rest 0.
Proof.
  intros Hst Hx. inversion_clear Hx as [| |? ? Hx'| | | |].
  rewrite split_go_free_cons by done. f_equal.
  rewrite split_go_free_cons; [done|].
  rewrite str_mem_app. by rewrite (plus_digit_free "/" x).
Qed.

Ltac split_target :=
  unfold str_split; apply (f_equal Ok);
  lazymatch goal with
  | Hx : Re.lang (Plus DigitChar) ?x
    |- split_go _ (String _ (String _ (String _ (String _ (String _ (String _
         (String _ (String ?d _)))))))) 0 = _ =>
      lazymatch goal with
      | |- context [?f x (String "/" ?rest)] =>
          let st := constr:(String "s" (String "t" (String "a" (String "g"
                      (String "e" (String "s" (String "_" (String d ""))))))))
          in
          transitivity (split_go "/" (st +:+ String "/" (("CNBlock_" +:+ x)
                                        +:+ String "/" rest)) 0);
          [ reflexivity
          | etransitivity;
            [ exact (split_go_block_target st x rest eq_refl Hx)
            | vm_compute; reflexivity ] ]
      end
  | _ => vm_compute; reflexivity
  end.

Lemma convnext_target_path {A} rule key (val : ndarray A) groups new_key new_val :
  rule ∈ convnext_importer →
  matches rule key = Some groups →
  handler rule key val groups = Ok (new_key, new_val) →
  ∃ i path,
    convnext_importer !! i = Some rule
    ∧ str_split new_key "/" = Ok path
    ∧ untranslate path = Some (i, groups)
    ∧ ((length path = 3 ∧ path !! 2 ≠ Some "block")
       ∨ (length path = 5 ∧ path !! 2 = Some "block")).
Proof.
  intros Hin Hm. rule_cases Hin; unfold matches in Hm; simpl in Hm |- *;
    group_cases Hm.
  all: intros H; unfold_handlers H.
  all: revert H;
    generalize (transpose_conv_weights val), (transpose_dense_weights val);
    intros tc td H; vm_compute in H.
  all: repeat match type of H with
       | context [match ?r with Ok _ => _ | Err _ => _ end] => destruct r
       end; try discriminate; injection H as <- <-.
  all: eexists _, _; split;
    [|split; [split_target|split; [vm_compute; reflexivity|]]].
  all: lazymatch goal with
       | |- _ ∨ _ =>
           first [ left; split; [reflexivity|discriminate]
                 | right; split; reflexivity ]
       | |- _ => rewrite convnext_importer_rules; reflexivity
       end.
Qed.

Lemma translate_entry_ok {A} key (val : ndarray A) new_key new_val :
  translate_entry convnext_importer key val = Ok (new_key, new_val) →
  ∃ rule groups,
    rule ∈ convnext_importer
    ∧ matches rule key = Some groups
    ∧ handler rule key val groups = Ok (new_key, new_val).
Proof.
  unfold translate_entry.
  destruct (find_rule convnext_importer key) as [[rule groups]|] eqn:Hf; [|done].
  apply find_rule_some in Hf as (pre & post & Hrules & _ & Hm).
  intros H. exists rule, groups. split; [|done].
  rewrite Hrules. apply elem_of_app. right. by left.
Qed.

(** X13. The target key tells which rule produced it and from which
    groups: two keys that rules of [convnext_importer] send to the same
    target key are handled by the same rule and captured the same groups, so
    that they differ at most in the characters that the unescaped dots of
    the pattern match. *)
Theorem convnext_target_determines_rule_and_groups {A}
    rule1 rule2 key1 key2 (val1 val2 : ndarray A) groups1 groups2
    new_key new_val1 new_val2 :
  rule1 ∈ convnext_importer →
  rule2 ∈ convnext_importer →
  matches rule1 key1 = Some groups1 →
  matches rule2 key2 = Some groups2 →
  handler rule1 key1 val1 groups1 = Ok (new_key, new_val1) →
  handler rule2 key2 val2 groups2 = Ok (new_key, new_val2) →
  rule1 = rule2 ∧ groups1 = groups2.
Proof.
  intros Hin1 Hin2 Hm1 Hm2 H1 H2.
  destruct (convnext_target_path _ _ _ _ _ _ Hin1 Hm1 H1)
    as (i1 & p1 & Hr1 & Hs1 & Hu1 & _).
  destruct (convnext_target_path _ _ _ _ _ _ Hin2 Hm2 H2)
    as (i2 & p2 & Hr2 & Hs2 & Hu2 & _).
  rewrite Hs1 in Hs2. injection Hs2 as <-.
  rewrite Hu1 in Hu2. injection Hu2 as <- <-.
  split; [congruence | done].
Qed.

Lemma convnext_target_determines_rule_and_groups_witness :
  let rule := {| pattern := compiled "features.0.0.(weight|bias)";
                 handler := initial_conv (A:=Z) |} in
  let val := np_array [1] [5]%Z in
  handler rule "features.0.0.bias" val [Some "bias"]
  = handler rule "featuresX0.0.bias" val [Some "bias"]
  ∧ rule = rule
  ∧ [Some "bias"] = [Some "bias"].
Proof.
  intros rule val. split; [reflexivity|].
  apply (convnext_target_determines_rule_and_groups rule rule
           "features.0.0.bias" "featuresX0.0.bias" val val
           [Some "bias"] [Some "bias"] "stem/layers_0/bias" val val).
  - rewrite convnext_importer_rules. apply list_elem_of_here.
  - rewrite convnext_importer_rules. apply list_elem_of_here.
  - reflexivity.
  - reflexivity.
  - reflexivity.
  - reflexivity.
Defined.

(** ** One rule for each key *)

Section Disjoint.
Import Re.

Lemma atoms_disjoint_sound a b c :
  atoms_disjoint a b = true →
  atom_matches a c = true → atom_matches b c = true → False.
Proof.
  destruct a as [x| |], b as [y| |]; simpl; try done.
  all: repeat case_bool_decide; subst; simpl; try done.
  all: intros H1 H2 H3; try (apply negb_true_iff in H1); congruence.
Qed.

Lemma seq_lang_app s1 s2 k1 k2 :
  seq_lang s1 k1 → seq_lang s2 k2 → seq_lang (s1 ++ s2) (k1 +:+ k2).
Proof.
  revert k1. induction s1 as [|it s1 IH]; intros k1; simpl.
  - intros ->. by rewrite str_app_nil_l.
  - intros (ka & kb & -> & Hit & Hs1) Hs2.
    exists ka, (kb +:+ k2). rewrite str_app_assoc. split; [done|].
    split; [done|]. by apply IH.
Qed.

Lemma sequences_sound r key :
  lang r key → ∃ s, s ∈ sequences r ∧ seq_lang s key.
Proof.
  induction 1 as [|a c Hc|a s Hs|r1 r2 s1 s2 _ IH1 _ IH2|r1 r2 s _ IH
                 |r1 r2 s _ IH|r s _ IH]; simpl.
  - exists []. split; [by left | done].
  - exists [One a]. split; [by left|]. exists (String c ""), "".
    rewrite str_app_nil_r. split; [done|]. split; [by exists c | done].
  - exists [Many a]. split; [by left|]. exists s, "".
    rewrite str_app_nil_r. done.
  - destruct IH1 as (q1 & Hq1 & Hl1), IH2 as (q2 & Hq2 & Hl2).
    exists (q1 ++ q2). split; [|by apply seq_lang_app].
    apply list_elem_of_bind. exists q1. split; [|done].
    apply list_elem_of_fmap. by exists q2.
  - destruct IH as (q & Hq & Hl). exists q. split; [|done].
    apply elem_of_app. by left.
  - destruct IH as (q & Hq & Hl). exists q. split; [|done].
    apply elem_of_app. by right.
  - done.
Qed.

Lemma plus_lang_head a key :
  plus_lang a key → ∃ c rest, key = String c rest ∧ atom_matches a c = true.
Proof. destruct 1 as [c Hc|c s Hc _]; by eexists _, _. Qed.

Lemma item_lang_head it key :
  item_lang it key →
  ∃ c rest, key = String c rest ∧ atom_matches (item_atom it) c = true.
Proof.
  destruct it as [a|a]; simpl.
  - intros (c & -> & Hc). by exists c, "".
  - apply plus_lang_head.
Qed.

Lemma clash_sound s1 s2 key :
  clash s1 s2 = true → seq_lang s1 key → seq_lang s2 key → False.
Proof.
  revert s2 key. induction s1 as [|it1 s1 IH]; intros [|it2 s2] key; simpl;
    try done.
  - intros _ -> (k1 & k2 & Hk & (c & rest & -> & _)%item_lang_head & _).
    by rewrite str_app_cons in Hk.
  - intros _ (k1 & k2 & -> & (c & rest & -> & _)%item_lang_head & _) Hk.
    by rewrite str_app_cons in Hk.
  - intros Hclash (k1 & k2 & -> & Hit1 & Hs1) (k1' & k2' & Hk & Hit2 & Hs2).
    assert (atoms_disjoint (item_atom it1) (item_atom it2) = true → False) as Hdis.
    { intros Hd.
      apply item_lang_head in Hit1 as (c & rest & -> & Hc).
      apply item_lang_head in Hit2 as (c' & rest' & -> & Hc').
      rewrite !str_app_cons in Hk. injection Hk as -> _.
      by eapply atoms_disjoint_sound. }
    destruct it1 as [a|a], it2 as [b|b]; try done.
    apply orb_true_iff in Hclash as [Hd|Hclash]; [done|].
    destruct Hit1 as (c & -> & _), Hit2 as (c' & -> & _).
    rewrite !str_app_cons, !str_app_nil_l in Hk. injection Hk as -> ->.
    by eapply IH.
Qed.

Lemma rev_app_append s acc : String.rev_app s acc = String.rev s +:+ acc.
Proof.
  unfold String.rev. revert acc. induction s as [|c s IH]; intros acc; simpl.
  - by rewrite str_app_nil_l.
  - rewrite IH, (IH (String c "")), str_app_assoc.
    by rewrite str_app_cons, str_app_nil_l.
Qed.

Lemma rev_cons c s : String.rev (String c s) = String.rev s +:+ String c "".
Proof. unfold String.rev at 1. simpl. apply rev_app_append. Qed.

Lemma rev_append a b : String.rev (a +:+ b) = String.rev b +:+ String.rev a.
Proof.
  induction a as [|c a IH].
  - by rewrite str_app_nil_l, str_app_nil_r.
  - by rewrite str_app_cons, !rev_cons, IH, str_app_assoc.
Qed.

Lemma plus_lang_snoc a s c :
  plus_lang a s → atom_matches a c = true → plus_lang a (s +:+ String c "").
Proof.
  induction 1 as [c' Hc'|c' s Hc' _ IH]; intros Hc.
  - rewrite str_app_cons, str_app_nil_l. apply plus_more; [done|]. by apply plus_one.
  - rewrite str_app_cons. apply plus_more; [done|]. by apply IH.
Qed.

Lemma plus_lang_rev a s : plus_lang a s → plus_lang a (String.rev s).
Proof.
  induction 1 as [c Hc|c s Hc _ IH].
  - by apply plus_one.
  - rewrite rev_cons. by apply plus_lang_snoc.
Qed.

Lemma seq_lang_rev s key : seq_lang s key → seq_lang (rev s) (String.rev key).
Proof.
  revert key. induction s as [|it s IH]; intros key; simpl.
  - by intros ->.
  - intros (k1 & k2 & -> & Hit & Hs). rewrite rev_append.
    apply seq_lang_app; [by apply IH|].
    exists (String.rev k1), "". rewrite str_app_nil_r. split; [done|].
    split; [|done]. destruct it as [a|a]; simpl in *.
    + destruct Hit as (c & -> & Hc). by exists c.
    + by apply plus_lang_rev.
Qed.

Lemma patterns_disjoint_sound r1 r2 key :
  patterns_disjoint r1 r2 = true → lang r1 key → lang r2 key → False.
Proof.
  intros Hd (s1 & Hs1 & Hl1)%sequences_sound (s2 & Hs2 & Hl2)%sequences_sound.
  unfold patterns_disjoint in Hd.
  rewrite forallb_forall in Hd. apply list_elem_of_In, Hd in Hs1.
  rewrite forallb_forall in Hs1. apply list_elem_of_In, Hs1 in Hs2.
  apply orb_true_iff in Hs2 as [Hc|Hc].
  - by eapply clash_sound.
  - eapply clash_sound; [exact Hc | by apply seq_lang_rev..].
Qed.

End Disjoint.

Lemma convnext_patterns_disjoint {A} (rule1 rule2 : PatternRule (ndarray A)) key :
  rule1 ∈ convnext_importer →
  rule2 ∈ convnext_importer →
  Re.lang (pattern rule1) key →
  Re.lang (pattern rule2) key →
  rule1 = rule2.
Proof.
  intros Hin1 Hin2 Hl1 Hl2.
  rule_cases Hin1; rule_cases Hin2; try reflexivity; exfalso.
  all: revert Hl1 Hl2; apply patterns_disjoint_sound; vm_compute; reflexivity.
Qed.

(** X14. No key is matched by two rules of [convnext_importer]: a rule
    that matches a key is the one that the dispatch selects, with the
    groups of that match, in whatever order the ten rules are registered. *)
Theorem convnext_dispatch_unambiguous {A}
    (rules : CheckpointTranslator (ndarray A)) rule key groups :
  rules ≡ₚ convnext_importer →
  rule ∈ convnext_importer →
  matches rule key = Some groups →
  find_rule rules key = Some (rule, groups).
Proof.
  intros Hperm Hin Hm.
  destruct (find_rule rules key) as [[rule' groups']|] eqn:Hf.
  - apply find_rule_some in Hf as (pre & post & Hrules & _ & Hm').
    assert (rule' ∈ convnext_importer) as Hin'.
    { rewrite <- Hperm, Hrules. apply elem_of_app. right. by left. }
    assert (rule' = rule) as ->.
    { apply (convnext_patterns_disjoint _ _ key Hin' Hin);
        apply matches_lang; eauto. }
    congruence.
  - apply find_rule_none in Hf. rewrite <- Hperm in Hin.
    rewrite Forall_forall in Hf. specialize (Hf rule Hin). congruence.
Qed.

Lemma convnext_dispatch_unambiguous_witness :
  let rule := {| pattern := compiled "features.(1|3|5|7).(\d+).block.2.(weight|bias)";
                 handler := cn_block_block_norm (A:=Z) |} in
  find_rule (reverse convnext_importer) "features.5.26.block.2.weight"
  = Some (rule, [Some "5"; Some "26"; Some "weight"]).
Proof.
  intros rule.
  apply (convnext_dispatch_unambiguous (reverse convnext_importer) rule
           "features.5.26.block.2.weight" [Some "5"; Some "26"; Some "weight"]).
  - apply reverse_Permutation.
  - rewrite convnext_importer_rules. do 5 apply list_elem_of_further.
    apply list_elem_of_here.
  - reflexivity.
Defined.

(** ** When the loader succeeds and how it fails *)

Section PrefixFree.
Context {T : Type}.
Implicit Types (m : gmap string (tree T)) (p q : list string) (v w : T).

Lemma insert_path_value p v w m :
  is_ok (insert_path p v m) = is_ok (insert_path p w m).
Proof.
  revert m. induction p as [|k p IH]; intros m; [done|].
  destruct (decide (p = [])) as [->|Hne].
  - rewrite !insert_path_single. by destruct (m !! k) as [[?|?]|].
  - rewrite !insert_path_deep by done.
    destruct (descend m k) as [ch|]; [|done]. rsimpl.
    specialize (IH ch).
    destruct (insert_path p v ch), (insert_path p w ch); done.
Qed.

(** Inserting [p] leaves room for every path [q] that had room before and
    that neither extends [p] nor is extended by it. *)
Lemma insert_path_keeps_room p q v w m m' :
  insert_path p v m = Ok m' →
  is_ok (insert_path q w m) = true →
  (p `prefix_of` q → p = q) →
  (q `prefix_of` p → q = p) →
  is_ok (insert_path q w m') = true.
Proof.
  revert q m m'. induction p as [|k p IH]; intros q m m'; [done|].
  destruct q as [|k' q]; [done|].
  intros Hp Hq Hpq Hqp.
  destruct (decide (k' = k)) as [->|Hk].
  - destruct (decide (p = [])) as [->|Hpne].
    + assert (q = []) as ->.
      { assert ([k] `prefix_of` k :: q) as Hpre by by exists q.
        apply Hpq in Hpre. by injection Hpre. }
      rewrite insert_path_single in Hp.
      destruct (m !! k) as [[?|?]|] eqn:Hmk; try done; injection Hp as <-.
      all: by rewrite insert_path_single, lookup_insert_eq.
    + destruct (decide (q = [])) as [->|Hqne].
      { assert ([k] `prefix_of` k :: p) as Hpre by by exists p.
        apply Hqp in Hpre. by injection Hpre as <-. }
      rewrite insert_path_deep in Hp, Hq by done.
      rewrite insert_path_deep by done.
      destruct (descend m k) as [ch|] eqn:Hd; [|done]. rewrite bind_Ok in Hp, Hq.
      destruct (insert_path p v ch) as [sub|] eqn:Hsub; [|done].
      rewrite bind_Ok in Hp. injection Hp as <-.
      unfold descend. rewrite lookup_insert_eq. rewrite bind_Ok.
      assert (is_ok (insert_path q w sub) = true) as Hok.
      { apply (IH q ch sub Hsub).
        - by destruct (insert_path q w ch).
        - intros Hpre. assert (k :: p `prefix_of` k :: q) as Hpre'.
          { by apply prefix_cons. }
          apply Hpq in Hpre'. by injection Hpre'.
        - intros Hpre. assert (k :: q `prefix_of` k :: p) as Hpre'.
          { by apply prefix_cons. }
          apply Hqp in Hpre'. by injection Hpre'. }
      by destruct (insert_path q w sub).
  - destruct (insert_path_top k' q w) as (f & Hf & _).
    rewrite Hf in Hq. rewrite Hf.
    assert (m' !! k' = m !! k') as ->; [|by destruct (f (m !! k'))].
    destruct (insert_path_top k p v) as (g & Hg & _).
    rewrite Hg in Hp. destruct (g (m !! k)); [|done].
    rewrite bind_Ok in Hp. injection Hp as <-. by rewrite lookup_insert_ne.
Qed.

Lemma unflatten_loop_prefix_free (xs : flat_dict T) sep m :
  (∀ k v, (k, v) ∈ xs →
     ∃ p, str_split k sep = Ok p ∧ is_ok (insert_path p v m) = true) →
  (∀ k1 v1 k2 v2 p1 p2,
     (k1, v1) ∈ xs → (k2, v2) ∈ xs →
     str_split k1 sep = Ok p1 → str_split k2 sep = Ok p2 →
     p1 `prefix_of` p2 → p1 = p2) →
  ∃ m', unflatten_loop xs sep m = Ok m'.
Proof.
  revert m. induction xs as [|[k v] xs IH]; intros m Hroom Hfree.
  - by eexists.
  - rewrite unflatten_loop_cons.
    destruct (Hroom k v) as (p & Hs & Hok); [by left|].
    rewrite Hs. rsimpl.
    destruct (insert_path p v m) as [m1|] eqn:Hi; [|done]. rsimpl.
    apply IH.
    + intros k' v' Hin.
      destruct (Hroom k' v') as (q & Hs' & Hok'); [by right|].
      exists q. split; [done|].
      apply (insert_path_keeps_room p q v v' m m1 Hi Hok').
      * by apply (Hfree k v k' v'); [left | right | |].
      * by apply (Hfree k' v' k v); [right | left | |].
    + intros k1 v1 k2 v2 p1 p2 H1 H2. apply (Hfree k1 v1 k2 v2); by right.
Qed.

End PrefixFree.

Section ApplyFacts.
Context {T : Type}.
Implicit Types (rules : CheckpointTranslator T) (sd acc out : flat_dict T).

Lemma apply_loop_complete rules sd acc new :
  Forall2 (λ src tgt, translate_entry rules src.1 src.2 = Ok tgt) sd new →
  NoDup (acc ++ new).*1 →
  apply_loop rules sd acc = Ok (acc ++ new).
Proof.
  intros Hall. revert acc.
  induction Hall as [|[key val] [nk nv] sd new Ht _ IH]; intros acc Hnd; simpl.
  - by rewrite app_nil_r.
  - simpl in Ht. rewrite Ht. simpl.
    replace (acc ++ (nk, nv) :: new) with ((acc ++ [(nk, nv)]) ++ new) in *
      by by rewrite <- app_assoc.
    rewrite bool_decide_eq_false_2; [by apply IH|].
    rewrite <- app_assoc, fmap_app in Hnd. apply NoDup_app in Hnd as (_ & Hdis & _).
    intros Hin. apply (Hdis nk Hin). by left.
Qed.

Lemma apply_loop_error rules seen sd acc e :
  Forall2 (λ src tgt, translate_entry rules src.1 src.2 = Ok tgt) seen acc →
  apply_loop rules sd acc = Err e →
  (∃ key val, (key, val) ∈ sd ∧ translate_entry rules key val = Err e)
  ∨ (∃ k i j src1 src2 v1 v2,
       e = DuplicateTargetKeyError k ∧ i < j
       ∧ (seen ++ sd) !! i = Some src1 ∧ (seen ++ sd) !! j = Some src2
       ∧ translate_entry rules src1.1 src1.2 = Ok (k, v1)
       ∧ translate_entry rules src2.1 src2.2 = Ok (k, v2)).
Proof.
  revert seen acc. induction sd as [|[key val] sd IH]; intros seen acc Hseen; simpl;
    [done|].
  destruct (translate_entry rules key val) as [[nk nv]|e'] eqn:Ht; simpl.
  - case_bool_decide as Hin.
    + intros [= <-]. right.
      apply list_elem_of_fmap in Hin as ([nk' v1] & Heq & Hin).
      simpl in Heq; subst nk'.
      apply list_elem_of_lookup in Hin as [i Hi].
      destruct (Forall2_lookup_r _ _ _ _ _ Hseen Hi) as (src1 & Hs1 & Ht1).
      exists nk, i, (length seen), src1, (key, val), v1, nv.
      split; [done|]. split; [by apply lookup_lt_Some in Hs1|].
      split; [by rewrite lookup_app_l by (by apply lookup_lt_Some in Hs1)|].
      split; [by rewrite list_lookup_middle|]. done.
    + intros Hloop.
      assert (Forall2 (λ src tgt, translate_entry rules src.1 src.2 = Ok tgt)
                (seen ++ [(key, val)]) (acc ++ [(nk, nv)])) as Hseen'.
      { apply Forall2_app; [exact Hseen|]. constructor; [exact Ht | constructor]. }
      destruct (IH _ _ Hseen' Hloop)
        as [(key' & val' & Hin' & Ht')
           |(k & i & j & src1 & src2 & v1 & v2 & H)].
      * left. exists key', val'. split; [by right | done].
      * right. exists k, i, j, src1, src2, v1, v2. by rewrite <- app_assoc in H.
  - intros [= <-]. left. exists key, val. split; [by left | done].
Qed.

End ApplyFacts.

Section TreeOfTargets.
Context {A : Type}.
Implicit Types (sd out : flat_dict (ndarray A)).

Lemma insert_path_empty_ok {T} (p : list string) (v : T) :
  p ≠ [] → is_ok (insert_path p v ∅) = true.
Proof.
  induction p as [|k p IH]; [done|]. intros _.
  destruct (decide (p = [])) as [->|Hne]; [done|].
  rewrite insert_path_deep by done. unfold descend. rewrite lookup_empty.
  rewrite bind_Ok. specialize (IH Hne). by destruct (insert_path p v ∅).
Qed.

Lemma convnext_targets_unflatten sd out :
  Forall2 (λ src tgt, translate_entry convnext_importer src.1 src.2 = Ok tgt)
    sd out →
  ∃ params, unflatten_dict out "/" = Ok params.
Proof.
  intros Hall.
  assert (∀ k v, (k, v) ∈ out →
            ∃ p, str_split k "/" = Ok p
                 ∧ ((length p = 3 ∧ p !! 2 ≠ Some "block")
                    ∨ (length p = 5 ∧ p !! 2 = Some "block"))) as Hshape.
  { intros k v Hin. apply list_elem_of_lookup in Hin as [i Hi].
    destruct (Forall2_lookup_r _ _ _ _ _ Hall Hi) as ([key val] & _ & Ht).
    apply translate_entry_ok in Ht as (rule & groups & Hin & Hm & Hh).
    destruct (convnext_target_path _ _ _ _ _ _ Hin Hm Hh)
      as (_ & p & _ & Hs & _ & Hp).
    by exists p. }
  apply unflatten_loop_prefix_free.
  - intros k v Hin. destruct (Hshape k v Hin) as (p & Hs & Hp).
    exists p. split; [done|]. apply insert_path_empty_ok.
    intros ->. by destruct Hp as [[? _]|[? _]].
  - intros k1 v1 k2 v2 p1 p2 Hin1 Hin2 Hs1 Hs2 Hpre.
    destruct (Hshape k1 v1 Hin1) as (p1' & Hs1' & Hp1).
    destruct (Hshape k2 v2 Hin2) as (p2' & Hs2' & Hp2).
    rewrite Hs1 in Hs1'. injection Hs1' as <-.
    rewrite Hs2 in Hs2'. injection Hs2' as <-.
    destruct Hp1 as [[Hl1 Hb1]|[Hl1 Hb1]], Hp2 as [[Hl2 Hb2]|[Hl2 Hb2]].
    + apply prefix_length_eq; [done | lia].
    + exfalso. apply Hb1. destruct (lookup_lt_is_Some_2 p1 2) as [s Hs]; [lia|].
      rewrite Hs. by rewrite (prefix_lookup_Some _ _ _ _ Hs Hpre) in Hb2.
    + apply prefix_length in Hpre. lia.
    + apply prefix_length_eq; [done | lia].
Qed.

End TreeOfTargets.

Ltac handler_failure_cases Hin Hm val :=
  rule_cases Hin; unfold matches in Hm; simpl in Hm |- *; group_cases Hm;
  try (by intros [=]);
  let H := fresh "H" in
  intros H; split; [|reflexivity]; unfold_handlers H;
  first
    [ destruct (np_transpose_conv_cases val) as [[? Hw]|Hw]; rewrite Hw in H
    | destruct (np_transpose_dense_cases val) as [[? Hw]|Hw]; rewrite Hw in H ];
  vm_compute in H; congruence.

Lemma translate_entry_error {A} key (val : ndarray A) e :
  translate_entry convnext_importer key val = Err e →
  (find_rule (convnext_importer (A:=A)) key = None ∧ e = UnmatchedKeyError key)
  ∨ (∃ rule groups,
       find_rule (convnext_importer (A:=A)) key = Some (rule, groups)
       ∧ handler rule key val groups = Err e
       ∧ e = ValueError "axes don't match array"
       ∧ last groups = Some (Some "weight")).
Proof.
  unfold translate_entry.
  destruct (find_rule convnext_importer key) as [[rule groups]|] eqn:Hf.
  - intros H. right. exists rule, groups. split; [done|]. split; [done|].
    apply find_rule_some in Hf as (pre & post & Hrules & _ & Hm).
    assert (rule ∈ convnext_importer) as Hin.
    { rewrite Hrules. apply elem_of_app. right. by left. }
    clear Hrules. revert H. handler_failure_cases Hin Hm val.
  - intros [= <-]. by left.
Qed.

Section Loader.
Context {A : Type}.
Implicit Types (state_dict out : flat_dict (ndarray A)).

(** X15. [load_from_torch_checkpoint] succeeds exactly when every entry
    is translated by the rule that matches its key and no two entries get
    the same target key.  Building the tree never fails: no target key of
    [convnext_importer] is a leaf on the path of another one. *)
Theorem load_from_torch_checkpoint_succeeds_iff state_dict :
  is_ok (load_from_torch_checkpoint state_dict) = true
  ↔ ∃ out,
      Forall2 (λ src tgt, translate_entry convnext_importer src.1 src.2 = Ok tgt)
        state_dict out
      ∧ NoDup out.*1.
Proof.
  unfold load_from_torch_checkpoint. rewrite as_numpy_id. split.
  - destruct (apply convnext_importer state_dict) as [out|] eqn:Happ; [|done].
    intros _. exists out. apply apply_ok in Happ as [Hnd Hall]. by split.
  - intros (out & Hall & Hnd).
    assert (apply convnext_importer state_dict = Ok out) as ->.
    { exact (apply_loop_complete _ _ [] out Hall Hnd). }
    rsimpl.
    rewrite dict_copy_id.
    destruct (convnext_targets_unflatten _ _ Hall) as [params ->]. by rsimpl.
Qed.

(** X16. [load_from_torch_checkpoint] raises three errors only: the
    unmatched-key error for an entry whose key no rule matches, numpy's
    [ValueError] for a weight whose rank its rule cannot transpose, and the
    duplicate-target-key error for two entries with the same target key.
    It never raises a [KeyError], a [TypeError] or a structural
    conflict. *)
Theorem load_from_torch_checkpoint_errors state_dict e :
  load_from_torch_checkpoint state_dict = Err e →
  (∃ key val,
     (key, val) ∈ state_dict
     ∧ find_rule (convnext_importer (A:=A)) key = None
     ∧ e = UnmatchedKeyError key)
  ∨ (∃ key val rule groups,
       (key, val) ∈ state_dict
       ∧ find_rule (convnext_importer (A:=A)) key = Some (rule, groups)
       ∧ last groups = Some (Some "weight")
       ∧ handler rule key val groups = Err e
       ∧ e = ValueError "axes don't match array")
  ∨ (∃ target i j key1 val1 key2 val2 new_val1 new_val2,
       i < j
       ∧ state_dict !! i = Some (key1, val1)
       ∧ state_dict !! j = Some (key2, val2)
       ∧ translate_entry convnext_importer key1 val1 = Ok (target, new_val1)
       ∧ translate_entry convnext_importer key2 val2 = Ok (target, new_val2)
       ∧ e = DuplicateTargetKeyError target).
Proof.
  unfold load_from_torch_checkpoint. rewrite as_numpy_id.
  destruct (apply convnext_importer state_dict) as [out|e'] eqn:Happ; rsimpl.
  - rewrite dict_copy_id. apply apply_ok in Happ as [_ Hall].
    destruct (convnext_targets_unflatten _ _ Hall) as [params ->]. by rsimpl.
  - intros [= <-]. unfold apply in Happ.
    destruct (apply_loop_error convnext_importer [] state_dict [] e'
                (Forall2_nil_2 _ _ _) Happ)
      as [(key & val & Hin & Ht)
         |(k & i & j & [k1 v1] & [k2 v2] & w1 & w2 & -> & Hij & Hi & Hj & H1 & H2)].
    + apply translate_entry_error in Ht
        as [[Hf ->]|(rule & groups & Hf & Hh & -> & Hl)].
      * left. exists key, val. repeat split; assumption || reflexivity.
      * right. left. exists key, val, rule, groups.
        repeat split; assumption || reflexivity.
    + right. right. exists k, i, j, k1, v1, k2, v2, w1, w2.
      repeat split; assumption || reflexivity.
Qed.

End Loader.

Lemma load_from_torch_checkpoint_succeeds_iff_witness :
  is_ok (load_from_torch_checkpoint
           [("features.0.0.bias", np_array [1] [5]%Z);
            ("features.3.1.block.5.weight", np_array [2; 3] [1; 2; 3; 4; 5; 6]%Z)])
  = true.
Proof.
  apply (proj2 (load_from_torch_checkpoint_succeeds_iff _)).
  eexists. split.
  - constructor; [reflexivity|]. constructor; [reflexivity|]. constructor.
  - simpl. apply (bool_decide_unpack _). reflexivity.
Defined.

Lemma load_from_torch_checkpoint_errors_witness :
  let state_dict := [("features.0.0.bias", np_array [1] [5]%Z);
                     ("features.0.0.weight", np_array [3] [1; 2; 3]%Z)] in
  let e := ValueError "axes don't match array" in
  load_from_torch_checkpoint state_dict = Err e
  ∧ ((∃ key val,
        (key, val) ∈ state_dict
        ∧ find_rule (convnext_importer (A:=Z)) key = None
        ∧ e = UnmatchedKeyError key)
     ∨ (∃ key val rule groups,
          (key, val) ∈ state_dict
          ∧ find_rule (convnext_importer (A:=Z)) key = Some (rule, groups)
          ∧ last groups = Some (Some "weight")
          ∧ handler rule key val groups = Err e
          ∧ e = ValueError "axes don't match array")
     ∨ (∃ target i j key1 val1 key2 val2 new_val1 new_val2,
          i < j
          ∧ state_dict !! i = Some (key1, val1)
          ∧ state_dict !! j = Some (key2, val2)
          ∧ translate_entry convnext_importer key1 val1 = Ok (target, new_val1)
          ∧ translate_entry convnext_importer key2 val2 = Ok (target, new_val2)
          ∧ e = DuplicateTargetKeyError target)).
Proof.
  intros state_dict e. split; [reflexivity|].
  apply (load_from_torch_checkpoint_errors state_dict e). reflexivity.
Defined.

(** ** The keys of a checkpoint of torchvision *)

Section Runs.
Import Re.

Lemma star_atom_run {X} a x rest (k : string → option X) :
  x = "" ∨ plus_lang a x →
  stops a rest →
  is_Some (k rest) →
  star_atom a (x +:+ rest) k = k rest.
Proof.
  intros Hx Hrest [v Hk].
  assert (∀ x, plus_lang a x → star_atom a (x +:+ rest) k = k rest) as Hplus.
  { assert (star_atom a rest k = k rest) as H0.
    { destruct rest as [|c rest]; [done|]. simpl in *. by rewrite Hrest. }
    induction 1 as [c Hc|c s Hc _ IH]; rewrite str_app_cons; simpl; rewrite Hc.
    - rewrite str_app_nil_l, H0, Hk. done.
    - by rewrite IH, Hk. }
  destruct Hx as [->|Hx]; [|by apply Hplus].
  rewrite str_app_nil_l. destruct rest as [|c rest]; [done|].
  simpl in *. by rewrite Hrest.
Qed.

Lemma rmatch_plus_run {X} a x rest g caps (k : string → list pystr → option X) :
  plus_lang a x →
  stops a rest →
  is_Some (k rest caps) →
  rmatch (Plus a) g (x +:+ rest) caps k = k rest caps.
Proof.
  intros Hx Hrest Hk.
  destruct Hx as [c Hc|c s Hc Hs]; rewrite str_app_cons; simpl; rewrite Hc.
  - by apply (star_atom_run a "" rest (λ s'', k s'' caps)); [left| |].
  - by apply (star_atom_run a s rest (λ s'', k s'' caps)); [right| |].
Qed.

End Runs.

Section CanonicalKeys.
Local Arguments Re.consumed : simpl never.

Lemma consumed_cons c s : Re.consumed (String c s) s = String c "".
Proof. apply (consumed_app (String c "") s). Qed.

Lemma rmatch_plus_value {X} a x rest g caps (k : string → list pystr → option X) v :
  Re.plus_lang a x →
  stops a rest →
  k rest caps = Some v →
  Re.rmatch (Plus a) g (x +:+ rest) caps k = Some v.
Proof.
  intros Hx Hrest Hk. rewrite rmatch_plus_run; [done..|]. by rewrite Hk.
Qed.

Ltac eval_decides :=
  repeat match goal with
  | |- context [bool_decide ?P] =>
      let b := eval vm_compute in (bool_decide P) in
      change (bool_decide P) with b
  end.

Ltac eval_match := cbn; eval_decides; cbn.

(** Runs the matcher on a key with the run of digits [x] in the place of
    the one repetition of the pattern. *)
Ltac match_block_key Hx :=
  unfold matches, Re.fullmatch; simpl pattern;
  match goal with
  | |- context [compiled ?p] =>
      let r := eval vm_compute in (compiled p) in change (compiled p) with r
  end;
  let HR := fresh "HR" in
  let HN := fresh "HN" in
  pose proof (λ g rest caps (k : string → list pystr → option (list pystr)) v,
              rmatch_plus_value DigitChar _ rest g caps k v Hx) as HR;
  pose proof (eq_refl : Re.ngroups (Plus DigitChar) = 0) as HN;
  revert HR HN; generalize (Plus DigitChar); intros ? HR HN;
  repeat (rewrite str_app_cons || rewrite str_app_nil_l);
  eval_match; rewrite ?HN;
  erewrite HR; [cbn; reflexivity | first [exact I | reflexivity] |];
  eval_match; rewrite ?HN; eval_match;
  rewrite ?consumed_cons, ?consumed_app; reflexivity.

Lemma convnext_find_rule {A} (rule : PatternRule (ndarray A)) key groups :
  rule ∈ convnext_importer →
  matches rule key = Some groups →
  find_rule convnext_importer key = Some (rule, groups).
Proof.
  intros Hin Hm.
  destruct (find_rule convnext_importer key) as [[rule' groups']|] eqn:Hf.
  - apply find_rule_some in Hf as (pre & post & Hrules & _ & Hm').
    assert (rule' = rule) as ->; [|congruence].
    apply (convnext_patterns_disjoint _ _ key); [|done|..];
      [|apply matches_lang; eauto..].
    rewrite Hrules. apply elem_of_app. right. by left.
  - apply find_rule_none in Hf. rewrite Forall_forall in Hf.
    specialize (Hf rule Hin). congruence.
Qed.

Ltac eval_pretty :=
  repeat match goal with
  | |- context [@pretty ?T ?I ?n] =>
      let v := eval vm_compute in (@pretty T I n) in
      change (@pretty T I n) with v
  end.

(** Translates one key of a block: the rule is found through its match. *)
Ltac translate_block_key Hx Hin :=
  unfold translate_entry;
  erewrite (convnext_find_rule _ _ _ Hin); [ | match_block_key Hx ];
  reflexivity.

Context {A : Type}.

(** X18. The keys of the blocks as torchvision names them: for a stage
    [n] from 0 to 3 and a block number written in digits, the nine entries
    [features.<2n+1>.<block>.layer_scale] and
    [features.<2n+1>.<block>.block.<0|2|3|5>.<weight|bias>] are translated
    to [stages_<n>/CNBlock_<block>/layer_scale] and to the parameters of
    the layers 0, 1, 2 and 4 of the block, with the layer scale flattened,
    the weight of the convolution and of the dense layers transposed and
    the other tensors unchanged. *)
Theorem block_keys_translate (n : nat) (block : string) (val : ndarray A) :
  n ≤ 3 →
  Re.plus_lang DigitChar block →
  let source := "features." +:+ pretty (2 * n + 1) +:+ "." +:+ block in
  let target := "stages_" +:+ pretty n +:+ "/CNBlock_" +:+ block in
  let translate := translate_entry convnext_importer in
  translate (source +:+ ".layer_scale") val
  = Ok (target +:+ "/layer_scale", reshape_flat val)
  ∧ translate (source +:+ ".block.0.weight") val
    = (w ← transpose_conv_weights val; Ok (target +:+ "/block/layers_0/kernel", w))
  ∧ translate (source +:+ ".block.0.bias") val
    = Ok (target +:+ "/block/layers_0/bias", val)
  ∧ translate (source +:+ ".block.2.weight") val
    = Ok (target +:+ "/block/layers_1/scale", val)
  ∧ translate (source +:+ ".block.2.bias") val
    = Ok (target +:+ "/block/layers_1/bias", val)
  ∧ translate (source +:+ ".block.3.weight") val
    = (w ← transpose_dense_weights val; Ok (target +:+ "/block/layers_2/kernel", w))
  ∧ translate (source +:+ ".block.3.bias") val
    = Ok (target +:+ "/block/layers_2/bias", val)
  ∧ translate (source +:+ ".block.5.weight") val
    = (w ← transpose_dense_weights val; Ok (target +:+ "/block/layers_4/kernel", w))
  ∧ translate (source +:+ ".block.5.bias") val
    = Ok (target +:+ "/block/layers_4/bias", val).
Proof.
  intros Hn Hx source target translate. subst source target translate.
  assert ({| pattern := compiled "features.(1|3|5|7).(\d+).layer_scale";
             handler := cn_block_layer_scale (A:=A) |} ∈ convnext_importer)
    as Hscale
    by (rewrite convnext_importer_rules; do 2 apply list_elem_of_further;
        apply list_elem_of_here).
  assert ({| pattern := compiled "features.(1|3|5|7).(\d+).block.0.(weight|bias)";
             handler := cn_block_block_conv (A:=A) |} ∈ convnext_importer)
    as Hconv
    by (rewrite convnext_importer_rules; do 3 apply list_elem_of_further;
        apply list_elem_of_here).
  assert ({| pattern := compiled "features.(1|3|5|7).(\d+).block.(3|5).(weight|bias)";
             handler := cn_block_block_dense (A:=A) |} ∈ convnext_importer)
    as Hdense
    by (rewrite convnext_importer_rules; do 4 apply list_elem_of_further;
        apply list_elem_of_here).
  assert ({| pattern := compiled "features.(1|3|5|7).(\d+).block.2.(weight|bias)";
             handler := cn_block_block_norm (A:=A) |} ∈ convnext_importer)
    as Hnorm
    by (rewrite convnext_importer_rules; do 5 apply list_elem_of_further;
        apply list_elem_of_here).
  assert (n = 0 ∨ n = 1 ∨ n = 2 ∨ n = 3) as [->|[->|[->| ->]]] by lia.
  all: eval_pretty.
  all: split_and!;
    [ translate_block_key Hx Hscale
     | translate_block_key Hx Hconv | translate_block_key Hx Hconv
     | translate_block_key Hx Hnorm | translate_block_key Hx Hnorm
     | translate_block_key Hx Hdense | translate_block_key Hx Hdense
     | translate_block_key Hx Hdense | translate_block_key Hx Hdense ].
Qed.

(** X19. The other keys as torchvision names them: the stem
    ([features.0.0] and [features.0.1]), the downsampling before stage [n]
    for [n] from 1 to 3 ([features.<2n>.0] and [features.<2n>.1]) and the
    classifier ([classifier.0] and [classifier.2]) are translated to the
    parameters of [stem], of [LayerNorm_0] and [Conv_0] of the stage and of
    [classifier]; only the weights of the convolutions and of the dense
    layer are transposed. *)
Theorem fixed_keys_translate (n : nat) (val : ndarray A) :
  1 ≤ n ≤ 3 →
  let downsample := "features." +:+ pretty (2 * n) in
  let stage := "stages_" +:+ pretty n in
  let translate := translate_entry convnext_importer in
  translate "features.0.0.weight" val
  = (w ← transpose_conv_weights val; Ok ("stem/layers_0/kernel", w))
  ∧ translate "features.0.0.bias" val = Ok ("stem/layers_0/bias", val)
  ∧ translate "features.0.1.weight" val = Ok ("stem/layers_1/scale", val)
  ∧ translate "features.0.1.bias" val = Ok ("stem/layers_1/bias", val)
  ∧ translate (downsample +:+ ".0.weight") val
    = Ok (stage +:+ "/LayerNorm_0/scale", val)
  ∧ translate (downsample +:+ ".0.bias") val
    = Ok (stage +:+ "/LayerNorm_0/bias", val)
  ∧ translate (downsample +:+ ".1.weight") val
    = (w ← transpose_conv_weights val; Ok (stage +:+ "/Conv_0/kernel", w))
  ∧ translate (downsample +:+ ".1.bias") val
    = Ok (stage +:+ "/Conv_0/bias", val)
  ∧ translate "classifier.0.weight" val = Ok ("classifier/layers_0/scale", val)
  ∧ translate "classifier.0.bias" val = Ok ("classifier/layers_0/bias", val)
  ∧ translate "classifier.2.weight" val
    = (w ← transpose_dense_weights val; Ok ("classifier/layers_2/kernel", w))
  ∧ translate "classifier.2.bias" val = Ok ("classifier/layers_2/bias", val).
Proof.
  intros Hn downsample stage translate. subst downsample stage translate.
  assert (n = 1 ∨ n = 2 ∨ n = 3) as [->|[->| ->]] by lia.
  all: split_and!; reflexivity.
Qed.

End CanonicalKeys.

Lemma block_keys_translate_witness :
  let val := np_array [2; 3] [1; 2; 3; 4; 5; 6]%Z in
  translate_entry convnext_importer "features.5.26.layer_scale" val
  = Ok ("stages_2/CNBlock_26/layer_scale", reshape_flat val)
  ∧ translate_entry convnext_importer "features.5.26.block.3.weight" val
    = (w ← transpose_dense_weights val;
       Ok ("stages_2/CNBlock_26/block/layers_2/kernel", w)).
Proof.
  intros val.
  assert (Re.plus_lang DigitChar "26") as Hx.
  { apply Re.plus_more; [reflexivity|]. apply Re.plus_one. reflexivity. }
  destruct (block_keys_translate 2 "26" val ltac:(lia) Hx)
    as (Hscale & _ & _ & _ & _ & Hdense & _).
  split; [exact Hscale | exact Hdense].
Defined.

Lemma fixed_keys_translate_witness :
  let val := np_array [1] [5]%Z in
  translate_entry convnext_importer "features.4.0.weight" val
  = Ok ("stages_2/LayerNorm_0/scale", val)
  ∧ translate_entry convnext_importer "classifier.2.bias" val
    = Ok ("classifier/layers_2/bias", val).
Proof.
  intros val.
  destruct (fixed_keys_translate 2 val ltac:(lia))
    as (_ & _ & _ & _ & Hnorm & _ & _ & _ & _ & _ & _ & Hbias).
  split; [exact Hnorm | exact Hbias].
Defined.
